(** * Flint for Atom: the package's main class (lib/main.js)

    A shallow embedding of class [Flint]: the project-path / connection /
    document orchestration of the editor integration.  The class is
    event driven; its methods run to completion on the single event-loop
    thread and suspend only on the three asynchronous operations
    [realPath], [fileExists] and [Connection.create].  The embedding is a
    transition function over an explicit state: every event of the host
    (a path change, the settlement of an asynchronous operation, a
    compiler message, a document opened or closed) runs the callback the
    source registered for it. *)

From Stdlib Require Import String Ascii.
From Stdlib Require Import List ZArith Bool Arith Lia.
Import ListNotations.
Local Open Scope string_scope.
Local Open Scope list_scope.

Set Implicit Arguments.

(** ** JavaScript [Map]: an association list in insertion order *)

Module JsMap.
Section WithKey.
Variables K V : Type.
Variable K_dec : forall x y : K, {x = y} + {x <> y}.

Definition t := list (K * V).

Fixpoint get (k : K) (m : t) : option V :=
  match m with
  | [] => None
  | (k', v) :: r => if K_dec k k' then Some v else get k r
  end.

Definition has (k : K) (m : t) : bool :=
  match get k m with Some _ => true | None => false end.

(** [set] on a key already present keeps the entry's position. *)
Fixpoint set (k : K) (v : V) (m : t) : t :=
  match m with
  | [] => [(k, v)]
  | (k', v') :: r =>
      if K_dec k k' then (k, v) :: r else (k', v') :: set k v r
  end.

Fixpoint delete (k : K) (m : t) : t :=
  match m with
  | [] => []
  | (k', v') :: r =>
      if K_dec k k' then delete k r else (k', v') :: delete k r
  end.

Definition keys (m : t) : list K := map fst m.
Definition values (m : t) : list V := map snd m.
End WithKey.
End JsMap.

(** ** Strings *)

(** [hay.indexOf(needle)]: the position of the first occurrence. *)
Definition indexOf (hay needle : string) : option nat :=
  String.index 0 needle hay.

(** [paths.indexOf(x) === -1] on an array of strings. *)
Definition array_lacks (paths : list string) (x : string) : bool :=
  negb (existsb (String.eqb x) paths).

(** [path.split('/')] *)
Fixpoint split_slash (s : string) : list string :=
  match s with
  | EmptyString => [EmptyString]
  | String c r =>
      if Ascii.eqb c "/"%char then EmptyString :: split_slash r
      else match split_slash r with
           | [] => [String c EmptyString]
           | x :: xs => String c x :: xs
           end
  end.

(** The segments of a path with the empty ones and '.' dropped and each
    '..' resolved against the segment before it; [res] is the result so
    far, last segment first.  Above the start of a relative path '..' is
    kept, above the root it is dropped. *)
Fixpoint normalizeArray (parts : list string) (allowAboveRoot : bool)
    (res : list string) : list string :=
  match parts with
  | [] => rev res
  | p :: r =>
      if String.eqb p "" || String.eqb p "." then
        normalizeArray r allowAboveRoot res
      else if String.eqb p ".." then
        match res with
        | last :: res' =>
            if String.eqb last ".." then
              normalizeArray r allowAboveRoot
                (if allowAboveRoot then ".." :: res else res)
            else normalizeArray r allowAboveRoot res'
        | [] =>
            normalizeArray r allowAboveRoot
              (if allowAboveRoot then [".."] else [])
        end
      else normalizeArray r allowAboveRoot (p :: res)
  end.

Definition ends_with_slash (path : string) : bool :=
  match rev (list_ascii_of_string path) with
  | c :: _ => Ascii.eqb c "/"%char
  | [] => false
  end.

(** [path.normalize] of Node, POSIX flavour: an absolute path stays
    absolute, a trailing slash is kept, and the empty relative path is
    '.'. *)
Definition normalize (path : string) : string :=
  let isAbsolute := String.prefix "/" path in
  let trailingSlash := ends_with_slash path in
  let p := String.concat "/"
             (normalizeArray (split_slash path) (negb isAbsolute) []) in
  let p := if String.eqb p "" && negb isAbsolute then "." else p in
  let p := if negb (String.eqb p "") && trailingSlash then (p ++ "/")%string else p in
  if isAbsolute then ("/" ++ p)%string else p.

(** [path.join] of Node, POSIX flavour: the non-empty arguments joined by
    '/', and the result normalised. *)
Definition joinPath (parts : list string) : string :=
  normalize
    (String.concat "/" (filter (fun p => negb (String.eqb p "")) parts)).

(** ** Promises *)

Inductive pstate := Pending | Fulfilled | Rejected.

(** [p.catch(e => console.error(e))]: the handler returns normally, so a
    rejection of [p] fulfils the derived promise. *)
Definition catch_log (p : pstate) : pstate :=
  match p with
  | Pending => Pending
  | Fulfilled => Fulfilled
  | Rejected => Fulfilled
  end.

(** [let pathsQueue = Promise.resolve()] (line 53).  The variable is never
    assigned again. *)
Definition pathsQueue : pstate := Fulfilled.

(** ** Objects of the collaborating classes *)

(** Modelled from the spec: class Connection (lib/connection.js) is not
    among the sources.  A connection is bound to one root path
    ([getPath()]) and has a base directory ([getBaseDir()]); [conn_id] is
    the identity of the JavaScript object. *)
Record Connection := mkConnection {
  conn_id : nat;
  conn_path : string;
  conn_baseDir : string
}.

(** A text editor of the host: [te_id] is the identity of the
    JavaScript object and [te_path] what its [getPath()] returns,
    undefined when it is untitled.  The class reads the path when the
    observer callback runs (line 60) and at each [getEditorByPath] (line
    119); the events of this development include no change of the path
    of an open document, so the path is a field of the object and nothing
    is stated about a document whose path changes. *)
Record TextEditor := mkTextEditor {
  te_id : nat;
  te_path : option string
}.

(** [new Editor(textEditor, connection)] *)
Record Editor := mkEditor {
  ed_textEditor : TextEditor;
  ed_connection : Connection
}.

(** ** Numbers *)

(** A JavaScript number that holds an integer is an IEEE double: 53
    significant bits.  [to_double x] is the double nearest to the integer
    [x], ties to the even significand (the magnitudes a double cannot
    hold, from 2^1024 on, are not numbers of a message). *)
Definition to_double (x : Z) : Z :=
  let a := Z.abs x in
  let e := (Z.log2 a - 52)%Z in
  if (e <=? 0)%Z then x
  else
    let u := (2 ^ e)%Z in
    let q := (a / u)%Z in
    let r := (a mod u)%Z in
    let h := (u / 2)%Z in
    let q' :=
      if (r <? h)%Z then q
      else if (h <? r)%Z then (q + 1)%Z
      else if Z.even q then q else (q + 1)%Z in
    (Z.sgn x * (q' * u))%Z.

(** [x - y] on numbers: the exact difference, rounded. *)
Definition number_sub (x y : Z) : Z := to_double (x - y).

(** [Number.isSafeInteger]: the integers on which the arithmetic of
    doubles is exact. *)
Definition safe_integer (x : Z) : Prop :=
  (- (2 ^ 53 - 1) <= x <= 2 ^ 53 - 1)%Z.

(** [error.loc]: a line and a column, counted from 1; both are numbers
    that hold integers. *)
Record Loc := mkLoc { line : Z; column : Z }.

Record CompileError := mkCompileError {
  err_message : string;
  err_stack : string;
  err_fileName : string;
  err_loc : option Loc            (* None: [typeof error.loc === 'undefined'] *)
}.

(** The text produced by [getMessage] of lib/helpers.js, which is not
    among the sources: kept symbolic. *)
Inductive message_text := getMessage (error : CompileError).

Record Diagnostic := mkDiagnostic {
  d_type : string;
  d_text : message_text;
  d_filePath : string;
  d_range : (Z * Z) * (Z * Z)
}.

Inductive message :=
| CompileErrorMsg (error : CompileError)           (* 'compile:error' *)
| FileMetaMsg (file : string) (views : string)     (* 'file:meta' *)
| CompileSuccessMsg (path : string).               (* 'compile:success' *)

Definition kind_of (m : message) : string :=
  match m with
  | CompileErrorMsg _ => "compile:error"
  | FileMetaMsg _ _ => "file:meta"
  | CompileSuccessMsg _ => "compile:success"
  end.

(** The closures [handleConnection] registers, each with the connection
    it captures. *)
Inductive destroy_handler :=
| UnregisterFromLinter (connection : Connection).   (* lines 83-85 *)

Inductive message_handler :=
| OnCompileError (connection : Connection)          (* lines 86-99 *)
| OnFileMeta (connection : Connection)              (* lines 100-106 *)
| OnCompileSuccess (connection : Connection).       (* lines 107-109 *)

(** The mutable part of a Connection object. *)
Record conn_obj := mkConnObj {
  co_conn : Connection;
  co_destroyed : bool;
  co_onDidDestroy : list destroy_handler;
  co_onMessage : list (string * message_handler)
}.

(** Members of [this.subscriptions]. *)
Inductive disposable :=
| DEmitter | DCommands | DLinter | DStatusIcon | DAutocomplete
| DPathsSubscription | DPaneSubscription
| DEditor (editor : Editor).

(** ** The creation promises and the batches of [handlePaths] *)

(** One promise pushed by the 'did-add-project' listener (lines 37-50),
    with the asynchronous operation it is waiting for. *)
Inductive stage :=
| AwaitRealPath
| AwaitFileExists (realPath configPath : string)
| AwaitCreate (realPath configPath : string)
| Settled (result : pstate).

Record task := mkTask {
  t_batch : nat;
  t_path : string;
  t_stage : stage
}.

Inductive reaction := ObserveWorkspace.               (* lines 57-75 *)

(** One invocation of [handlePaths]: [b_all] is [Promise.all(promises)],
    [b_remaining] the promises of it still to be fulfilled, and
    [b_then] what was chained on the returned promise. *)
Record batch := mkBatch {
  b_paths : list string;
  b_remaining : nat;
  b_all : pstate;
  b_then : list reaction
}.

(** The promise [handlePaths] returns (line 152). *)
Definition returned (b : batch) : pstate := catch_log (b_all b).

(** ** What the class does to its collaborators, in order *)

Inductive item :=
| HandlePaths (batch : nat) (paths : list string)     (* entry of handlePaths *)
| DidAddProject (batch : nat) (path : string)         (* emit, line 139 *)
| ConnectionsSet (path : string) (c : nat)            (* line 81 *)
| ConnectionsDelete (path : string) (c : nat)         (* line 148 *)
| ConnectionDestroy (c : nat)                         (* line 147 *)
| LinterRegister (c : nat)
| LinterUnregister (c : nat)
| LinterSetError (c : nat) (filePath : string) (d : option Diagnostic)
| ShowError (message stack : string)
| ConsoleError (what : string)
| UpdateMeta (textEditor : nat) (views : string)
| NewEditor (textEditor : nat) (c : nat)
| Thrown (what : string).

(** ** The state of a Flint instance and of the host around it *)

Definition TextEditor_dec (x y : TextEditor) : {x = y} + {x <> y}.
Proof.
  decide equality.
  - decide equality. apply string_dec.
  - apply Nat.eq_dec.
Defined.

Record Flint := mkFlint {
  config : option unit;            (* this.config: assigned nowhere *)
  subscriptions : list disposable;
  disposed : bool;                 (* this.subscriptions.dispose() ran *)
  connections : JsMap.t string Connection;
  editors : JsMap.t TextEditor Editor;
  linter_registered : list nat;    (* connections the linter knows *)
  heap : list conn_obj;            (* every Connection object created *)
  tasks : list task;               (* every creation promise *)
  batches : list batch;            (* every handlePaths invocation *)
  observing : bool;                (* the observer of line 59 is subscribed *)
  workspace : list TextEditor;     (* the text editors that are open *)
  log : list item
}.

Definition set_connections (m : JsMap.t string Connection) (s : Flint) : Flint :=
  mkFlint (config s) (subscriptions s) (disposed s) m (editors s)
    (linter_registered s) (heap s) (tasks s) (batches s) (observing s)
    (workspace s) (log s).

Definition set_editors (m : JsMap.t TextEditor Editor) (s : Flint) : Flint :=
  mkFlint (config s) (subscriptions s) (disposed s) (connections s) m
    (linter_registered s) (heap s) (tasks s) (batches s) (observing s)
    (workspace s) (log s).

Definition set_subscriptions (l : list disposable) (s : Flint) : Flint :=
  mkFlint (config s) l (disposed s) (connections s) (editors s)
    (linter_registered s) (heap s) (tasks s) (batches s) (observing s)
    (workspace s) (log s).

Definition set_disposed (b : bool) (s : Flint) : Flint :=
  mkFlint (config s) (subscriptions s) b (connections s) (editors s)
    (linter_registered s) (heap s) (tasks s) (batches s) (observing s)
    (workspace s) (log s).

Definition set_linter (l : list nat) (s : Flint) : Flint :=
  mkFlint (config s) (subscriptions s) (disposed s) (connections s) (editors s)
    l (heap s) (tasks s) (batches s) (observing s) (workspace s) (log s).

Definition set_heap (h : list conn_obj) (s : Flint) : Flint :=
  mkFlint (config s) (subscriptions s) (disposed s) (connections s) (editors s)
    (linter_registered s) h (tasks s) (batches s) (observing s)
    (workspace s) (log s).

Definition set_tasks (l : list task) (s : Flint) : Flint :=
  mkFlint (config s) (subscriptions s) (disposed s) (connections s) (editors s)
    (linter_registered s) (heap s) l (batches s) (observing s)
    (workspace s) (log s).

Definition set_batches (l : list batch) (s : Flint) : Flint :=
  mkFlint (config s) (subscriptions s) (disposed s) (connections s) (editors s)
    (linter_registered s) (heap s) (tasks s) l (observing s)
    (workspace s) (log s).

Definition set_observing (b : bool) (s : Flint) : Flint :=
  mkFlint (config s) (subscriptions s) (disposed s) (connections s) (editors s)
    (linter_registered s) (heap s) (tasks s) (batches s) b
    (workspace s) (log s).

Definition set_workspace (l : list TextEditor) (s : Flint) : Flint :=
  mkFlint (config s) (subscriptions s) (disposed s) (connections s) (editors s)
    (linter_registered s) (heap s) (tasks s) (batches s) (observing s)
    l (log s).

Definition emit (l : list item) (s : Flint) : Flint :=
  mkFlint (config s) (subscriptions s) (disposed s) (connections s) (editors s)
    (linter_registered s) (heap s) (tasks s) (batches s) (observing s)
    (workspace s) (log s ++ l).

(** Replace the element at position [n]; nothing happens out of range. *)
Fixpoint update_nth (A : Type) (n : nat) (f : A -> A) (l : list A) : list A :=
  match l, n with
  | [], _ => []
  | x :: r, O => f x :: r
  | x :: r, S n' => x :: update_nth n' f r
  end.

(** A completed call: a value, or an exception thrown. *)
Inductive completion (A : Type) :=
| Normal (a : A)
| Throw (what : string).
Arguments Throw {A} what.

(** ** The linter (lib/linter.js) *)

(** Modelled from the spec: class Linter, the diagnostics sink, is not
    among the sources; it keeps the connections registered with it. *)
Definition Linter_registerConnection (c : Connection) (s : Flint) : Flint :=
  emit [LinterRegister (conn_id c)]
    (set_linter (linter_registered s ++ [conn_id c]) s).

(** Modelled from the spec: [unregisterConnection] of class Linter. *)
Definition Linter_unregisterConnection (c : Connection) (s : Flint) : Flint :=
  emit [LinterUnregister (conn_id c)]
    (set_linter (remove Nat.eq_dec (conn_id c) (linter_registered s)) s).

(** Modelled from the spec: [setError(connection, filePath, diagnostic |
    null)] of class Linter; the call is recorded. *)
Definition Linter_setError (c : Connection) (filePath : string)
    (d : option Diagnostic) (s : Flint) : Flint :=
  emit [LinterSetError (conn_id c) filePath d] s.

(** ** Connection objects (lib/connection.js) *)

(** Modelled from the spec: [onDidDestroy(handler)] of class Connection
    subscribes the handler. *)
Definition Connection_onDidDestroy (c : Connection) (h : destroy_handler)
    (s : Flint) : Flint :=
  set_heap
    (update_nth (conn_id c)
       (fun o => mkConnObj (co_conn o) (co_destroyed o)
                   (co_onDidDestroy o ++ [h]) (co_onMessage o))
       (heap s)) s.

(** Modelled from the spec: [onMessage(kind, handler)] of class
    Connection subscribes the handler to the messages of that kind. *)
Definition Connection_onMessage (c : Connection) (kind : string)
    (h : message_handler) (s : Flint) : Flint :=
  set_heap
    (update_nth (conn_id c)
       (fun o => mkConnObj (co_conn o) (co_destroyed o)
                   (co_onDidDestroy o) (co_onMessage o ++ [(kind, h)]))
       (heap s)) s.

(** Lines 83-85: [() => { this.linter.unregisterConnection(connection) }] *)
Definition run_destroy_handler (s : Flint) (h : destroy_handler) : Flint :=
  match h with
  | UnregisterFromLinter connection => Linter_unregisterConnection connection s
  end.

(** Modelled from the spec: [destroy()] of class Connection is
    irreversible; it runs the did-destroy handlers and drops every
    subscription, so that a destroyed connection dispatches no further
    message. *)
Definition Connection_destroy (c : Connection) (s : Flint) : Flint :=
  match nth_error (heap s) (conn_id c) with
  | Some o =>
      if co_destroyed o then s
      else
        let s1 :=
          emit [ConnectionDestroy (conn_id c)]
            (set_heap
               (update_nth (conn_id c)
                  (fun o => mkConnObj (co_conn o) true [] []) (heap s)) s) in
        fold_left run_destroy_handler (co_onDidDestroy o) s1
  | None => s
  end.

(** ** Methods of class Flint *)

(** [getEditorByPath] (lines 117-124) *)
Fixpoint getEditorByPath_loop (path : string)
    (entries : list (TextEditor * Editor)) : option Editor :=
  match entries with
  | [] => None
  | (textEditor, editor) :: r =>
      match te_path textEditor with
      | Some p => if String.eqb p path then Some editor
                  else getEditorByPath_loop path r
      | None => getEditorByPath_loop path r
      end
  end.

Definition getEditorByPath (path : string) (s : Flint) : option Editor :=
  getEditorByPath_loop path (editors s).

(** [getConnectionByPath] (lines 125-132).  [path] is what
    [textEditor.getPath()] returned; [undefined.indexOf] throws. *)
Fixpoint getConnectionByPath_loop (path : option string)
    (vals : list Connection) : completion (option Connection) :=
  match vals with
  | [] => Normal None
  | connection :: r =>
      match path with
      | None => Throw "TypeError"
      | Some p =>
          match indexOf p (conn_path connection) with
          | Some 0 => Normal (Some connection)
          | _ => getConnectionByPath_loop path r
          end
      end
  end.

Definition getConnectionByPath (path : option string) (s : Flint)
    : completion (option Connection) :=
  getConnectionByPath_loop path (JsMap.values (connections s)).

(** The 'compile:error' handler (lines 86-99) *)
Definition on_compile_error (connection : Connection) (error : CompileError)
    (s : Flint) : Flint :=
  match err_loc error with
  | None =>
      emit [ShowError ("[Compiler-Error] " ++ err_message error)%string
              (err_stack error)] s
  | Some loc =>
      let errorMessage := getMessage error in
      Linter_setError connection (err_fileName error)
        (Some (mkDiagnostic "Error" errorMessage (err_fileName error)
                 ((number_sub (line loc) 1, number_sub (column loc) 1),
                  (number_sub (line loc) 1, column loc))))
        s
  end.

(** The 'file:meta' handler (lines 100-106) *)
Definition on_file_meta (connection : Connection) (file views : string)
    (s : Flint) : Flint :=
  let filePath := joinPath [conn_baseDir connection; file] in
  match getEditorByPath filePath s with
  | Some textEditor =>
      emit [UpdateMeta (te_id (ed_textEditor textEditor)) views] s
  | None => s
  end.

(** The 'compile:success' handler (lines 107-109) *)
Definition on_compile_success (connection : Connection) (path : string)
    (s : Flint) : Flint :=
  Linter_setError connection path None s.

Definition run_message_handler (h : message_handler) (m : message)
    (s : Flint) : Flint :=
  match h, m with
  | OnCompileError connection, CompileErrorMsg error =>
      on_compile_error connection error s
  | OnFileMeta connection, FileMetaMsg file views =>
      on_file_meta connection file views s
  | OnCompileSuccess connection, CompileSuccessMsg path =>
      on_compile_success connection path s
  | _, _ => s
  end.

(** Modelled from the spec: class Connection emits a message; the
    handlers subscribed to its kind run in subscription order. *)
Definition deliver (m : message) (s : Flint) (kh : string * message_handler)
    : Flint :=
  if String.eqb (fst kh) (kind_of m) then run_message_handler (snd kh) m s
  else s.

(** Modelled from the spec: the connection [c] receives [m] from its
    compiler process. *)
Definition dispatch (c : nat) (m : message) (s : Flint) : Flint :=
  match nth_error (heap s) c with
  | Some o => fold_left (deliver m) (co_onMessage o) s
  | None => s
  end.

(** [handleConnection] (lines 80-110) *)
Definition handleConnection (path : string) (connection : Connection)
    (s : Flint) : Flint :=
  let s := emit [ConnectionsSet path (conn_id connection)]
             (set_connections
                (JsMap.set string_dec path connection (connections s)) s) in
  let s := Linter_registerConnection connection s in
  let s := Connection_onDidDestroy connection
             (UnregisterFromLinter connection) s in
  let s := Connection_onMessage connection "compile:error"
             (OnCompileError connection) s in
  let s := Connection_onMessage connection "file:meta"
             (OnFileMeta connection) s in
  Connection_onMessage connection "compile:success"
    (OnCompileSuccess connection) s.

(** The 'did-add-project' listener (lines 37-50) up to its first
    suspension: it pushes one promise and starts [realPath(path)]. *)
Definition on_did_add_project (b : nat) (path : string) (s : Flint) : Flint :=
  set_tasks (tasks s ++ [mkTask b path AwaitRealPath]) s.

(** [handlePaths], "Add new ones" (lines 137-141) *)
Fixpoint add_new_ones (b : nat) (paths : list string) (s : Flint) : Flint :=
  match paths with
  | [] => s
  | newPath :: r =>
      add_new_ones b r
        (if JsMap.has string_dec newPath (connections s) then s
         else on_did_add_project b newPath (emit [DidAddProject b newPath] s))
  end.

(** Lines 147-148: [oldConnection.destroy()], then
    [this.connections.delete(oldPath)] *)
Definition discard (oldPath : string) (oldConnection : Connection)
    (s : Flint) : Flint :=
  let s := Connection_destroy oldConnection s in
  emit [ConnectionsDelete oldPath (conn_id oldConnection)]
    (set_connections (JsMap.delete string_dec oldPath (connections s)) s).

(** [handlePaths], "Remove deleted ones" (lines 144-150), over the keys
    of the map in insertion order. *)
Fixpoint remove_deleted (paths : list string) (keys : list string)
    (s : Flint) : Flint :=
  match keys with
  | [] => s
  | oldPath :: r =>
      remove_deleted paths r
        (if array_lacks paths oldPath then
           match JsMap.get string_dec oldPath (connections s) with
           | Some oldConnection => discard oldPath oldConnection s
           | None => s
           end
         else s)
  end.

(** [handlePaths] (lines 133-153): the new state and the index of the
    batch whose [returned] promise the call returns.  [Promise.all] of no
    promise is fulfilled. *)
Definition handlePaths (paths : list string) (s : Flint) : Flint * nat :=
  let b := length (batches s) in
  let s1 := add_new_ones b paths (emit [HandlePaths b paths] s) in
  let s2 := remove_deleted paths (JsMap.keys (connections s1)) s1 in
  let n := length (tasks s2) - length (tasks s) in
  (set_batches
     (batches s2 ++
        [mkBatch paths n (match n with O => Fulfilled | S _ => Pending end) []])
     s2, b).

(** The callback given to [observeTextEditors] (lines 59-70).  An
    exception of [getConnectionByPath] leaves the callback before it has
    created anything; it is recorded, and what the host does with it is
    not part of the class. *)
Definition on_text_editor (textEditor : TextEditor) (s : Flint) : Flint :=
  match getConnectionByPath (te_path textEditor) s with
  | Normal (Some connection) =>
      let editor := mkEditor textEditor connection in
      let s := emit [NewEditor (te_id textEditor) (conn_id connection)] s in
      let s := set_subscriptions (subscriptions s ++ [DEditor editor]) s in
      set_editors (JsMap.set TextEditor_dec textEditor editor (editors s)) s
  | Normal None => s
  | Throw what => emit [Thrown what] s
  end.

(** The handler given to [editor.onDidDestroy] (lines 63-66) *)
Definition disposable_is (editor : Editor) (d : disposable) : bool :=
  match d with
  | DEditor e =>
      if TextEditor_dec (ed_textEditor e) (ed_textEditor editor)
      then true else false
  | _ => false
  end.

Definition on_editor_destroyed (textEditor : TextEditor) (editor : Editor)
    (s : Flint) : Flint :=
  let s := set_subscriptions
             (filter (fun d => negb (disposable_is editor d))
                (subscriptions s)) s in
  set_editors (JsMap.delete TextEditor_dec textEditor (editors s)) s.

(** [atom.workspace.observeTextEditors(callback)] first calls the
    callback with every text editor that is open, in order.  An exception
    of the callback leaves the enumeration: the text editors after it are
    not visited, and [false] is returned. *)
Fixpoint observe_existing (opened : list TextEditor) (s : Flint)
    : bool * Flint :=
  match opened with
  | [] => (true, s)
  | textEditor :: r =>
      let s' := on_text_editor textEditor s in
      match getConnectionByPath (te_path textEditor) s with
      | Normal _ => observe_existing r s'
      | Throw _ => (false, s')
      end
  end.

(** What is chained on the promise of the first [handlePaths]
    (lines 57-75).  The text editors already open are given to the
    callback; when that went through, the observer is subscribed for
    those opened from then on, and so is the active-pane hook (lines
    71-73).  An exception of the callback leaves [observeTextEditors] and
    the rest of the function: no observer and no active-pane hook are
    subscribed. *)
Definition observe_workspace (s : Flint) : Flint :=
  match observe_existing (workspace s) s with
  | (true, s) =>
      let s := set_observing true s in
      set_subscriptions (subscriptions s ++ [DPaneSubscription]) s
  | (false, s) => s
  end.

Definition run_reaction (s : Flint) (r : reaction) : Flint :=
  match r with ObserveWorkspace => observe_workspace s end.

(** [p.then(r)] on the promise returned by batch [b] *)
Definition then_returned (b : nat) (r : reaction) (s : Flint) : Flint :=
  match nth_error (batches s) b with
  | Some bt =>
      match returned bt with
      | Fulfilled => run_reaction s r
      | Pending =>
          set_batches
            (update_nth b
               (fun bt => mkBatch (b_paths bt) (b_remaining bt) (b_all bt)
                            (b_then bt ++ [r]))
               (batches s)) s
      | Rejected => s
      end
  | None => s
  end.

(** ** The event loop *)

Definition set_stage (t : nat) (st : stage) (s : Flint) : Flint :=
  set_tasks
    (update_nth t (fun tk => mkTask (t_batch tk) (t_path tk) st) (tasks s)) s.

(** Creation promise [t] settles with [o].  [Promise.all] of its batch
    rejects with the first rejection and is fulfilled with the last
    fulfilment; [.catch(e => console.error(e))] makes the returned
    promise fulfilled in both cases, and what is chained on it runs. *)
Definition settle (t : nat) (o : pstate) (s : Flint) : Flint :=
  match nth_error (tasks s) t with
  | None => s
  | Some tk =>
      let s := set_stage t (Settled o) s in
      match nth_error (batches s) (t_batch tk) with
      | None => s
      | Some bt =>
          match b_all bt, o with
          | Pending, Rejected =>
              fold_left run_reaction (b_then bt)
                (emit [ConsoleError "handlePaths"]
                   (set_batches
                      (update_nth (t_batch tk)
                         (fun bt => mkBatch (b_paths bt) (b_remaining bt)
                                      Rejected [])
                         (batches s)) s))
          | Pending, _ =>
              if Nat.eqb (b_remaining bt) 1 then
                fold_left run_reaction (b_then bt)
                  (set_batches
                     (update_nth (t_batch tk)
                        (fun bt => mkBatch (b_paths bt) 0 Fulfilled [])
                        (batches s)) s)
              else
                set_batches
                  (update_nth (t_batch tk)
                     (fun bt => mkBatch (b_paths bt) (b_remaining bt - 1)
                                  Pending (b_then bt))
                     (batches s)) s
          | _, _ => s
          end
      end
  end.

(** [p.then(job)] with no rejection handler: the job of a fulfilled
    promise runs as soon as the current callback returns.  (A pending
    promise would keep the job until it is fulfilled and a rejected one
    would drop it; [pathsQueue] is neither.) *)
Definition then_job (p : pstate) (job : Flint -> Flint) (s : Flint) : Flint :=
  match p with
  | Fulfilled => job s
  | Pending | Rejected => s
  end.

(** The [onDidChangePaths] callback (lines 54-56) *)
Definition on_did_change_paths (paths : list string) (s : Flint) : Flint :=
  then_job pathsQueue (fun s => fst (handlePaths paths s)) s.

(** Line 39 *)
Definition configPath (realPath : string) : string :=
  joinPath [realPath; ".flint"; ".internal"; "state.json"].

(** [realPath(path)] settled: lines 38-40 *)
Definition on_real_path (t : nat) (r : option string) (s : Flint) : Flint :=
  match nth_error (tasks s) t with
  | Some (mkTask _ _ AwaitRealPath) =>
      match r with
      | Some realPath =>
          set_stage t (AwaitFileExists realPath (configPath realPath)) s
      | None => settle t Rejected s
      end
  | _ => s
  end.

(** [fileExists(configPath, false)] settled: lines 40-42 and 47-48 *)
Definition on_file_exists (t : nat) (r : option bool) (s : Flint) : Flint :=
  match nth_error (tasks s) t with
  | Some (mkTask _ _ (AwaitFileExists realPath configPath)) =>
      match r with
      | Some true => set_stage t (AwaitCreate realPath configPath) s
      | Some false => settle t Fulfilled s
      | None => settle t Rejected s
      end
  | _ => s
  end.

(** [Connection.create(realPath, configPath)] settled: lines 42-46.  A
    fulfilment brings a new Connection object, bound to [realPath]. *)
Definition on_create (t : nat) (r : option string) (s : Flint) : Flint :=
  match nth_error (tasks s) t with
  | Some (mkTask _ _ (AwaitCreate realPath configPath)) =>
      match r with
      | Some baseDir =>
          let connection := mkConnection (length (heap s)) realPath baseDir in
          let s := set_heap (heap s ++ [mkConnObj connection false [] []]) s in
          settle t Fulfilled (handleConnection realPath connection s)
      | None =>
          settle t Fulfilled
            (emit [ConsoleError "Flint channel creation failed"] s)
      end
  | _ => s
  end.

(** The workspace opens a text editor; an observer, once there is one, is
    called with it. *)
Definition on_opened (te : TextEditor) (s : Flint) : Flint :=
  let s := set_workspace (workspace s ++ [te]) s in
  if observing s then on_text_editor te s else s.

(** Modelled from the spec: class Editor (lib/editor.js) is not among the
    sources; the handlers given to its [onDidDestroy] run when the
    document it wraps is closed. *)
Definition on_closed (te : TextEditor) (s : Flint) : Flint :=
  let s := set_workspace (remove TextEditor_dec te (workspace s)) s in
  match JsMap.get TextEditor_dec te (editors s) with
  | Some editor => on_editor_destroyed te editor s
  | None => s
  end.

Inductive event :=
| DidChangePaths (paths : list string)
| RealPathSettled (t : nat) (r : option string)      (* None: rejected *)
| FileExistsSettled (t : nat) (r : option bool)
| CreateSettled (t : nat) (r : option string)        (* Some baseDir *)
| MessageReceived (c : nat) (m : message)
| TextEditorOpened (te : TextEditor)
| TextEditorClosed (te : TextEditor).

Definition step (s : Flint) (e : event) : Flint :=
  match e with
  | DidChangePaths paths => on_did_change_paths paths s
  | RealPathSettled t r => on_real_path t r s
  | FileExistsSettled t r => on_file_exists t r s
  | CreateSettled t r => on_create t r s
  | MessageReceived c m => dispatch c m s
  | TextEditorOpened te => on_opened te s
  | TextEditorClosed te => on_closed te s
  end.

Definition run (es : list event) (s : Flint) : Flint := fold_left step es s.

(** [constructor] (lines 14-33).  The commands, the status icon and the
    autocomplete provider take no part in what follows; they are kept as
    members of [subscriptions]. *)
Definition constructor : Flint :=
  mkFlint None [DEmitter; DCommands; DLinter; DStatusIcon; DAutocomplete]
    false [] [] [] [] [] [] false [] [].

(** [activate] (lines 34-79), in a workspace where the text editors
    [opened] are open and [atom.project.getPaths()] is [projectPaths]. *)
Definition activate (opened : list TextEditor) (projectPaths : list string)
    : Flint :=
  let s := set_workspace opened constructor in
  let s := set_subscriptions (subscriptions s ++ [DPathsSubscription]) s in
  let (s, p) := handlePaths projectPaths s in
  then_returned p ObserveWorkspace s.

(** [dispose] (lines 157-161) *)
Definition dispose (s : Flint) : completion unit * Flint :=
  match config s with
  | None => (Throw "TypeError", s)
  | Some _ =>
      (Normal tt, set_disposed true (set_subscriptions [] (set_editors [] s)))
  end.

(** The states a Flint instance goes through after [activate], whatever
    the host and the compilers send. *)
Definition reachable (s : Flint) : Prop :=
  exists opened projectPaths es, s = run es (activate opened projectPaths).

(** ** The host's file system and transport *)

(** What the asynchronous operations answer when the world around the
    editor does not change: [w_realPath] is [realPath] ([None]: it
    rejects), [w_fileExists] is [fileExists], and [w_create] is
    [Connection.create] on a canonical path (the base directory of the new
    connection, or [None] when the transport cannot be established). *)
Record World := mkWorld {
  w_realPath : string -> option string;
  w_fileExists : string -> bool;
  w_create : string -> option string
}.

Definition option_eqb (A : Type) (eqb : A -> A -> bool) (x y : option A) : bool :=
  match x, y with
  | Some a, Some b => eqb a b
  | None, None => true
  | _, _ => false
  end.

(** The settlement carried by event [e] is the world's answer. *)
Definition agrees (w : World) (s : Flint) (e : event) : bool :=
  match e with
  | RealPathSettled t r =>
      match nth_error (tasks s) t with
      | Some tk => option_eqb String.eqb r (w_realPath w (t_path tk))
      | None => true
      end
  | FileExistsSettled t r =>
      match nth_error (tasks s) t with
      | Some (mkTask _ _ (AwaitFileExists _ cfg)) =>
          option_eqb Bool.eqb r (Some (w_fileExists w cfg))
      | _ => true
      end
  | CreateSettled t r =>
      match nth_error (tasks s) t with
      | Some (mkTask _ _ (AwaitCreate rp _)) =>
          option_eqb String.eqb r (w_create w rp)
      | _ => true
      end
  | _ => true
  end.

Definition pending (tk : task) : bool :=
  match t_stage tk with Settled _ => false | _ => true end.

(** Every creation promise has settled. *)
Definition idle (s : Flint) : bool :=
  forallb (fun tk => negb (pending tk)) (tasks s).

(** Every creation promise spawned by batch [b] has settled. *)
Definition settled_batch (b : nat) (s : Flint) : bool :=
  forallb (fun tk => negb (Nat.eqb (t_batch tk) b) || negb (pending tk))
    (tasks s).

(** The canonical path of every path of [paths] resolves to itself. *)
Definition closed (w : World) (paths : list string) : bool :=
  forallb
    (fun p =>
       match w_realPath w p with
       | Some k => option_eqb String.eqb (w_realPath w k) (Some k)
       | None => true
       end) paths.

(** A path change arrives only when the earlier batches have settled in
    full, and every settlement is the world's answer. *)
Definition orderly (w : World) (s : Flint) (e : event) : bool :=
  agrees w s e &&
  match e with
  | DidChangePaths paths => idle s && closed w paths
  | _ => true
  end.

Fixpoint nodupb (l : list string) : bool :=
  match l with
  | [] => true
  | x :: r => negb (existsb (String.eqb x) r) && nodupb r
  end.

(** The canonical paths the paths of a batch resolve to. *)
Definition images (w : World) (paths : list string) : list string :=
  flat_map
    (fun p => match w_realPath w p with Some k => [k] | None => [] end) paths.

(** [orderly], and no two paths of a batch resolve to one canonical
    path. *)
Definition separate (w : World) (s : Flint) (e : event) : bool :=
  orderly w s e &&
  match e with
  | DidChangePaths paths => nodupb (images w paths)
  | _ => true
  end.

(** [P] holds of every event of the run, in the state it arrives in. *)
Fixpoint always (P : Flint -> event -> bool) (es : list event) (s : Flint)
    : bool :=
  match es with
  | [] => true
  | e :: r => P s e && always P r (step s e)
  end.

(** ** Properties of the registry *)

(** The paths of the most recent [handlePaths]. *)
Definition last_paths (s : Flint) : list string :=
  match rev (batches s) with
  | b :: _ => b_paths b
  | [] => []
  end.

(** [k] is the canonical path of a path of [paths] and holds the marker
    file. *)
Definition marked (w : World) (paths : list string) (k : string) : Prop :=
  exists p, In p paths /\ w_realPath w p = Some k /\
            w_fileExists w (configPath k) = true.

(** ... and a connection to it can be established. *)
Definition connectable (w : World) (paths : list string) (k : string) : Prop :=
  marked w paths k /\ w_create w k <> None.

(** The key set of the map is the set of marked paths of the last batch,
    once that batch has settled. *)
Definition converges_to_marked (w : World) (opened : list TextEditor)
    (projectPaths : list string) (es : list event) : Prop :=
  let s := run es (activate opened projectPaths) in
  always (agrees w) es (activate opened projectPaths) = true ->
  settled_batch (length (batches s) - 1) s = true ->
  forall k, In k (JsMap.keys (connections s)) <-> marked w (last_paths s) k.

(** A Connection object that was created and not destroyed. *)
Definition live (s : Flint) (c : Connection) : Prop :=
  exists o, nth_error (heap s) (conn_id c) = Some o /\
            co_conn o = c /\ co_destroyed o = false.

Definition one_live_per_path (s : Flint) : Prop :=
  forall c1 c2, live s c1 -> live s c2 ->
                conn_path c1 = conn_path c2 -> c1 = c2.

(** A connection is unregistered from the linter between its destruction
    and its removal from the map. *)
Definition unregistered_before_discard (l : list item) : Prop :=
  forall l1 k c l2,
    l = l1 ++ ConnectionsDelete k c :: l2 ->
    exists l0, l1 = l0 ++ [ConnectionDestroy c; LinterUnregister c].

(** No diagnostic of a connection follows its destruction. *)
Definition silent_after_destroy (l : list item) : Prop :=
  forall l1 c l2,
    l = l1 ++ ConnectionDestroy c :: l2 ->
    forall filePath d, ~ In (LinterSetError c filePath d) l2.

(** What the observer of the workspace writes to the log. *)
Definition from_observer (i : item) : bool :=
  match i with
  | NewEditor _ _ | Thrown _ => true
  | _ => false
  end.

(** [s'] extends the log of [s] by entries that satisfy [P]. *)
Definition extends (P : item -> bool) (s s' : Flint) : Prop :=
  exists l, log s' = log s ++ l /\ forallb P l = true.

(** The part of the state the connection registry lives in. *)
Definition registry (s : Flint) :=
  (connections s, heap s, linter_registered s).

(** ** Invariants of the reachable states *)

(** What [handleConnection] subscribes on a connection. *)
Definition handlers_of (c : Connection) : list (string * message_handler) :=
  [("compile:error", OnCompileError c);
   ("file:meta", OnFileMeta c);
   ("compile:success", OnCompileSuccess c)].

(** The object at address [i] of the heap: a live one carries exactly the
    subscriptions of [handleConnection], a destroyed one none. *)
Definition wf_obj (i : nat) (o : conn_obj) : Prop :=
  conn_id (co_conn o) = i /\
  (if co_destroyed o
   then co_onDidDestroy o = [] /\ co_onMessage o = []
   else co_onDidDestroy o = [UnregisterFromLinter (co_conn o)] /\
        co_onMessage o = handlers_of (co_conn o)).

Definition wf_heap (s : Flint) : Prop :=
  forall i o, nth_error (heap s) i = Some o -> wf_obj i o.

(** The map holds live connections, each under its own root path. *)
Definition wf_map (s : Flint) : Prop :=
  NoDup (JsMap.keys (connections s)) /\
  forall k c, JsMap.get string_dec k (connections s) = Some c ->
              conn_path c = k /\ live s c.

(** The connections the log says were destroyed are destroyed. *)
Definition wf_destroyed (s : Flint) : Prop :=
  forall c, In (ConnectionDestroy c) (log s) ->
            exists o, nth_error (heap s) c = Some o /\ co_destroyed o = true.

(** The linter knows live connections only. *)
Definition wf_linter (s : Flint) : Prop :=
  forall c, In c (linter_registered s) ->
            exists o, nth_error (heap s) c = Some o /\ co_destroyed o = false.

Definition wf_state (s : Flint) : Prop :=
  wf_heap s /\ wf_map s /\ wf_destroyed s /\ wf_linter s /\
  unregistered_before_discard (log s) /\ silent_after_destroy (log s).

(** The entries of the log that touch neither the map nor the life of a
    connection, and carry no diagnostic. *)
Definition neutral (i : item) : bool :=
  match i with
  | ConnectionsDelete _ _ | ConnectionDestroy _ | LinterSetError _ _ _ => false
  | _ => true
  end.

(** The creation promises and the batches. *)
Definition work (s : Flint) := (tasks s, batches s).

(** [s'] extends the log of [s] by neutral entries and has the same
    registry. *)
Definition calm (s s' : Flint) : Prop :=
  registry s' = registry s /\ config s' = config s /\
  exists l, log s' = log s ++ l /\ forallb neutral l = true.

(** ** Invariants of the serialised runs *)

(** What the stage of a creation promise has learnt is what the world
    answers for the path the promise was given. *)
Definition stage_agrees (w : World) (p : string) (st : stage) : Prop :=
  match st with
  | AwaitRealPath | Settled _ => True
  | AwaitFileExists rp cfg => w_realPath w p = Some rp /\ cfg = configPath rp
  | AwaitCreate rp cfg =>
      w_realPath w p = Some rp /\ cfg = configPath rp /\
      w_fileExists w cfg = true
  end.

(** Serialised runs in a world that does not change: the keys of the map
    are connectable paths of the last batch; every connectable path of
    the last batch is a key or has a pending creation; the pending
    creations belong to the last batch. *)
Definition orderly_inv (w : World) (s : Flint) : Prop :=
  (forall k, In k (JsMap.keys (connections s)) ->
     w_realPath w k = Some k /\ connectable w (last_paths s) k) /\
  (forall p k, In p (last_paths s) -> w_realPath w p = Some k ->
     w_fileExists w (configPath k) = true -> w_create w k <> None ->
     In k (JsMap.keys (connections s)) \/
     exists t tk, nth_error (tasks s) t = Some tk /\ pending tk = true /\
                  t_path tk = p) /\
  (forall t tk, nth_error (tasks s) t = Some tk -> pending tk = true ->
     In (t_path tk) (last_paths s) /\
     stage_agrees w (t_path tk) (t_stage tk) /\
     t_batch tk + 1 = length (batches s)) /\
  (forall p k, In p (last_paths s) -> w_realPath w p = Some k ->
     w_realPath w k = Some k).

(** Serialised runs whose batches resolve to pairwise distinct canonical
    paths: a live connection is the one the map holds for its path; a
    pending creation is for a canonical path the map does not hold, and
    no two pending creations are for one canonical path. *)
Definition unique_inv (w : World) (s : Flint) : Prop :=
  (forall c, live s c ->
     JsMap.get string_dec (conn_path c) (connections s) = Some c) /\
  (forall t tk k,
     nth_error (tasks s) t = Some tk -> pending tk = true ->
     w_realPath w (t_path tk) = Some k ->
     ~ In k (JsMap.keys (connections s))) /\
  (forall t1 t2 tk1 tk2 k,
     nth_error (tasks s) t1 = Some tk1 -> nth_error (tasks s) t2 = Some tk2 ->
     pending tk1 = true -> pending tk2 = true ->
     w_realPath w (t_path tk1) = Some k ->
     w_realPath w (t_path tk2) = Some k -> t1 = t2).

(** ** Scenarios *)

(** The three settlements that bring the creation promise [t] of [path]
    to a registered connection, in a world where [path] is canonical. *)
Definition connect (t : nat) (path : string) : list event :=
  [RealPathSettled t (Some path); FileExistsSettled t (Some true);
   CreateSettled t (Some path)].

(** One project, /root, connected; nothing open. *)
Definition root_connected : Flint :=
  run (connect 0 "/root") (activate [] ["/root"]).

Definition root_connection : Connection := mkConnection 0 "/root" "/root".

(** ... then the project is removed. *)
Definition root_removed : Flint :=
  run [DidChangePaths []] root_connected.

(** Two nested projects, connected in the order of the path list. *)
Definition nested_connected : Flint :=
  run (connect 0 "/root" ++ connect 1 "/root/sub")
    (activate [] ["/root"; "/root/sub"]).


Definition root_document : TextEditor :=
  mkTextEditor 7 (Some "/root/src/x.js").

Definition rootother_document : TextEditor :=
  mkTextEditor 8 (Some "/rootother/x.js").

(** A path change arrives while [realPath] of the first batch is still
    pending ... *)
Definition overlapped : Flint :=
  run [DidChangePaths []] (activate [] ["/a"]).

(** ... and the creation of the first batch then runs to its end. *)
Definition overlapped_settled : Flint :=
  run (connect 0 "/a") overlapped.

(** One project, /a, at each suspension of its creation. *)
Definition awaiting_realPath : Flint := activate [] ["/a"].

Definition awaiting_fileExists : Flint :=
  step awaiting_realPath (RealPathSettled 0 (Some "/a")).

Definition awaiting_create : Flint :=
  step awaiting_fileExists (FileExistsSettled 0 (Some true)).

(** A world where every path is canonical and holds the marker file, and
    no transport can be established. *)
Definition refusing : World :=
  mkWorld (fun p => Some p) (fun _ => true) (fun _ => None).

(** A world where /link is a link to /real, every directory holds the
    marker file and every transport is established. *)
Definition linked : World :=
  mkWorld (fun p => if String.eqb p "/link" then Some "/real" else Some p)
    (fun _ => true) (fun p => Some p).

(** Two paths of one batch that resolve to the same directory, both
    connected. *)
Definition aliased : Flint :=
  run [RealPathSettled 0 (Some "/real"); FileExistsSettled 0 (Some true);
       CreateSettled 0 (Some "/real");
       RealPathSettled 1 (Some "/real"); FileExistsSettled 1 (Some true);
       CreateSettled 1 (Some "/real")]
    (activate [] ["/real"; "/link"]).

(** The project /link is connected, and connected again when the same
    path list is announced once more. *)
Definition relinked : list event :=
  [RealPathSettled 0 (Some "/real"); FileExistsSettled 0 (Some true);
   CreateSettled 0 (Some "/real"); DidChangePaths ["/link"];
   RealPathSettled 1 (Some "/real"); FileExistsSettled 1 (Some true);
   CreateSettled 1 (Some "/real")].

(** ** The hooks of the autocomplete provider and of the status icon *)

(** The callback given to [onShouldProvideEditor] (lines 30-32): what
    [info.editor] is set to; [None] is [undefined]. *)
Definition on_should_provide_editor (editor : TextEditor) (s : Flint)
    : option Editor :=
  JsMap.get TextEditor_dec editor (editors s).

(** Lines 72 and 74: the argument of [statusIcon.setActivePane],
    [this.editors.get(paneItem) || null]; [None] is [null]. *)
Definition active_pane (paneItem : TextEditor) (s : Flint) : option Editor :=
  match JsMap.get TextEditor_dec paneItem (editors s) with
  | Some editor => Some editor
  | None => None
  end.

(** ** More invariants of the reachable states *)

(** What the workspace side of the class consists of. *)
Definition shell (s : Flint) :=
  (editors s, subscriptions s, observing s, workspace s).

(** The editors map has one entry per text editor, and every entry wraps
    the text editor it is keyed by. *)
Definition good_editors (m : JsMap.t TextEditor Editor) : Prop :=
  NoDup (JsMap.keys m) /\
  forall te e, JsMap.get TextEditor_dec te m = Some e -> ed_textEditor e = te.

(** The documents that have an Editor are open. *)
Definition bound_are_open (s : Flint) : Prop :=
  forall te e, JsMap.get TextEditor_dec te (editors s) = Some e ->
    In te (workspace s).

(** [textEditor.getPath() === path] *)
Definition has_path (path : string) (te : TextEditor) : bool :=
  match te_path te with
  | Some p => String.eqb p path
  | None => false
  end.

(** ** More scenarios *)

(** /root is connected and the document /root/src/x.js is open. *)
Definition root_bound : Flint :=
  step root_connected (TextEditorOpened root_document).

Definition root_editor : Editor := mkEditor root_document root_connection.

Definition untitled_document : TextEditor := mkTextEditor 9 None.

(** ** What one [handlePaths] does, in closed form *)

(** The paths for which [handlePaths] emits 'did-add-project', in order. *)
Definition new_paths (paths : list string) (s : Flint) : list string :=
  filter (fun p => negb (JsMap.has string_dec p (connections s))) paths.

(** The entries of the map that [handlePaths] keeps, in order. *)
Definition kept (paths : list string) (m : JsMap.t string Connection)
    : JsMap.t string Connection :=
  filter (fun kv => negb (array_lacks paths (fst kv))) m.

(** What the removal loop writes to the log, entry by entry of the map. *)
Definition removal_log (paths : list string) (m : JsMap.t string Connection)
    : list item :=
  flat_map
    (fun kv =>
       if array_lacks paths (fst kv) then
         [ConnectionDestroy (conn_id (snd kv));
          LinterUnregister (conn_id (snd kv));
          ConnectionsDelete (fst kv) (conn_id (snd kv))]
       else []) m.

(** ** Connections the map has lost *)

(** A connection that is live and registered with the linter, and that
    the map does not hold. *)
Definition orphan (s : Flint) (c : Connection) : Prop :=
  live s c /\ In (conn_id c) (linter_registered s) /\
  ~ In c (JsMap.values (connections s)).

(** The first of the two connections of [aliased]. *)
Definition real_connection : Connection := mkConnection 0 "/real" "/real".

(** [aliased], one settlement earlier: /real is connected and the
    creation for /link, which resolves to /real too, is about to end. *)
Definition aliasing : Flint :=
  run [RealPathSettled 0 (Some "/real"); FileExistsSettled 0 (Some true);
       CreateSettled 0 (Some "/real");
       RealPathSettled 1 (Some "/real"); FileExistsSettled 1 (Some true)]
    (activate [] ["/real"; "/link"]).

(** The linter knows every live connection. *)
Definition tracked (s : Flint) : Prop :=
  forall c, live s c -> In (conn_id c) (linter_registered s).

(** ** The gate of [activate] *)

Definition is_pane (d : disposable) : bool :=
  match d with DPaneSubscription => true | _ => false end.

(** How often [onDidChangeActivePaneItem] was subscribed (lines 71-73). *)
Definition panes (s : Flint) : nat :=
  length (filter is_pane (subscriptions s)).

(** The promise returned by [activate]'s own [handlePaths] has settled. *)
Definition first_settled (s : Flint) : Prop :=
  exists bt, nth_error (batches s) 0 = Some bt /\ returned bt = Fulfilled.

(** The first batch is the one [activate] chained the observation of the
    workspace on (line 57); nothing is chained on the others.  As long as
    it is pending nothing is observed and no document is bound; once it
    has settled the active-pane hook is subscribed exactly if the
    observer is. *)
Definition gate (bs : list batch) (obs : bool)
    (eds : JsMap.t TextEditor Editor) (n : nat) : Prop :=
  match bs with
  | [] => False
  | bt0 :: rest =>
      Forall (fun bt => b_then bt = []) rest /\
      match b_all bt0 with
      | Pending =>
          b_then bt0 = [ObserveWorkspace] /\ obs = false /\ eds = [] /\ n = 0
      | _ => b_then bt0 = [] /\ n = (if obs then 1 else 0)
      end
  end.

Definition gate_inv (s : Flint) : Prop :=
  gate (batches s) (observing s) (editors s) (panes s).

(** The Editor the callback of the observer makes for a document, if
    any (lines 60-62). *)
Definition offered (te : TextEditor) (s : Flint) : option Editor :=
  match getConnectionByPath (te_path te) s with
  | Normal (Some connection) => Some (mkEditor te connection)
  | _ => None
  end.

(** Every open document has the Editor the callback makes for it in this
    state, or none. *)
Definition bound_as_offered (s : Flint) : Prop :=
  forall te, In te (workspace s) ->
    JsMap.get TextEditor_dec te (editors s) = offered te s.

(** What a settlement leaves of the gate: once the first batch has
    settled nothing of it changes, and when the observation starts the
    open documents are bound. *)
Definition gate_kept (s s' : Flint) : Prop :=
  gate_inv s' /\
  (first_settled s ->
   first_settled s' /\
   observing s' = observing s /\ editors s' = editors s /\
   panes s' = panes s) /\
  (observing s = false -> observing s' = true -> bound_as_offered s').

(** The events of the workspace, as opposed to those of the project and
    of the connections. *)
Definition of_workspace (e : event) : bool :=
  match e with
  | TextEditorOpened _ | TextEditorClosed _ => true
  | _ => false
  end.

(** The project /late is added, and connected, after the workspace is
    observed; a document of it was opened in between. *)
Definition late_project : Flint :=
  run [TextEditorOpened (mkTextEditor 3 (Some "/late/x.js"));
       DidChangePaths ["/late"];
       RealPathSettled 0 (Some "/late"); FileExistsSettled 0 (Some true)]
    (activate [] []).


(** The same with an untitled document opened before it, and the
    connection established: the observation starts, and stops at the
    untitled document. *)
Definition observation_aborted : Flint :=
  run (connect 0 "/root")
    (activate [untitled_document; root_document] ["/root"]).



(** ** The promises of one batch *)

(** The creation promise was rejected. *)
Definition failed (tk : task) : bool :=
  match t_stage tk with Settled Rejected => true | _ => false end.

(** How many creation promises of batch [b] have not settled. *)
Definition outstanding (b : nat) (ts : list task) : nat :=
  length (filter (fun tk => Nat.eqb (t_batch tk) b && pending tk) ts).

(** How many creation promises of batch [b] were rejected. *)
Definition failures (b : nat) (ts : list task) : nat :=
  length (filter (fun tk => Nat.eqb (t_batch tk) b && failed tk) ts).

(** [Promise.all] of batch [b], with [remaining] promises to wait for,
    against the creation promises themselves. *)
Definition batch_ok (ts : list task) (b : nat) (remaining : nat)
    (all : pstate) : Prop :=
  match all with
  | Pending =>
      remaining = outstanding b ts /\ 0 < outstanding b ts /\
      failures b ts = 0
  | Fulfilled => outstanding b ts = 0 /\ failures b ts = 0
  | Rejected => 0 < failures b ts
  end.

Definition batches_inv (s : Flint) : Prop :=
  (forall b bt, nth_error (batches s) b = Some bt ->
     batch_ok (tasks s) b (b_remaining bt) (b_all bt)) /\
  (forall tk, In tk (tasks s) -> t_batch tk < length (batches s)).

(** One project whose path does not resolve: [realPath] rejects. *)
Definition unresolved : Flint :=
  run [RealPathSettled 0 None] (activate [] ["/a"]).

(** ** The Editors among the subscriptions *)

(** What the constructor and [activate] subscribe for good (lines 24-28
    and 54). *)
Definition permanent : list disposable :=
  [DEmitter; DCommands; DLinter; DStatusIcon; DAutocomplete;
   DPathsSubscription].

(** The Editors of the map are subscribed, the subscribed Editors wrap
    documents of the map, and nothing permanent is missing. *)
Definition subscribed (m : JsMap.t TextEditor Editor) (l : list disposable)
    : Prop :=
  good_editors m /\
  (forall te e, JsMap.get TextEditor_dec te m = Some e -> In (DEditor e) l) /\
  (forall e, In (DEditor e) l ->
     JsMap.has TextEditor_dec (ed_textEditor e) m = true) /\
  incl permanent l.

(** * Properties *)

Unset Implicit Arguments.

(** ** The map *)

Section JsMapFacts.
Variables K V : Type.
Variable K_dec : forall x y : K, {x = y} + {x <> y}.
Implicit Types (m : JsMap.t K V) (k : K) (v : V).

Lemma get_in_keys k m v :
  JsMap.get K_dec k m = Some v -> In k (JsMap.keys m).
Proof.
  induction m as [|[k' v'] r IH]; simpl; [discriminate|].
  destruct (K_dec k k'); auto.
Qed.

Lemma in_keys_get k m :
  In k (JsMap.keys m) -> exists v, JsMap.get K_dec k m = Some v.
Proof.
  induction m as [|[k' v'] r IH]; simpl; [tauto|].
  intros [->|H].
  - destruct (K_dec k k); [eauto|congruence].
  - destruct (K_dec k k'); eauto.
Qed.

Lemma has_true k m : JsMap.has K_dec k m = true <-> In k (JsMap.keys m).
Proof.
  unfold JsMap.has. split.
  - destruct (JsMap.get K_dec k m) eqn:E; [|discriminate].
    intros _. eapply get_in_keys; eauto.
  - intros H. apply in_keys_get in H as [v ->]. reflexivity.
Qed.

Lemma get_set k k' v m :
  JsMap.get K_dec k (JsMap.set K_dec k' v m) =
  if K_dec k k' then Some v else JsMap.get K_dec k m.
Proof.
  induction m as [|[k0 v0] r IH]; simpl.
  - destruct (K_dec k k'); reflexivity.
  - destruct (K_dec k' k0) as [->|N]; simpl.
    + destruct (K_dec k k0); reflexivity.
    + destruct (K_dec k k0) as [->|N0].
      * destruct (K_dec k0 k'); congruence.
      * exact IH.
Qed.

Lemma get_delete k k' m :
  JsMap.get K_dec k (JsMap.delete K_dec k' m) =
  if K_dec k k' then None else JsMap.get K_dec k m.
Proof.
  induction m as [|[k0 v0] r IH]; simpl.
  - destruct (K_dec k k'); reflexivity.
  - destruct (K_dec k' k0) as [->|N]; simpl.
    + rewrite IH. destruct (K_dec k k0); reflexivity.
    + destruct (K_dec k k0) as [->|N0].
      * destruct (K_dec k0 k'); congruence.
      * exact IH.
Qed.

Lemma keys_set k v m :
  JsMap.keys (JsMap.set K_dec k v m) =
  if JsMap.has K_dec k m then JsMap.keys m else JsMap.keys m ++ [k].
Proof.
  unfold JsMap.has.
  induction m as [|[k0 v0] r IH]; simpl; [reflexivity|].
  destruct (K_dec k k0) as [->|N]; simpl; [reflexivity|].
  rewrite IH. destruct (JsMap.get K_dec k r); reflexivity.
Qed.

Lemma values_set_new k v m :
  JsMap.has K_dec k m = false ->
  JsMap.values (JsMap.set K_dec k v m) = JsMap.values m ++ [v].
Proof.
  unfold JsMap.has.
  induction m as [|[k0 v0] r IH]; simpl; [reflexivity|].
  destruct (K_dec k k0) as [->|N]; simpl; [discriminate|].
  intros H. rewrite IH; auto.
Qed.

Lemma in_keys_delete k k' m :
  In k (JsMap.keys (JsMap.delete K_dec k' m)) <->
  k <> k' /\ In k (JsMap.keys m).
Proof.
  induction m as [|[k0 v0] r IH]; simpl; [tauto|].
  destruct (K_dec k' k0) as [->|N]; simpl.
  - rewrite IH. split; [tauto|]. intros [H [H1|H1]]; [congruence|tauto].
  - rewrite IH. split.
    + intros [->|H]; [split; auto; congruence|tauto].
    + tauto.
Qed.

Lemma NoDup_keys_delete k m :
  NoDup (JsMap.keys m) -> NoDup (JsMap.keys (JsMap.delete K_dec k m)).
Proof.
  induction m as [|[k0 v0] r IH]; simpl; [auto|].
  intros H. inversion H as [|? ? Hn Hr]; subst.
  destruct (K_dec k k0); simpl; auto.
  constructor; auto. rewrite in_keys_delete. tauto.
Qed.

Lemma NoDup_keys_set k v m :
  NoDup (JsMap.keys m) -> NoDup (JsMap.keys (JsMap.set K_dec k v m)).
Proof.
  intros H. rewrite keys_set.
  destruct (JsMap.has K_dec k m) eqn:E; auto.
  apply NoDup_app; [exact H|repeat constructor; simpl; tauto|].
  intros x Hx [<-|[]].
  apply has_true in Hx. congruence.
Qed.
End JsMapFacts.

(** ** Strings *)

Lemma indexOf_zero_prefix (hay needle : string) :
  indexOf hay needle = Some 0 <-> String.prefix needle hay = true.
Proof.
  unfold indexOf. destruct hay as [|a hay]; simpl.
  - destruct needle; simpl; split; congruence.
  - destruct needle as [|b needle]; simpl; [tauto|].
    destruct (Ascii.ascii_dec b a) as [->|N].
    + destruct (String.prefix needle hay); [tauto|].
      destruct (String.index 0 (String a needle) hay); split; congruence.
    + destruct (String.index 0 (String b needle) hay); split; congruence.
Qed.

Lemma array_lacks_false (paths : list string) (x : string) :
  array_lacks paths x = false <-> In x paths.
Proof.
  unfold array_lacks. rewrite negb_false_iff, existsb_exists. split.
  - intros [y [Hy E]]. apply String.eqb_eq in E. congruence.
  - intros H. exists x. split; auto. apply String.eqb_refl.
Qed.

(** ** What each callback leaves alone *)

Lemma calm_refl s : calm s s.
Proof.
  repeat split. exists []. now rewrite app_nil_r.
Qed.

(** Closed goals about a scenario are settled by evaluation. *)
Ltac evaluate := vm_compute; reflexivity.

(** For the callbacks that write outside the registry and the log. *)
Ltac calm_fields :=
  repeat split; exists []; simpl; rewrite ?app_nil_r; split; reflexivity.

Lemma calm_trans s1 s2 s3 : calm s1 s2 -> calm s2 s3 -> calm s1 s3.
Proof.
  intros (R1 & C1 & l1 & L1 & N1) (R2 & C2 & l2 & L2 & N2).
  repeat split; try congruence.
  exists (l1 ++ l2). rewrite L2, L1, app_assoc. split; auto.
  rewrite forallb_app, N1, N2. reflexivity.
Qed.

Lemma calm_connections s s' : calm s s' -> connections s' = connections s.
Proof. intros (R & _). now injection R. Qed.

Lemma calm_heap s s' : calm s s' -> heap s' = heap s.
Proof. intros (R & _). now injection R. Qed.

Lemma calm_emit l s : forallb neutral l = true -> calm s (emit l s).
Proof. intros H. repeat split. exists l. auto. Qed.

Lemma calm_fold (A : Type) (f : Flint -> A -> Flint) (l : list A) :
  (forall s a, calm s (f s a)) -> forall s, calm s (fold_left f l s).
Proof.
  intros H. induction l as [|a l IH]; simpl; intros s.
  - apply calm_refl.
  - eapply calm_trans; [apply H|apply IH].
Qed.

Lemma on_text_editor_calm te s : calm s (on_text_editor te s).
Proof.
  unfold on_text_editor.
  destruct (getConnectionByPath (te_path te) s) as [[c|]|what].
  - repeat split. exists [NewEditor (te_id te) (conn_id c)]. auto.
  - apply calm_refl.
  - now apply calm_emit.
Qed.

Lemma on_text_editor_work te s : work (on_text_editor te s) = work s.
Proof.
  unfold on_text_editor.
  destruct (getConnectionByPath (te_path te) s) as [[c|]|what]; reflexivity.
Qed.

Lemma observe_existing_calm l :
  forall s, calm s (snd (observe_existing l s)).
Proof.
  induction l as [|te l IH]; simpl; intros s; [apply calm_refl|].
  destruct (getConnectionByPath (te_path te) s).
  - eapply calm_trans; [apply on_text_editor_calm|apply IH].
  - apply on_text_editor_calm.
Qed.

Lemma observe_existing_work l :
  forall s, work (snd (observe_existing l s)) = work s.
Proof.
  induction l as [|te l IH]; simpl; intros s; [reflexivity|].
  destruct (getConnectionByPath (te_path te) s).
  - rewrite IH. apply on_text_editor_work.
  - apply on_text_editor_work.
Qed.

Lemma observe_workspace_calm s : calm s (observe_workspace s).
Proof.
  unfold observe_workspace.
  pose proof (observe_existing_calm (workspace s) s) as H.
  destruct (observe_existing (workspace s) s) as [[] s1]; [|exact H].
  simpl in H. destruct H as (R & C & l & L & N).
  repeat split; auto. exists l. auto.
Qed.

Lemma observe_workspace_work s : work (observe_workspace s) = work s.
Proof.
  unfold observe_workspace.
  pose proof (observe_existing_work (workspace s) s) as H.
  destruct (observe_existing (workspace s) s) as [[] s1]; exact H.
Qed.

Lemma reactions_calm l s : calm s (fold_left run_reaction l s).
Proof.
  apply calm_fold. intros s0 []. apply observe_workspace_calm.
Qed.

Lemma reactions_work l s : work (fold_left run_reaction l s) = work s.
Proof.
  revert s. induction l as [|[] l IH]; simpl; intros s; auto.
  rewrite IH. apply observe_workspace_work.
Qed.

Lemma set_stage_calm t st s : calm s (set_stage t st s).
Proof. calm_fields. Qed.

Lemma settle_calm t o s : calm s (settle t o s).
Proof.
  unfold settle. destruct (nth_error (tasks s) t) as [tk|]; [|apply calm_refl].
  destruct (nth_error (batches (set_stage t (Settled o) s)) (t_batch tk))
    as [bt|]; [|calm_fields].
  destruct (b_all bt); try calm_fields.
  destruct o.
  - destruct (Nat.eqb (b_remaining bt) 1); [|calm_fields].
    eapply calm_trans; [|apply reactions_calm]. calm_fields.
  - destruct (Nat.eqb (b_remaining bt) 1); [|calm_fields].
    eapply calm_trans; [|apply reactions_calm]. calm_fields.
  - eapply calm_trans; [|apply reactions_calm].
    repeat split. exists [ConsoleError "handlePaths"]. auto.
Qed.

(** Settling changes the stage of the promise and nothing else of the
    creation promises. *)
Lemma settle_tasks t o s :
  tasks (settle t o s) =
  update_nth t (fun tk => mkTask (t_batch tk) (t_path tk) (Settled o)) (tasks s).
Proof.
  unfold settle. destruct (nth_error (tasks s) t) as [tk|] eqn:E.
  - destruct (nth_error (batches (set_stage t (Settled o) s)) (t_batch tk))
      as [bt|]; [|reflexivity].
    assert (R : forall l s0, tasks (fold_left run_reaction l s0) = tasks s0).
    { intros l s0. pose proof (reactions_work l s0) as H.
      unfold work in H. congruence. }
    destruct (b_all bt); try reflexivity.
    destruct o; try (destruct (Nat.eqb (b_remaining bt) 1));
      try rewrite R; reflexivity.
  - clear -E. revert t E. induction (tasks s) as [|x r IH]; intros [|t] E;
      simpl in *; try discriminate; auto. f_equal. auto.
Qed.

Lemma nth_error_update_nth (A : Type) n m (f : A -> A) l :
  nth_error (update_nth n f l) m =
  if Nat.eqb m n then option_map f (nth_error l m) else nth_error l m.
Proof.
  revert n m. induction l as [|x r IH]; intros [|n] [|m]; simpl; auto.
  - destruct (Nat.eqb m n); reflexivity.
Qed.

Lemma map_update_nth (A B : Type) (g : A -> B) n (f : A -> A) l :
  (forall x, g (f x) = g x) -> map g (update_nth n f l) = map g l.
Proof.
  intros H. revert n. induction l as [|x r IH]; intros [|n]; simpl; auto;
    now rewrite ?H, ?IH.
Qed.

(** Settling keeps the number of batches and the paths of each. *)
Lemma settle_batch_paths t o s :
  map b_paths (batches (settle t o s)) = map b_paths (batches s).
Proof.
  unfold settle. destruct (nth_error (tasks s) t) as [tk|]; [|reflexivity].
  destruct (nth_error (batches (set_stage t (Settled o) s)) (t_batch tk))
    as [bt|]; [|reflexivity].
  assert (R : forall l s0, batches (fold_left run_reaction l s0) = batches s0).
  { intros l s0. pose proof (reactions_work l s0) as H.
    unfold work in H. congruence. }
  destruct (b_all bt); try reflexivity.
  destruct o; try (destruct (Nat.eqb (b_remaining bt) 1));
    rewrite ?R; simpl; now rewrite map_update_nth.
Qed.

(** ** The log *)

Lemma app_eq_app_cons (A : Type) (l l' l1 l2 : list A) (x : A) :
  l ++ l' = l1 ++ x :: l2 ->
  (exists m, l = l1 ++ x :: m /\ l2 = m ++ l') \/
  (exists m, l1 = l ++ m /\ l' = m ++ x :: l2).
Proof.
  revert l1. induction l as [|a l IH]; simpl; intros l1 H.
  - right. exists l1. auto.
  - destruct l1 as [|b l1]; simpl in H.
    + injection H as -> <-. left. exists l. auto.
    + injection H as -> H. destruct (IH _ H) as [[m [-> ->]]|[m [-> ->]]].
      * left. exists m. auto.
      * right. exists m. auto.
Qed.

Lemma neutral_no_delete l k c :
  forallb neutral l = true -> ~ In (ConnectionsDelete k c) l.
Proof.
  intros H Hin. rewrite forallb_forall in H. apply H in Hin. discriminate.
Qed.

Lemma neutral_no_destroy l c :
  forallb neutral l = true -> ~ In (ConnectionDestroy c) l.
Proof.
  intros H Hin. rewrite forallb_forall in H. apply H in Hin. discriminate.
Qed.

Lemma neutral_no_set l c f d :
  forallb neutral l = true -> ~ In (LinterSetError c f d) l.
Proof.
  intros H Hin. rewrite forallb_forall in H. apply H in Hin. discriminate.
Qed.

Lemma unregistered_app l l' :
  unregistered_before_discard l ->
  (forall k c, ~ In (ConnectionsDelete k c) l') ->
  unregistered_before_discard (l ++ l').
Proof.
  intros H N l1 k c l2 E.
  apply app_eq_app_cons in E as [[m [-> ->]]|[m [-> ->]]].
  - eapply H. reflexivity.
  - exfalso. apply (N k c). apply in_or_app. right. now left.
Qed.

Lemma unregistered_app_discard l k c :
  unregistered_before_discard l ->
  unregistered_before_discard
    (l ++ [ConnectionDestroy c; LinterUnregister c; ConnectionsDelete k c]).
Proof.
  intros H l1 k' c' l2 E.
  apply app_eq_app_cons in E as [[m [-> ->]]|[m [-> E]]].
  - eapply H. reflexivity.
  - destruct m as [|a [|b [|x m]]]; simpl in E; try discriminate.
    + injection E as E1 E2 E3. subst. exists l. reflexivity.
    + destruct m; discriminate.
Qed.

Lemma silent_app_no_set l l' :
  silent_after_destroy l ->
  (forall c f d, ~ In (LinterSetError c f d) l') ->
  silent_after_destroy (l ++ l').
Proof.
  intros H N l1 c l2 E f d Hin.
  apply app_eq_app_cons in E as [[m [-> ->]]|[m [-> ->]]].
  - apply in_app_or in Hin as [Hin|Hin].
    + eapply H; eauto.
    + eapply N; eauto.
  - eapply N. apply in_or_app. right. right. eauto.
Qed.

Lemma silent_app_no_destroy l l' :
  silent_after_destroy l ->
  (forall c, ~ In (ConnectionDestroy c) l') ->
  (forall c f d, In (LinterSetError c f d) l' -> ~ In (ConnectionDestroy c) l) ->
  silent_after_destroy (l ++ l').
Proof.
  intros H N S l1 c l2 E f d Hin.
  apply app_eq_app_cons in E as [[m [-> ->]]|[m [-> ->]]].
  - apply in_app_or in Hin as [Hin|Hin].
    + eapply H; eauto.
    + eapply S; eauto. apply in_or_app. right. now left.
  - eapply N. apply in_or_app. right. left. reflexivity.
Qed.

(** ** The invariant is kept *)

Lemma live_same_heap s s' c : heap s' = heap s -> live s c -> live s' c.
Proof. unfold live. intros ->. auto. Qed.

Lemma wf_state_calm s s' : calm s s' -> wf_state s -> wf_state s'.
Proof.
  intros (R & _ & l & L & N) (H & (ND & M) & D & Li & U & S).
  unfold registry in R. injection R as Rc Rh Rl.
  split; [|split; [|split; [|split; [|split]]]].
  - unfold wf_heap. rewrite Rh. exact H.
  - unfold wf_map. rewrite Rc. split; auto.
    intros k c G. destruct (M k c G) as [P Lv]. split; auto.
    now apply live_same_heap with (s := s).
  - unfold wf_destroyed. rewrite L, Rh. intros c Hin.
    apply in_app_or in Hin as [Hin|Hin]; auto.
    exfalso. eapply neutral_no_destroy; eauto.
  - unfold wf_linter. rewrite Rl, Rh. exact Li.
  - rewrite L. apply unregistered_app; auto.
    intros. now apply neutral_no_delete.
  - rewrite L. apply silent_app_no_set; auto.
    intros. now apply neutral_no_set.
Qed.

(** A live connection dispatches a message to the handler of its kind;
    a destroyed one to none. *)
Lemma dispatch_live c m s o :
  nth_error (heap s) c = Some o ->
  co_onMessage o = handlers_of (co_conn o) ->
  dispatch c m s =
  match m with
  | CompileErrorMsg error => on_compile_error (co_conn o) error s
  | FileMetaMsg file views => on_file_meta (co_conn o) file views s
  | CompileSuccessMsg path => on_compile_success (co_conn o) path s
  end.
Proof.
  intros H E. unfold dispatch. rewrite H, E. destruct m; reflexivity.
Qed.

Lemma dispatch_dead c m s o :
  nth_error (heap s) c = Some o -> co_onMessage o = [] -> dispatch c m s = s.
Proof. intros H E. unfold dispatch. now rewrite H, E. Qed.

Lemma wf_state_emit l s :
  wf_state s ->
  (forall i, In i l ->
     neutral i = true \/
     exists c f d, i = LinterSetError c f d /\ ~ In (ConnectionDestroy c) (log s)) ->
  wf_state (emit l s).
Proof.
  intros (H & M & D & Li & U & S) A.
  split; [|split; [|split; [|split; [|split]]]]; auto.
  - intros c Hin. simpl in Hin. apply in_app_or in Hin as [Hin|Hin]; auto.
    destruct (A _ Hin) as [N|(c' & f & d & E & _)]; discriminate.
  - simpl. apply unregistered_app; auto.
    intros k c Hin. destruct (A _ Hin) as [N|(c' & f & d & E & _)]; discriminate.
  - simpl. apply silent_app_no_destroy; auto.
    + intros c Hin.
      destruct (A _ Hin) as [N|(c' & f & d & E & _)]; discriminate.
    + intros c f d Hin.
      destruct (A _ Hin) as [N|(c' & f' & d' & E & Hn)]; [discriminate|].
      now injection E as -> _ _.
Qed.

Lemma wf_state_dispatch c m s : wf_state s -> wf_state (dispatch c m s).
Proof.
  intros W. destruct (nth_error (heap s) c) as [o|] eqn:E.
  2:{ unfold dispatch. now rewrite E. }
  pose proof W as (H & _ & D & _).
  destruct (H _ _ E) as [Id Hs].
  destruct (co_destroyed o) eqn:Ed.
  - rewrite (dispatch_dead _ _ _ _ E); tauto.
  - rewrite (dispatch_live _ _ _ _ E); [|tauto].
    assert (N : ~ In (ConnectionDestroy c) (log s)).
    { intros Hin. destruct (D _ Hin) as (o' & E' & Ed'). congruence. }
    destruct m as [error|file views|path].
    + unfold on_compile_error. destruct (err_loc error).
      * apply wf_state_emit; auto. intros i [<-|[]]. right.
        rewrite Id. eauto.
      * apply wf_state_emit; auto. intros i [<-|[]]. now left.
    + unfold on_file_meta.
      destruct (getEditorByPath _ s); auto.
      apply wf_state_emit; auto. intros i [<-|[]]. now left.
    + apply wf_state_emit; auto. intros i [<-|[]]. right.
      rewrite Id. eauto.
Qed.

(** What [destroy()] does to a live connection of the heap. *)
Lemma Connection_destroy_live c s o :
  nth_error (heap s) (conn_id c) = Some o ->
  co_destroyed o = false ->
  co_onDidDestroy o = [UnregisterFromLinter c] ->
  Connection_destroy c s =
  emit [ConnectionDestroy (conn_id c); LinterUnregister (conn_id c)]
    (set_linter (remove Nat.eq_dec (conn_id c) (linter_registered s))
       (set_heap
          (update_nth (conn_id c)
             (fun o => mkConnObj (co_conn o) true [] []) (heap s)) s)).
Proof.
  intros H D E. unfold Connection_destroy. rewrite H, D, E.
  destruct s. simpl.
  unfold Linter_unregisterConnection. unfold emit, set_linter, set_heap. simpl.
  now rewrite <- app_assoc.
Qed.

Lemma wf_state_discard k c s :
  wf_state s -> JsMap.get string_dec k (connections s) = Some c ->
  wf_state (discard k c s).
Proof.
  intros (H & (ND & M) & D & Li & U & S) G.
  destruct (M _ _ G) as [P (o & E & Ec & Ed)].
  destruct (H _ _ E) as [Id Hs]. rewrite Ed in Hs. destruct Hs as [Hd Hm].
  rewrite Ec in Hd.
  unfold discard. rewrite (Connection_destroy_live _ _ _ E Ed Hd).
  split; [|split; [|split; [|split; [|split]]]]; simpl.
  - intros i o'. unfold wf_heap in H. simpl.
    rewrite nth_error_update_nth.
    destruct (Nat.eqb i (conn_id c)) eqn:Ei.
    + apply Nat.eqb_eq in Ei. subst i. rewrite E. simpl.
      intros [= <-]. split; simpl; auto.
    + apply H.
  - split; simpl.
    + now apply NoDup_keys_delete.
    + intros k' c'. rewrite get_delete.
      destruct (string_dec k' k) as [->|Nk]; [discriminate|].
      intros G'. destruct (M _ _ G') as [P' (o' & E' & Ec' & Ed')].
      split; auto. exists o'. simpl. rewrite nth_error_update_nth.
      destruct (Nat.eqb (conn_id c') (conn_id c)) eqn:Ei; auto.
      apply Nat.eqb_eq in Ei. rewrite Ei in E'.
      exfalso. apply Nk. congruence.
  - intros c' Hin. simpl. rewrite nth_error_update_nth.
    apply in_app_or in Hin as [Hin|Hin].
    + apply in_app_or in Hin as [Hin|Hin].
      * destruct (D _ Hin) as (o' & E' & Ed').
        rewrite E'. destruct (Nat.eqb c' (conn_id c)); simpl; eauto.
      * destruct Hin as [[= <-]|[[=]|[]]].
        rewrite Nat.eqb_refl, E. simpl. eauto.
    + destruct Hin as [[=]|[]].
  - intros c' Hin. simpl in *. apply in_remove in Hin as [Hin Hne].
    destruct (Li _ Hin) as (o' & E' & Ed').
    exists o'. rewrite nth_error_update_nth.
    destruct (Nat.eqb c' (conn_id c)) eqn:Ei; auto.
    apply Nat.eqb_eq in Ei. congruence.
  - rewrite <- app_assoc. simpl. now apply unregistered_app_discard.
  - rewrite <- app_assoc. simpl. apply silent_app_no_set; auto.
    intros c' f d [[=]|[[=]|[[=]|[]]]].
Qed.

Lemma wf_state_remove_deleted paths ks s :
  wf_state s -> wf_state (remove_deleted paths ks s).
Proof.
  revert s. induction ks as [|k ks IH]; simpl; intros s W; auto.
  apply IH. destruct (array_lacks paths k); auto.
  destruct (JsMap.get string_dec k (connections s)) eqn:G; auto.
  now apply wf_state_discard.
Qed.

Lemma add_new_ones_calm b paths s : calm s (add_new_ones b paths s).
Proof.
  revert s. induction paths as [|p r IH]; simpl; intros s.
  - apply calm_refl.
  - eapply calm_trans; [|apply IH].
    destruct (JsMap.has string_dec p (connections s)); [apply calm_refl|].
    repeat split. exists [DidAddProject b p]. auto.
Qed.

Lemma wf_state_handlePaths paths s :
  wf_state s -> wf_state (fst (handlePaths paths s)).
Proof.
  intros W. unfold handlePaths. simpl.
  match goal with |- wf_state (set_batches ?l ?s2) =>
    apply wf_state_calm with (s := s2); [calm_fields|] end.
  apply wf_state_remove_deleted.
  eapply wf_state_calm; [apply add_new_ones_calm|].
  eapply wf_state_calm; [|exact W]. now apply calm_emit.
Qed.

Lemma update_nth_last (A : Type) (f : A -> A) (l : list A) (x : A) :
  update_nth (length l) f (l ++ [x]) = l ++ [f x].
Proof. induction l as [|a l IH]; simpl; congruence. Qed.

(** [handleConnection] on the connection [Connection.create] has just
    made. *)
Lemma handleConnection_fresh rp c s :
  conn_id c = length (heap s) ->
  handleConnection rp c (set_heap (heap s ++ [mkConnObj c false [] []]) s) =
  emit [ConnectionsSet rp (conn_id c); LinterRegister (conn_id c)]
    (set_heap
       (heap s ++ [mkConnObj c false [UnregisterFromLinter c] (handlers_of c)])
       (set_linter (linter_registered s ++ [conn_id c])
          (set_connections (JsMap.set string_dec rp c (connections s)) s))).
Proof.
  destruct s.
  cbv [handleConnection Connection_onMessage Connection_onDidDestroy
       Linter_registerConnection emit set_heap set_linter set_connections
       config subscriptions disposed connections editors linter_registered
       heap tasks batches observing workspace log].
  intros ->. rewrite !update_nth_last.
  cbv [co_conn co_destroyed co_onDidDestroy co_onMessage handlers_of].
  rewrite <- !app_assoc. reflexivity.
Qed.

Lemma wf_state_registered rp baseDir s :
  wf_state s ->
  let c := mkConnection (length (heap s)) rp baseDir in
  wf_state
    (handleConnection rp c (set_heap (heap s ++ [mkConnObj c false [] []]) s)).
Proof.
  intros (H & (ND & M) & D & Li & U & S) c.
  rewrite handleConnection_fresh by reflexivity.
  assert (Old : forall i o, nth_error (heap s) i = Some o ->
                  nth_error (heap s ++ [mkConnObj c false [UnregisterFromLinter c]
                                          (handlers_of c)]) i = Some o).
  { intros i o E. rewrite nth_error_app1; auto.
    apply nth_error_Some. congruence. }
  assert (New : nth_error (heap s ++ [mkConnObj c false [UnregisterFromLinter c]
                                        (handlers_of c)]) (length (heap s)) =
                Some (mkConnObj c false [UnregisterFromLinter c] (handlers_of c))).
  { rewrite nth_error_app2, Nat.sub_diag; auto. }
  split; [|split; [|split; [|split; [|split]]]]; simpl.
  - intros i o. simpl. intros E.
    destruct (Nat.lt_ge_cases i (length (heap s))) as [Lt|Ge].
    + rewrite nth_error_app1 in E; auto.
    + rewrite nth_error_app2 in E; auto.
      destruct (i - length (heap s)) as [|n] eqn:En; simpl in E.
      * injection E as <-. split; simpl; auto. subst c. simpl. lia.
      * destruct n; discriminate.
  - split; simpl.
    + now apply NoDup_keys_set.
    + intros k c'. rewrite get_set. destruct (string_dec k rp) as [->|Nk].
      * intros [= <-]. split; auto. eexists. simpl. split; [exact New|auto].
      * intros G. destruct (M _ _ G) as [P (o & E & Ec & Ed)].
        split; auto. exists o. simpl. auto.
  - intros c' Hin. simpl in *. apply in_app_or in Hin as [Hin|Hin].
    + destruct (D _ Hin) as (o & E & Ed). eauto.
    + destruct Hin as [[=]|[[=]|[]]].
  - intros c' Hin. simpl in *. apply in_app_or in Hin as [Hin|Hin].
    + destruct (Li _ Hin) as (o & E & Ed). eauto.
    + destruct Hin as [<-|[]]. eexists. split; [exact New|auto].
  - apply unregistered_app; auto. intros k c' [[=]|[[=]|[]]].
  - apply silent_app_no_set; auto. intros c' f d [[=]|[[=]|[]]].
Qed.

Lemma then_returned_calm b r s : calm s (then_returned b r s).
Proof.
  unfold then_returned. destruct (nth_error (batches s) b) as [bt|].
  - destruct (returned bt).
    + calm_fields.
    + destruct r. apply observe_workspace_calm.
    + apply calm_refl.
  - apply calm_refl.
Qed.

Lemma on_closed_calm te s : calm s (on_closed te s).
Proof.
  unfold on_closed.
  destruct (JsMap.get TextEditor_dec te
              (editors (set_workspace (remove TextEditor_dec te (workspace s)) s)));
    calm_fields.
Qed.

Lemma on_opened_calm te s : calm s (on_opened te s).
Proof.
  unfold on_opened.
  destruct (observing (set_workspace (workspace s ++ [te]) s)).
  - eapply calm_trans; [|apply on_text_editor_calm]. calm_fields.
  - calm_fields.
Qed.

Lemma wf_state_step s e : wf_state s -> wf_state (step s e).
Proof.
  intros W. destruct e as [paths|t r|t r|t r|c m|te|te]; simpl.
  - now apply wf_state_handlePaths.
  - unfold on_real_path.
    destruct (nth_error (tasks s) t) as [[b p []]|]; auto.
    destruct r.
    + eapply wf_state_calm; [apply set_stage_calm|auto].
    + eapply wf_state_calm; [apply settle_calm|auto].
  - unfold on_file_exists.
    destruct (nth_error (tasks s) t) as [[b p []]|]; auto.
    destruct r as [[]|].
    + eapply wf_state_calm; [apply set_stage_calm|auto].
    + eapply wf_state_calm; [apply settle_calm|auto].
    + eapply wf_state_calm; [apply settle_calm|auto].
  - unfold on_create.
    destruct (nth_error (tasks s) t) as [[b p []]|]; auto.
    destruct r as [baseDir|].
    + eapply wf_state_calm; [apply settle_calm|].
      now apply wf_state_registered.
    + eapply wf_state_calm; [apply settle_calm|].
      eapply wf_state_calm; [|exact W]. now apply calm_emit.
  - now apply wf_state_dispatch.
  - eapply wf_state_calm; [apply on_opened_calm|auto].
  - eapply wf_state_calm; [apply on_closed_calm|auto].
Qed.

Lemma wf_state_constructor : wf_state constructor.
Proof.
  split; [|split; [|split; [|split; [|split]]]].
  - intros [|i] o; discriminate.
  - split; [constructor|]. intros k c; discriminate.
  - intros c [].
  - intros c [].
  - intros [|x l1] k c l2; discriminate.
  - intros [|x l1] c l2; discriminate.
Qed.

Lemma wf_state_activate opened projectPaths :
  wf_state (activate opened projectPaths).
Proof.
  unfold activate.
  destruct (handlePaths projectPaths
              (set_subscriptions
                 (subscriptions (set_workspace opened constructor) ++
                  [DPathsSubscription]) (set_workspace opened constructor)))
    as [s p] eqn:E.
  eapply wf_state_calm; [apply then_returned_calm|].
  change s with (fst (s, p)). rewrite <- E.
  apply wf_state_handlePaths.
  eapply wf_state_calm; [|apply wf_state_constructor]. calm_fields.
Qed.

Lemma wf_state_run es s : wf_state s -> wf_state (run es s).
Proof.
  revert s. induction es as [|e es IH]; simpl; intros s W; auto.
  apply IH. now apply wf_state_step.
Qed.

Lemma wf_state_reachable s : reachable s -> wf_state s.
Proof.
  intros (opened & paths & es & ->).
  apply wf_state_run, wf_state_activate.
Qed.

(** ** Connections and the linter *)

Lemma discard_live k c s :
  wf_state s -> JsMap.get string_dec k (connections s) = Some c ->
  log (discard k c s) =
    log s ++ [ConnectionDestroy (conn_id c); LinterUnregister (conn_id c);
              ConnectionsDelete k (conn_id c)] /\
  ~ In (conn_id c) (linter_registered (discard k c s)).
Proof.
  intros (H & (ND & M) & _) G.
  destruct (M _ _ G) as [P (o & E & Ec & Ed)].
  destruct (H _ _ E) as [Id Hs]. rewrite Ed in Hs. destruct Hs as [Hd Hm].
  rewrite Ec in Hd.
  unfold discard. rewrite (Connection_destroy_live _ _ _ E Ed Hd). simpl.
  split.
  - now rewrite <- app_assoc.
  - apply remove_In.
Qed.

(** C4: destroying a connection, as the removal of a path does, unregisters
    it from the linter before it is deleted from the map, and the linter
    gets no [setError] for a connection after its destruction: in the log
    of every reachable state each deletion from the map is directly
    preceded by the destruction and the unregistration of the connection,
    and no [setError] of a connection follows its destruction; a destroyed
    connection is not registered with the linter and its messages change
    nothing. *)
Theorem C4_unregistered_at_destruction :
  forall s, reachable s ->
    unregistered_before_discard (log s) /\
    silent_after_destroy (log s) /\
    (forall k c, JsMap.get string_dec k (connections s) = Some c ->
       log (discard k c s) =
         log s ++ [ConnectionDestroy (conn_id c); LinterUnregister (conn_id c);
                   ConnectionsDelete k (conn_id c)] /\
       ~ In (conn_id c) (linter_registered (discard k c s))) /\
    (forall c o, nth_error (heap s) c = Some o -> co_destroyed o = true ->
       ~ In c (linter_registered s) /\
       forall m, step s (MessageReceived c m) = s).
Proof.
  intros s R. pose proof (wf_state_reachable s R) as W.
  pose proof W as (H & M & D & Li & U & S).
  split; [exact U|]. split; [exact S|]. split.
  - intros k c G. now apply discard_live.
  - intros c o E Ed. split.
    + intros Hin. destruct (Li _ Hin) as (o' & E' & Ed'). congruence.
    + intros m. simpl. destruct (H _ _ E) as [_ Hs]. rewrite Ed in Hs.
      apply (dispatch_dead _ _ _ _ E). tauto.
Qed.

Lemma root_removed_reachable : reachable root_removed.
Proof.
  exists [], ["/root"], (connect 0 "/root" ++ [DidChangePaths []]).
  evaluate.
Qed.

Lemma C4_witness :
  log root_removed =
    [HandlePaths 0 ["/root"]; DidAddProject 0 "/root";
     ConnectionsSet "/root" 0; LinterRegister 0; HandlePaths 1 [];
     ConnectionDestroy 0; LinterUnregister 0; ConnectionsDelete "/root" 0] /\
  unregistered_before_discard (log root_removed) /\
  silent_after_destroy (log root_removed) /\
  step root_removed (MessageReceived 0 (CompileSuccessMsg "a.js")) =
    root_removed.
Proof.
  split; [evaluate|].
  destruct (C4_unregistered_at_destruction root_removed root_removed_reachable)
    as (U & S & _ & Dead).
  split; [exact U|]. split; [exact S|].
  apply (Dead 0 (mkConnObj root_connection true [] [])); evaluate.
Defined.

(** ** Compiler messages *)

Lemma live_dispatch s c m :
  wf_state s -> live s c ->
  step s (MessageReceived (conn_id c) m) =
  match m with
  | CompileErrorMsg error => on_compile_error c error s
  | FileMetaMsg file views => on_file_meta c file views s
  | CompileSuccessMsg path => on_compile_success c path s
  end.
Proof.
  intros (H & _) (o & E & Ec & Ed). simpl.
  destruct (H _ _ E) as [_ Hs]. rewrite Ed in Hs.
  rewrite (dispatch_live _ m _ _ E); [|tauto]. now rewrite Ec.
Qed.

Lemma to_double_exact (x : Z) : (Z.abs x <= 2 ^ 53)%Z -> to_double x = x.
Proof.
  intros H. unfold to_double.
  destruct (Z.eq_dec (Z.abs x) (2 ^ 53)) as [E|N].
  - rewrite E. destruct (Z.abs_eq_or_opp x) as [A|A]; rewrite A in E.
    + rewrite E. reflexivity.
    + assert (Ex : x = (- 2 ^ 53)%Z) by lia. rewrite Ex. reflexivity.
  - assert (L : (Z.log2 (Z.abs x) < 53)%Z).
    { destruct (Z.eq_dec (Z.abs x) 0) as [->|Nz]; [reflexivity|].
      apply Z.log2_lt_pow2; lia. }
    destruct (Z.leb_spec (Z.log2 (Z.abs x) - 52) 0); [reflexivity|lia].
Qed.

(** Beyond the safe integers the subtraction rounds, as it does on
    doubles. *)
Lemma number_sub_rounds :
  number_sub 9007199254740994 1 = 9007199254740992%Z.
Proof. reflexivity. Qed.

Lemma number_sub_safe (x : Z) :
  safe_integer x -> number_sub x 1 = (x - 1)%Z.
Proof.
  unfold safe_integer, number_sub. intros H. apply to_double_exact. lia.
Qed.

(** C5: a 'compile:error' message whose error has a [loc] with 1-based
    line and column, both safe integers, makes the handler push to the
    linter, for the connection that received it and the file of the
    error, a diagnostic of type 'Error' with that file path and the range
    [[line-1, column-1], [line-1, column]], and do nothing else. *)
Theorem C5_positioned_error_diagnostic :
  forall s c msg stack file ln col,
    reachable s -> live s c ->
    safe_integer ln -> safe_integer col ->
    let error := mkCompileError msg stack file (Some (mkLoc ln col)) in
    step s (MessageReceived (conn_id c) (CompileErrorMsg error)) =
    emit [LinterSetError (conn_id c) file
            (Some (mkDiagnostic "Error" (getMessage error) file
                     ((ln - 1, col - 1), (ln - 1, col))%Z))] s.
Proof.
  intros s c msg stack file ln col R L Sl Sc error.
  rewrite live_dispatch; auto; [|now apply wf_state_reachable].
  cbn [run_message_handler on_compile_error error err_loc line column
       err_fileName].
  now rewrite !number_sub_safe.
Qed.

Lemma root_connected_reachable : reachable root_connected.
Proof. exists [], ["/root"], (connect 0 "/root"). evaluate. Qed.

Lemma root_connection_live : live root_connected root_connection.
Proof.
  exists (mkConnObj root_connection false
            [UnregisterFromLinter root_connection]
            (handlers_of root_connection)).
  split; [evaluate|]. split; reflexivity.
Qed.

Lemma safe_integer_5 : safe_integer 5.
Proof. unfold safe_integer. simpl. lia. Qed.

Lemma safe_integer_3 : safe_integer 3.
Proof. unfold safe_integer. simpl. lia. Qed.

Lemma C5_witness :
  let error := mkCompileError "Unexpected token" "" "a.js"
                 (Some (mkLoc 5 3)) in
  step root_connected (MessageReceived 0 (CompileErrorMsg error)) =
  emit [LinterSetError 0 "a.js"
          (Some (mkDiagnostic "Error" (getMessage error) "a.js"
                   ((4, 2), (4, 3))%Z))] root_connected.
Proof.
  exact (C5_positioned_error_diagnostic root_connected root_connection
           "Unexpected token" "" "a.js" 5 3
           root_connected_reachable root_connection_live
           safe_integer_5 safe_integer_3).
Defined.

(** C6: a 'compile:error' message whose error has no [loc] makes the
    handler call [showError] once, with '[Compiler-Error] ' followed by the
    message, and the stack; nothing is pushed to the linter and nothing
    else changes. *)
Theorem C6_unpositioned_error_notification :
  forall s c msg stack file,
    reachable s -> live s c ->
    let error := mkCompileError msg stack file None in
    step s (MessageReceived (conn_id c) (CompileErrorMsg error)) =
    emit [ShowError ("[Compiler-Error] " ++ msg)%string stack] s.
Proof.
  intros s c msg stack file R L error.
  rewrite live_dispatch; auto. now apply wf_state_reachable.
Qed.

Lemma C6_witness :
  step root_connected
    (MessageReceived 0
       (CompileErrorMsg (mkCompileError "out of memory" "at compile" "a.js" None))) =
  emit [ShowError "[Compiler-Error] out of memory" "at compile"] root_connected.
Proof.
  exact (C6_unpositioned_error_notification root_connected root_connection
           "out of memory" "at compile" "a.js"
           root_connected_reachable root_connection_live).
Defined.

(** ** Documents *)

Lemma getConnectionByPath_loop_find p vals :
  getConnectionByPath_loop (Some p) vals =
  Normal (find (fun c => String.prefix (conn_path c) p) vals).
Proof.
  induction vals as [|c r IH]; simpl; [reflexivity|].
  destruct (String.prefix (conn_path c) p) eqn:E.
  - apply indexOf_zero_prefix in E. now rewrite E.
  - destruct (indexOf p (conn_path c)) as [[|n]|] eqn:I; auto.
    apply indexOf_zero_prefix in I. congruence.
Qed.

(** C9: [getConnectionByPath] compares by raw string prefix, with no check
    of a path separator after the root path, and returns the first match
    in the insertion order of the map: the result is the first connection,
    in the order of the map's values, whose root path is a prefix of the
    document path; a key that is new to the map is inserted last; a
    document at /rootother/x.js is matched by the connection rooted at
    /root and bound to it; of two nested projects /root and /root/sub the
    one inserted first wins for a document of /root/sub. *)
Theorem C9_raw_prefix_first_match :
  (forall s p,
     getConnectionByPath (Some p) s =
     Normal (find (fun c => String.prefix (conn_path c) p)
               (JsMap.values (connections s)))) /\
  (forall k (c : Connection) m,
     JsMap.has string_dec k m = true \/
     JsMap.values (JsMap.set string_dec k c m) = JsMap.values m ++ [c]) /\
  getConnectionByPath (Some "/rootother/x.js") root_connected =
    Normal (Some root_connection) /\
  editors (step root_connected (TextEditorOpened rootother_document)) =
    [(rootother_document, mkEditor rootother_document root_connection)] /\
  JsMap.keys (connections nested_connected) = ["/root"; "/root/sub"] /\
  getConnectionByPath (Some "/root/sub/x.js") nested_connected =
    Normal (Some root_connection).
Proof.
  split; [|split; [|repeat split]]; try evaluate.
  - intros s p. apply getConnectionByPath_loop_find.
  - intros k c m. destruct (JsMap.has string_dec k m) eqn:E; auto.
    right. now apply values_set_new.
Qed.



(** ** [this.config] *)

Lemma config_destroy c s : config (Connection_destroy c s) = config s.
Proof.
  unfold Connection_destroy.
  destruct (nth_error (heap s) (conn_id c)) as [o|]; auto.
  destruct (co_destroyed o); auto.
  assert (F : forall l s0, config (fold_left run_destroy_handler l s0) = config s0).
  { induction l as [|[x] l IH]; simpl; intros s0; auto. now rewrite IH. }
  now rewrite F.
Qed.

Lemma config_remove_deleted paths ks s :
  config (remove_deleted paths ks s) = config s.
Proof.
  revert s. induction ks as [|k ks IH]; simpl; intros s; auto.
  rewrite IH. destruct (array_lacks paths k); auto.
  destruct (JsMap.get string_dec k (connections s)); auto.
  unfold discard. simpl. apply config_destroy.
Qed.

Lemma config_calm s s' : calm s s' -> config s' = config s.
Proof. intros (_ & C & _). exact C. Qed.

Lemma config_handlePaths paths s : config (fst (handlePaths paths s)) = config s.
Proof.
  unfold handlePaths. simpl. rewrite config_remove_deleted.
  rewrite (config_calm _ _ (add_new_ones_calm _ _ _)). reflexivity.
Qed.

Lemma config_step s e : config (step s e) = config s.
Proof.
  destruct e as [paths|t r|t r|t r|c m|te|te]; simpl.
  - apply config_handlePaths.
  - unfold on_real_path.
    destruct (nth_error (tasks s) t) as [[b p []]|]; auto.
    destruct r; [reflexivity|apply config_calm, settle_calm].
  - unfold on_file_exists.
    destruct (nth_error (tasks s) t) as [[b p []]|]; auto.
    destruct r as [[]|]; [reflexivity| |]; apply config_calm, settle_calm.
  - unfold on_create.
    destruct (nth_error (tasks s) t) as [[b p []]|]; auto.
    destruct r as [baseDir|]; rewrite (config_calm _ _ (settle_calm _ _ _));
      reflexivity.
  - unfold dispatch. destruct (nth_error (heap s) c) as [o|]; auto.
    assert (F : forall l s0, config (fold_left (deliver m) l s0) = config s0).
    { induction l as [|[k h] l IH]; simpl; intros s0; auto. rewrite IH.
      unfold deliver. simpl. destruct (String.eqb k (kind_of m)); auto.
      destruct h, m; simpl; auto.
      - unfold on_compile_error. destruct (err_loc error); reflexivity.
      - unfold on_file_meta. destruct (getEditorByPath _ s0); reflexivity. }
    apply F.
  - apply config_calm, on_opened_calm.
  - apply config_calm, on_closed_calm.
Qed.

Lemma config_reachable s : reachable s -> config s = None.
Proof.
  intros (opened & paths & es & ->).
  assert (A : config (activate opened paths) = None).
  { unfold activate.
    destruct (handlePaths paths _) as [s p] eqn:E.
    rewrite (config_calm _ _ (then_returned_calm _ _ _)).
    change s with (fst (s, p)). rewrite <- E. now rewrite config_handlePaths. }
  revert A. generalize (activate opened paths).
  induction es as [|e es IH]; simpl; intros s A; auto.
  apply IH. now rewrite config_step.
Qed.

(** C10: [dispose()] throws a TypeError in every state of a Flint instance,
    before the editors map is cleared and before the subscriptions are
    disposed: [this.config], which the constructor does not set and no
    method assigns, is undefined. *)
Theorem C10_dispose_throws :
  config constructor = None /\
  dispose constructor = (Throw "TypeError", constructor) /\
  (forall s e, config (step s e) = config s) /\
  (forall s, reachable s -> dispose s = (Throw "TypeError", s)).
Proof.
  split; [reflexivity|]. split; [reflexivity|]. split; [exact config_step|].
  intros s R. unfold dispose. now rewrite (config_reachable s R).
Qed.

Lemma C10_witness :
  dispose root_connected = (Throw "TypeError", root_connected).
Proof.
  exact (proj2 (proj2 (proj2 C10_dispose_throws)) root_connected
           root_connected_reachable).
Defined.

(** ** The queue of path changes *)

(** C1: the second invocation of [handlePaths] does not wait for the
    first.  [pathsQueue] stays the promise that was fulfilled at
    activation, so the callback of a path change runs [handlePaths] at
    once in every state.  With the project /a still waiting for
    [realPath], a change to no project runs its removal over a map that
    does not hold /a yet; the connection of /a is registered afterwards
    and stays, although the last batch asked for no project. *)
Theorem C1_batches_interleave :
  (forall s paths, step s (DidChangePaths paths) = fst (handlePaths paths s)) /\
  settled_batch 0 overlapped = false /\
  log overlapped =
    [HandlePaths 0 ["/a"]; DidAddProject 0 "/a"; HandlePaths 1 []] /\
  log overlapped_settled =
    [HandlePaths 0 ["/a"]; DidAddProject 0 "/a"; HandlePaths 1 [];
     ConnectionsSet "/a" 0; LinterRegister 0] /\
  idle overlapped_settled = true /\
  last_paths overlapped_settled = [] /\
  JsMap.keys (connections overlapped_settled) = ["/a"].
Proof.
  split; [reflexivity|]. repeat split; evaluate.
Qed.

(** ** Failures of a creation *)

Lemma extends_refl P s : extends P s s.
Proof. exists []. now rewrite app_nil_r. Qed.

Ltac extends_fields :=
  exists []; simpl; rewrite ?app_nil_r; split; reflexivity.

Lemma extends_trans P s1 s2 s3 :
  extends P s1 s2 -> extends P s2 s3 -> extends P s1 s3.
Proof.
  intros (l1 & L1 & N1) (l2 & L2 & N2). exists (l1 ++ l2).
  rewrite L2, L1, app_assoc, forallb_app, N1, N2. auto.
Qed.

Lemma extends_fold P (A : Type) (f : Flint -> A -> Flint) (l : list A) :
  (forall s a, extends P s (f s a)) -> forall s, extends P s (fold_left f l s).
Proof.
  intros H. induction l as [|a l IH]; simpl; intros s.
  - apply extends_refl.
  - eapply extends_trans; [apply H|apply IH].
Qed.

Lemma on_text_editor_extends te s :
  extends from_observer s (on_text_editor te s).
Proof.
  unfold on_text_editor.
  destruct (getConnectionByPath (te_path te) s) as [[c|]|what].
  - exists [NewEditor (te_id te) (conn_id c)]. auto.
  - apply extends_refl.
  - exists [Thrown what]. auto.
Qed.

Lemma observe_existing_extends l :
  forall s, extends from_observer s (snd (observe_existing l s)).
Proof.
  induction l as [|te l IH]; simpl; intros s; [apply extends_refl|].
  destruct (getConnectionByPath (te_path te) s).
  - eapply extends_trans; [apply on_text_editor_extends|apply IH].
  - apply on_text_editor_extends.
Qed.

Lemma reactions_extends l s :
  extends from_observer s (fold_left run_reaction l s).
Proof.
  apply extends_fold. intros s0 []. simpl. unfold observe_workspace.
  pose proof (observe_existing_extends (workspace s0) s0) as H.
  destruct (observe_existing (workspace s0) s0) as [[] s1]; [|exact H].
  destruct H as (l0 & L & N). exists l0. auto.
Qed.

Lemma settle_fulfilled_extends t s :
  extends from_observer s (settle t Fulfilled s).
Proof.
  unfold settle. destruct (nth_error (tasks s) t) as [tk|];
    [|apply extends_refl].
  destruct (nth_error (batches (set_stage t (Settled Fulfilled) s)) (t_batch tk))
    as [bt|]; [|extends_fields].
  destruct (b_all bt); try extends_fields.
  destruct (Nat.eqb (b_remaining bt) 1); [|extends_fields].
  match goal with |- extends _ _ (fold_left _ _ ?s1) =>
    apply extends_trans with (s2 := s1);
      [extends_fields|apply reactions_extends] end.
Qed.

Lemma settle_stage t o s b p st :
  nth_error (tasks s) t = Some (mkTask b p st) ->
  nth_error (tasks (settle t o s)) t = Some (mkTask b p (Settled o)).
Proof.
  intros E. rewrite settle_tasks, nth_error_update_nth, Nat.eqb_refl, E.
  reflexivity.
Qed.

Lemma registry_calm s s' : calm s s' -> registry s' = registry s.
Proof. intros (R & _). exact R. Qed.

Lemma settle_rejected_returned t s b p st bt :
  nth_error (tasks s) t = Some (mkTask b p st) ->
  nth_error (batches s) b = Some bt ->
  exists bt', nth_error (batches (settle t Rejected s)) b = Some bt' /\
              returned bt' = Fulfilled.
Proof.
  intros E B. unfold settle. rewrite E. simpl. rewrite B.
  assert (R : forall l s0, batches (fold_left run_reaction l s0) = batches s0).
  { intros l s0. pose proof (reactions_work l s0) as H.
    unfold work in H. congruence. }
  destruct (b_all bt) eqn:A.
  - rewrite R. simpl. rewrite nth_error_update_nth, Nat.eqb_refl, B. simpl.
    eexists. split; [reflexivity|reflexivity].
  - exists bt. split; auto. unfold returned. now rewrite A.
  - exists bt. split; auto. unfold returned. now rewrite A.
Qed.

(** C7: a creation that fails does not propagate.  When the marker file
    is absent, the creation promise is fulfilled, no connection is
    created or registered and nothing is logged but what the observer of
    the workspace writes; when [Connection.create] rejects, the failure
    is logged, nothing is registered and the creation promise is
    fulfilled; when [realPath] rejects, the creation promise rejects and
    the promise [handlePaths] returned is fulfilled; and in no state is a
    promise returned by [handlePaths] rejected. *)
Theorem C7_creation_failure_contained :
  forall s t b p,
    (forall rp cfg,
       nth_error (tasks s) t = Some (mkTask b p (AwaitFileExists rp cfg)) ->
       let s' := step s (FileExistsSettled t (Some false)) in
       registry s' = registry s /\
       nth_error (tasks s') t = Some (mkTask b p (Settled Fulfilled)) /\
       extends from_observer s s') /\
    (forall rp cfg,
       nth_error (tasks s) t = Some (mkTask b p (AwaitCreate rp cfg)) ->
       let s' := step s (CreateSettled t None) in
       registry s' = registry s /\
       nth_error (tasks s') t = Some (mkTask b p (Settled Fulfilled)) /\
       In (ConsoleError "Flint channel creation failed") (log s')) /\
    (forall bt,
       nth_error (tasks s) t = Some (mkTask b p AwaitRealPath) ->
       nth_error (batches s) b = Some bt ->
       let s' := step s (RealPathSettled t None) in
       registry s' = registry s /\
       nth_error (tasks s') t = Some (mkTask b p (Settled Rejected)) /\
       exists bt', nth_error (batches s') b = Some bt' /\
                   returned bt' = Fulfilled) /\
    (forall bt, In bt (batches s) -> returned bt <> Rejected).
Proof.
  intros s t b p. split; [|split; [|split]].
  - intros rp cfg E. simpl. unfold on_file_exists. rewrite E.
    split; [apply registry_calm, settle_calm|].
    split; [now apply settle_stage with (st := AwaitFileExists rp cfg)|].
    apply settle_fulfilled_extends.
  - intros rp cfg E. simpl. unfold on_create. rewrite E.
    set (s1 := emit [ConsoleError "Flint channel creation failed"] s).
    split; [|split].
    + rewrite (registry_calm _ _ (settle_calm _ _ _)). reflexivity.
    + now apply settle_stage with (st := AwaitCreate rp cfg).
    + destruct (settle_calm t Fulfilled s1) as (_ & _ & l & L & _).
      rewrite L. apply in_or_app. left. apply in_or_app. right. now left.
  - intros bt E B. simpl. unfold on_real_path. rewrite E.
    split; [apply registry_calm, settle_calm|].
    split; [now apply settle_stage with (st := AwaitRealPath)|].
    now apply settle_rejected_returned
      with (p := p) (st := AwaitRealPath) (bt := bt).
  - intros bt _. unfold returned. destruct (b_all bt); discriminate.
Qed.

Lemma C7_witness :
  connections (step awaiting_fileExists (FileExistsSettled 0 (Some false))) = [] /\
  In (ConsoleError "Flint channel creation failed")
    (log (step awaiting_create (CreateSettled 0 None))) /\
  exists bt',
    nth_error (batches (step awaiting_realPath (RealPathSettled 0 None))) 0 =
      Some bt' /\ returned bt' = Fulfilled.
Proof.
  split; [|split].
  - destruct (C7_creation_failure_contained awaiting_fileExists 0 0 "/a")
      as (A & _).
    assert (E : nth_error (tasks awaiting_fileExists) 0 =
                Some (mkTask 0 "/a" (AwaitFileExists "/a" (configPath "/a"))))
      by evaluate.
    destruct (A "/a" (configPath "/a") E) as (R & _).
    pose proof (f_equal (fun r => fst (fst r)) R) as Ec.
    change (connections (step awaiting_fileExists
                           (FileExistsSettled 0 (Some false))) =
            connections awaiting_fileExists) in Ec.
    rewrite Ec. evaluate.
  - destruct (C7_creation_failure_contained awaiting_create 0 0 "/a")
      as (_ & A & _).
    assert (E : nth_error (tasks awaiting_create) 0 =
                Some (mkTask 0 "/a" (AwaitCreate "/a" (configPath "/a"))))
      by evaluate.
    exact (proj2 (proj2 (A "/a" (configPath "/a") E))).
  - destruct (C7_creation_failure_contained awaiting_realPath 0 0 "/a")
      as (_ & _ & A & _).
    assert (E : nth_error (tasks awaiting_realPath) 0 =
                Some (mkTask 0 "/a" AwaitRealPath)) by evaluate.
    assert (B : nth_error (batches awaiting_realPath) 0 =
                Some (mkBatch ["/a"] 1 Pending [ObserveWorkspace])) by evaluate.
    exact (proj2 (proj2 (A _ E B))).
Defined.

(** ** What [handlePaths] does to the registry and to the promises *)

Lemma connections_destroy c s :
  connections (Connection_destroy c s) = connections s.
Proof.
  unfold Connection_destroy.
  destruct (nth_error (heap s) (conn_id c)) as [o|]; auto.
  destruct (co_destroyed o); auto.
  assert (F : forall l s0,
             connections (fold_left run_destroy_handler l s0) = connections s0).
  { induction l as [|[x] l IH]; simpl; intros s0; auto. now rewrite IH. }
  now rewrite F.
Qed.

Lemma work_destroy c s : work (Connection_destroy c s) = work s.
Proof.
  unfold Connection_destroy.
  destruct (nth_error (heap s) (conn_id c)) as [o|]; auto.
  destruct (co_destroyed o); auto.
  assert (F : forall l s0,
             work (fold_left run_destroy_handler l s0) = work s0).
  { induction l as [|[x] l IH]; simpl; intros s0; auto. now rewrite IH. }
  now rewrite F.
Qed.

Lemma work_discard k c s : work (discard k c s) = work s.
Proof.
  unfold discard. pose proof (work_destroy c s) as H.
  unfold work in *. simpl. exact H.
Qed.

Lemma work_remove_deleted paths ks s :
  work (remove_deleted paths ks s) = work s.
Proof.
  revert s. induction ks as [|k ks IH]; simpl; intros s; auto.
  rewrite IH. destruct (array_lacks paths k); auto.
  destruct (JsMap.get string_dec k (connections s)); auto.
  apply work_discard.
Qed.

Lemma get_remove_deleted paths ks s k :
  JsMap.get string_dec k (connections (remove_deleted paths ks s)) =
  if existsb (String.eqb k) ks && array_lacks paths k then None
  else JsMap.get string_dec k (connections s).
Proof.
  revert s. induction ks as [|k0 ks IH]; simpl; intros s; auto.
  rewrite IH. clear IH.
  destruct (String.eqb_spec k k0) as [->|N]; simpl.
  - destruct (array_lacks paths k0) eqn:L.
    + rewrite andb_true_r. destruct (existsb (String.eqb k0) ks); auto.
      destruct (JsMap.get string_dec k0 (connections s)) eqn:G; auto.
      unfold discard. simpl. rewrite get_delete.
      destruct (string_dec k0 k0); congruence.
    + now rewrite andb_false_r.
  - destruct (existsb (String.eqb k) ks && array_lacks paths k); auto.
    destruct (array_lacks paths k0); auto.
    destruct (JsMap.get string_dec k0 (connections s)) eqn:G; auto.
    unfold discard. simpl. rewrite get_delete, connections_destroy.
    destruct (string_dec k k0); congruence.
Qed.

(** After the removal loop the map holds the keys it held that are among
    the paths. *)
Lemma keys_remove_deleted paths s k :
  In k (JsMap.keys
          (connections (remove_deleted paths (JsMap.keys (connections s)) s))) <->
  In k (JsMap.keys (connections s)) /\ In k paths.
Proof.
  split.
  - intros H. apply in_keys_get with (K_dec := string_dec) in H as [c G].
    rewrite get_remove_deleted in G.
    destruct (existsb _ _ && array_lacks paths k) eqn:E; [discriminate|].
    pose proof (get_in_keys _ _ string_dec _ _ _ G) as Hk. split; auto.
    apply andb_false_iff in E as [E|E].
    + exfalso. apply not_true_iff_false in E. apply E.
      apply existsb_exists. exists k. split; auto. apply String.eqb_refl.
    + now apply array_lacks_false.
  - intros [H P]. apply in_keys_get with (K_dec := string_dec) in H as [c G].
    apply get_in_keys with (K_dec := string_dec) (v := c).
    rewrite get_remove_deleted.
    apply array_lacks_false in P. now rewrite P, andb_false_r.
Qed.

Lemma add_new_ones_tasks b paths s :
  tasks (add_new_ones b paths s) =
  tasks s ++
  map (fun p => mkTask b p AwaitRealPath)
    (filter (fun p => negb (JsMap.has string_dec p (connections s))) paths).
Proof.
  revert s. induction paths as [|p r IH]; simpl; intros s.
  - now rewrite app_nil_r.
  - rewrite IH. destruct (JsMap.has string_dec p (connections s)); simpl; auto.
    now rewrite <- app_assoc.
Qed.

Lemma add_new_ones_batches b paths s :
  batches (add_new_ones b paths s) = batches s.
Proof.
  revert s. induction paths as [|p r IH]; simpl; intros s; auto.
  rewrite IH. destruct (JsMap.has string_dec p (connections s)); reflexivity.
Qed.

(** The state [handlePaths] leaves, field by field. *)
Lemma handlePaths_tasks paths s :
  tasks (fst (handlePaths paths s)) =
  tasks s ++
  map (fun p => mkTask (length (batches s)) p AwaitRealPath)
    (filter (fun p => negb (JsMap.has string_dec p (connections s))) paths).
Proof.
  unfold handlePaths. simpl.
  pose proof (work_remove_deleted paths
                (JsMap.keys (connections (add_new_ones (length (batches s)) paths
                                            (emit [HandlePaths (length (batches s)) paths] s))))
                (add_new_ones (length (batches s)) paths
                   (emit [HandlePaths (length (batches s)) paths] s))) as W.
  unfold work in W. injection W as -> _.
  now rewrite add_new_ones_tasks.
Qed.

Lemma handlePaths_batches paths s :
  exists n st,
    batches (fst (handlePaths paths s)) = batches s ++ [mkBatch paths n st []].
Proof.
  unfold handlePaths. simpl.
  match goal with |- context [remove_deleted ?p ?ks ?s1] =>
    pose proof (work_remove_deleted p ks s1) as W end.
  unfold work in W. injection W as _ ->.
  rewrite add_new_ones_batches. simpl. eauto.
Qed.

Lemma handlePaths_keys paths s k :
  In k (JsMap.keys (connections (fst (handlePaths paths s)))) <->
  In k (JsMap.keys (connections s)) /\ In k paths.
Proof.
  unfold handlePaths. simpl.
  set (s1 := add_new_ones _ _ _).
  assert (C : connections s1 = connections s).
  { destruct (add_new_ones_calm (length (batches s)) paths
                (emit [HandlePaths (length (batches s)) paths] s)) as [R _].
    injection R as Rc _ _. exact Rc. }
  rewrite keys_remove_deleted. now rewrite C.
Qed.

Lemma dispatch_frame c m s :
  registry (dispatch c m s) = registry s /\ work (dispatch c m s) = work s.
Proof.
  unfold dispatch. destruct (nth_error (heap s) c) as [o|]; auto.
  generalize (co_onMessage o). intros l. revert s.
  induction l as [|[k h] l IH]; simpl; intros s; auto.
  destruct (IH (deliver m s (k, h))) as [-> ->].
  unfold deliver. simpl. destruct (String.eqb k (kind_of m)); auto.
  destruct h, m; simpl; auto.
  - unfold on_compile_error. destruct (err_loc error); auto.
  - unfold on_file_meta. destruct (getEditorByPath _ s); auto.
Qed.

Lemma on_opened_work te s : work (on_opened te s) = work s.
Proof.
  unfold on_opened. destruct (observing _); auto.
  now rewrite on_text_editor_work.
Qed.

Lemma on_closed_work te s : work (on_closed te s) = work s.
Proof.
  unfold on_closed. destruct (JsMap.get _ _ _); reflexivity.
Qed.

Lemma nodupb_NoDup l : nodupb l = true -> NoDup l.
Proof.
  induction l as [|x r IH]; simpl; intros H; constructor.
  - apply andb_true_iff in H as [H _]. apply negb_true_iff in H.
    intros Hin. apply not_true_iff_false in H. apply H.
    apply existsb_exists. exists x. split; auto. apply String.eqb_refl.
  - apply IH. now apply andb_true_iff in H as [_ H].
Qed.

Lemma idle_not_pending s tk :
  idle s = true -> In tk (tasks s) -> pending tk = false.
Proof.
  unfold idle. rewrite forallb_forall. intros H Hin.
  apply H in Hin. now apply negb_true_iff in Hin.
Qed.

(** The state after [Connection.create] has been fulfilled for the
    creation promise [t]. *)
Lemma created_state t rp baseDir s :
  let c := mkConnection (length (heap s)) rp baseDir in
  let s' := settle t Fulfilled
              (handleConnection rp c
                 (set_heap (heap s ++ [mkConnObj c false [] []]) s)) in
  connections s' = JsMap.set string_dec rp c (connections s) /\
  heap s' =
    heap s ++ [mkConnObj c false [UnregisterFromLinter c] (handlers_of c)] /\
  tasks s' =
    update_nth t (fun tk => mkTask (t_batch tk) (t_path tk) (Settled Fulfilled))
      (tasks s) /\
  map b_paths (batches s') = map b_paths (batches s).
Proof.
  intros c s'. subst s'.
  rewrite (calm_connections _ _ (settle_calm _ _ _)).
  rewrite (calm_heap _ _ (settle_calm _ _ _)).
  rewrite settle_tasks, settle_batch_paths.
  rewrite handleConnection_fresh by reflexivity.
  repeat split; reflexivity.
Qed.

(** ** Creation promises, stage by stage *)

Lemma restaged_task t st l t' tk' :
  nth_error
    (update_nth t (fun tk => mkTask (t_batch tk) (t_path tk) st) l) t' =
    Some tk' ->
  (t' = t /\ exists tk, nth_error l t = Some tk /\
                        tk' = mkTask (t_batch tk) (t_path tk) st) \/
  (t' <> t /\ nth_error l t' = Some tk').
Proof.
  rewrite nth_error_update_nth. destruct (Nat.eqb t' t) eqn:Q.
  - apply Nat.eqb_eq in Q. subst t'.
    destruct (nth_error l t) as [tk|]; simpl; [|discriminate].
    intros [= <-]. left. eauto.
  - apply Nat.eqb_neq in Q. auto.
Qed.

Lemma live_get_discard k c s :
  wf_state s -> JsMap.get string_dec k (connections s) = Some c ->
  (forall c', live s c' ->
     JsMap.get string_dec (conn_path c') (connections s) = Some c') ->
  forall c', live (discard k c s) c' ->
    JsMap.get string_dec (conn_path c') (connections (discard k c s)) = Some c'.
Proof.
  intros (H & (ND & M) & _) G A c'.
  destruct (M _ _ G) as [P (o & E & Ec & Ed)].
  destruct (H _ _ E) as [Id Hs]. rewrite Ed in Hs. destruct Hs as [Hd Hm].
  rewrite Ec in Hd.
  unfold discard. rewrite (Connection_destroy_live _ _ _ E Ed Hd). simpl.
  intros (o' & E' & Ec' & Ed'). simpl in E'.
  rewrite nth_error_update_nth in E'.
  destruct (Nat.eqb (conn_id c') (conn_id c)) eqn:Q.
  - apply Nat.eqb_eq in Q. rewrite Q, E in E'. simpl in E'.
    injection E' as <-. discriminate.
  - assert (L : live s c') by (exists o'; auto).
    pose proof (A _ L) as Gm. rewrite get_delete.
    destruct (string_dec (conn_path c') k) as [Ek|]; auto.
    rewrite Ek, G in Gm. injection Gm as ->.
    now rewrite Nat.eqb_refl in Q.
Qed.

Lemma live_get_remove_deleted paths ks s :
  wf_state s ->
  (forall c, live s c ->
     JsMap.get string_dec (conn_path c) (connections s) = Some c) ->
  forall c, live (remove_deleted paths ks s) c ->
    JsMap.get string_dec (conn_path c)
      (connections (remove_deleted paths ks s)) = Some c.
Proof.
  revert s. induction ks as [|k ks IH]; simpl; intros s W A; auto.
  destruct (array_lacks paths k); [|now apply IH].
  destruct (JsMap.get string_dec k (connections s)) as [c0|] eqn:G;
    [|now apply IH].
  apply IH.
  - now apply wf_state_discard.
  - now apply live_get_discard.
Qed.

Lemma then_returned_work b r s :
  tasks (then_returned b r s) = tasks s.
Proof.
  unfold then_returned. destruct (nth_error (batches s) b) as [bt|]; auto.
  destruct (returned bt); auto. destruct r.
  exact (f_equal fst (observe_workspace_work s)).
Qed.


(** ** Convergence of the map *)

Lemma option_eqb_string x y : option_eqb String.eqb x y = true -> x = y.
Proof.
  destruct x, y; simpl; try discriminate; auto.
  intros H. apply String.eqb_eq in H. congruence.
Qed.

Lemma option_eqb_bool x y : option_eqb Bool.eqb x y = true -> x = y.
Proof.
  destruct x, y; simpl; try discriminate; auto.
  intros H. apply Bool.eqb_prop in H. congruence.
Qed.

Lemma last_paths_map s :
  last_paths s = hd [] (rev (map b_paths (batches s))).
Proof.
  unfold last_paths. rewrite <- map_rev. now destruct (rev (batches s)).
Qed.

Lemma same_batch_paths s s' :
  map b_paths (batches s') = map b_paths (batches s) ->
  last_paths s' = last_paths s /\ length (batches s') = length (batches s).
Proof.
  intros E. split.
  - now rewrite !last_paths_map, E.
  - rewrite <- (length_map b_paths (batches s')), E. apply length_map.
Qed.

Lemma closed_spec w paths :
  closed w paths = true ->
  forall p k, In p paths -> w_realPath w p = Some k -> w_realPath w k = Some k.
Proof.
  unfold closed. rewrite forallb_forall. intros H p k Hin E.
  apply H in Hin. rewrite E in Hin. now apply option_eqb_string.
Qed.

Lemma orderly_inv_frame w s s' :
  connections s' = connections s -> tasks s' = tasks s ->
  map b_paths (batches s') = map b_paths (batches s) ->
  orderly_inv w s -> orderly_inv w s'.
Proof.
  intros Ec Et Eb. destruct (same_batch_paths _ _ Eb) as [El En].
  unfold orderly_inv. now rewrite Ec, Et, El, En.
Qed.

Lemma orderly_inv_restage w t st s s' :
  (forall k, In k (JsMap.keys (connections s)) ->
             In k (JsMap.keys (connections s'))) ->
  (forall k, In k (JsMap.keys (connections s')) ->
             In k (JsMap.keys (connections s)) \/
             (w_realPath w k = Some k /\ connectable w (last_paths s) k)) ->
  map b_paths (batches s') = map b_paths (batches s) ->
  tasks s' =
    update_nth t (fun tk => mkTask (t_batch tk) (t_path tk) st) (tasks s) ->
  (forall tk, nth_error (tasks s) t = Some tk ->
     pending tk = true /\ stage_agrees w (t_path tk) st /\
     match st with
     | Settled _ =>
         forall k, w_realPath w (t_path tk) = Some k ->
                   w_fileExists w (configPath k) = true ->
                   w_create w k <> None ->
                   In k (JsMap.keys (connections s'))
     | _ => True
     end) ->
  orderly_inv w s -> orderly_inv w s'.
Proof.
  intros K1 K2 Eb Et Hst (A & B & C & D).
  destruct (same_batch_paths _ _ Eb) as [El En].
  unfold orderly_inv. rewrite El, En.
  split; [|split; [|split]]; auto.
  - intros k Hk. destruct (K2 _ Hk) as [Hk'|Hk']; auto.
  - intros p k Hp Er Ef Ecr.
    destruct (B p k Hp Er Ef Ecr) as [Hk|(t' & tk' & E' & P' & Ep)]; auto.
    destruct (Nat.eq_dec t' t) as [->|N].
    + destruct (Hst _ E') as (_ & _ & Ob).
      destruct st; try (right; exists t; eexists; rewrite Et, nth_error_update_nth,
                          Nat.eqb_refl, E'; simpl; repeat split; auto; fail).
      left. apply Ob; auto. congruence.
    + right. exists t', tk'. rewrite Et, nth_error_update_nth.
      apply Nat.eqb_neq in N. rewrite N. auto.
  - intros t' tk' E' P'. rewrite Et in E'.
    apply restaged_task in E' as [[-> (tk & E' & ->)]|[N E']].
    + destruct (Hst _ E') as (P0 & S0 & _).
      destruct (C _ _ E' P0) as (Hin & _ & Hb). simpl. auto.
    + now apply (C t').
Qed.

Lemma handlePaths_pending paths s t tk :
  idle s = true ->
  nth_error (tasks (fst (handlePaths paths s))) t = Some tk ->
  pending tk = true ->
  exists p, In p paths /\ JsMap.has string_dec p (connections s) = false /\
            tk = mkTask (length (batches s)) p AwaitRealPath.
Proof.
  intros I E P. rewrite handlePaths_tasks in E.
  destruct (Nat.lt_ge_cases t (length (tasks s))) as [Lt|Ge].
  - rewrite nth_error_app1 in E; auto. apply nth_error_In in E.
    rewrite (idle_not_pending s tk I E) in P. discriminate.
  - rewrite nth_error_app2, nth_error_map in E; auto.
    destruct (nth_error _ (t - length (tasks s))) as [p|] eqn:F;
      simpl in E; [|discriminate].
    injection E as <-. apply nth_error_In in F.
    apply filter_In in F as [Hin Hh]. apply negb_true_iff in Hh. eauto.
Qed.

Lemma handlePaths_last_paths paths s :
  last_paths (fst (handlePaths paths s)) = paths /\
  length (batches (fst (handlePaths paths s))) = length (batches s) + 1.
Proof.
  destruct (handlePaths_batches paths s) as (n & st & E).
  unfold last_paths. rewrite E, rev_app_distr, length_app. simpl. auto.
Qed.

Lemma orderly_inv_handlePaths w paths s :
  idle s = true -> closed w paths = true ->
  orderly_inv w s -> orderly_inv w (fst (handlePaths paths s)).
Proof.
  intros I Cl (A & B & C & D).
  destruct (handlePaths_last_paths paths s) as [El En].
  unfold orderly_inv. rewrite El, En.
  split; [|split; [|split]].
  - intros k Hk. apply handlePaths_keys in Hk as [Hk Hp].
    destruct (A _ Hk) as [Er ((p0 & _ & _ & Ef) & Ecr)].
    split; auto. split; auto. exists k. auto.
  - intros p k Hp Er Ef Ecr.
    destruct (JsMap.has string_dec p (connections s)) eqn:Hh.
    + left. apply has_true in Hh. destruct (A _ Hh) as [Er' _].
      assert (k = p) by congruence. subst k.
      apply handlePaths_keys. auto.
    + right.
      assert (F : In p (filter (fun p => negb (JsMap.has string_dec p (connections s)))
                          paths)).
      { apply filter_In. split; auto. now rewrite Hh. }
      apply In_nth_error in F as [n F].
      exists (length (tasks s) + n), (mkTask (length (batches s)) p AwaitRealPath).
      rewrite handlePaths_tasks, nth_error_app2 by lia.
      replace (length (tasks s) + n - length (tasks s)) with n by lia.
      rewrite nth_error_map, F. auto.
  - intros t tk E P.
    destruct (handlePaths_pending paths s t tk I E P) as (p & Hp & _ & ->).
    simpl. repeat split; auto.
  - now apply closed_spec.
Qed.

Lemma orderly_inv_settle w t o s :
  (forall tk, nth_error (tasks s) t = Some tk ->
     pending tk = true /\
     forall k, w_realPath w (t_path tk) = Some k ->
               w_fileExists w (configPath k) = true ->
               w_create w k <> None ->
               In k (JsMap.keys (connections s))) ->
  orderly_inv w s -> orderly_inv w (settle t o s).
Proof.
  intros H. pose proof (registry_calm _ _ (settle_calm t o s)) as R.
  injection R as Rc _ _.
  apply orderly_inv_restage with (t := t) (st := Settled o).
  - now rewrite Rc.
  - rewrite Rc. auto.
  - apply settle_batch_paths.
  - apply settle_tasks.
  - intros tk E. destruct (H _ E) as [P Ob]. rewrite Rc.
    split; auto. split; [exact I|auto].
Qed.

Lemma then_returned_batch_paths b r s :
  map b_paths (batches (then_returned b r s)) = map b_paths (batches s).
Proof.
  unfold then_returned. destruct (nth_error (batches s) b) as [bt|]; auto.
  destruct (returned bt); auto.
  - simpl. now rewrite map_update_nth.
  - destruct r.
    exact (f_equal (fun w => map b_paths (snd w)) (observe_workspace_work s)).
Qed.

Lemma orderly_inv_step w s e :
  orderly w s e = true -> orderly_inv w s -> orderly_inv w (step s e).
Proof.
  intros Ho Inv. unfold orderly in Ho. apply andb_true_iff in Ho as [Ag Ho].
  destruct e as [paths|t r|t r|t r|c m|te|te]; simpl.
  - apply andb_true_iff in Ho as [I Cl].
    now apply orderly_inv_handlePaths.
  - unfold on_real_path.
    destruct (nth_error (tasks s) t) as [[b p st]|] eqn:E; auto.
    destruct st; auto.
    simpl in Ag. rewrite E in Ag. simpl in Ag.
    apply option_eqb_string in Ag. destruct r as [rp|].
    + apply orderly_inv_restage
        with (s := s) (t := t) (st := AwaitFileExists rp (configPath rp)); auto.
      intros tk Etk. rewrite E in Etk. injection Etk as <-. simpl. auto.
    + apply orderly_inv_settle; auto.
      intros tk Etk. rewrite E in Etk. injection Etk as <-. simpl.
      split; auto. intros k Ek. congruence.
  - unfold on_file_exists.
    destruct (nth_error (tasks s) t) as [[b p st]|] eqn:E; auto.
    destruct st as [|rp cfg|rp cfg|o]; auto.
    simpl in Ag. rewrite E in Ag.
    apply option_eqb_bool in Ag. subst r.
    pose proof Inv as (A & B & C & D).
    destruct (C _ _ E eq_refl) as (Hp & (Er & ->) & Hb). simpl in Hp, Er.
    destruct (w_fileExists w (configPath rp)) eqn:Ex.
    + apply orderly_inv_restage
        with (s := s) (t := t) (st := AwaitCreate rp (configPath rp)); auto.
      intros tk Etk. rewrite E in Etk. injection Etk as <-. simpl. auto.
    + apply orderly_inv_settle; auto.
      intros tk Etk. rewrite E in Etk. injection Etk as <-. simpl.
      split; auto. intros k Ek Ef. congruence.
  - unfold on_create.
    destruct (nth_error (tasks s) t) as [[b p st]|] eqn:E; auto.
    destruct st as [|rp cfg|rp cfg|o]; auto.
    simpl in Ag. rewrite E in Ag.
    apply option_eqb_string in Ag. subst r.
    pose proof Inv as (A & B & C & D).
    destruct (C _ _ E eq_refl) as (Hp & (Er & -> & Ef) & Hb). simpl in Hp, Er.
    destruct (w_create w rp) as [baseDir|] eqn:Ecr.
    + destruct (created_state t rp baseDir s) as (Rc & _ & Et & Eb).
      set (c := mkConnection (length (heap s)) rp baseDir) in *.
      set (s1 := handleConnection rp c _) in *.
      assert (Keys : forall k, In k (JsMap.keys (connections (settle t Fulfilled s1))) <->
                               In k (JsMap.keys (connections s)) \/ k = rp).
      { intros k. rewrite Rc, keys_set.
        destruct (JsMap.has string_dec rp (connections s)) eqn:Hh.
        - apply has_true in Hh. split; auto. intros [H| ->]; auto.
        - rewrite in_app_iff. simpl. intuition congruence. }
      apply orderly_inv_restage with (s := s) (t := t) (st := Settled Fulfilled);
        auto.
      * intros k Hk. apply Keys. auto.
      * intros k Hk. apply Keys in Hk as [Hk| ->]; auto.
        right. split; [eapply D; eauto|].
        split; [exists p; auto|congruence].
      * intros tk Etk. rewrite E in Etk. injection Etk as <-. simpl.
        split; auto. split; [exact I|].
        intros k Ek _ _. apply Keys. right. congruence.
    + apply orderly_inv_settle.
      * intros tk Etk. simpl in Etk. rewrite E in Etk. injection Etk as <-. simpl.
        split; auto. intros k Ek _ N. exfalso. apply N. congruence.
      * now apply orderly_inv_frame with (s := s).
  - destruct (dispatch_frame c m s) as [R Wk].
    injection R as Rc _ _. injection Wk as Wt Wb.
    apply orderly_inv_frame with (s := s); auto. now rewrite Wb.
  - pose proof (registry_calm _ _ (on_opened_calm te s)) as R.
    pose proof (on_opened_work te s) as Wk.
    injection R as Rc _ _. injection Wk as Wt Wb.
    apply orderly_inv_frame with (s := s); auto. now rewrite Wb.
  - pose proof (registry_calm _ _ (on_closed_calm te s)) as R.
    pose proof (on_closed_work te s) as Wk.
    injection R as Rc _ _. injection Wk as Wt Wb.
    apply orderly_inv_frame with (s := s); auto. now rewrite Wb.
Qed.

Lemma orderly_inv_activate w opened paths :
  closed w paths = true -> orderly_inv w (activate opened paths).
Proof.
  intros Cl. unfold activate.
  set (s0 := set_subscriptions _ _).
  destruct (handlePaths paths s0) as [s p] eqn:E.
  pose proof (registry_calm _ _ (then_returned_calm p ObserveWorkspace s)) as R.
  injection R as Rc _ _.
  apply orderly_inv_frame with (s := s); auto.
  { apply then_returned_work. }
  { apply then_returned_batch_paths. }
  change s with (fst (s, p)). rewrite <- E.
  apply orderly_inv_handlePaths; auto.
  split; [|split; [|split]].
  - intros k [].
  - intros p0 k [].
  - intros [|t] tk G; discriminate.
  - intros p0 k [].
Qed.

Lemma orderly_inv_run w es s :
  always (orderly w) es s = true ->
  orderly_inv w s -> orderly_inv w (run es s).
Proof.
  revert s. induction es as [|e es IH]; simpl; intros s A Inv; auto.
  apply andb_true_iff in A as [A1 A2].
  apply IH; auto. now apply orderly_inv_step.
Qed.

(** C2 (as amended): in a world that does not change and where the
    canonical path of every path resolves to itself, for every sequence
    of path changes each of which arrives after the creation promises of
    the earlier batches have settled: once the creation promises of the
    last batch have settled, the keys of the connections map are exactly
    the canonical paths of the paths of the last batch that hold the
    marker file and to which a connection could be established. *)
Theorem C2_map_converges :
  forall w opened paths es,
    closed w paths = true ->
    always (orderly w) es (activate opened paths) = true ->
    let s := run es (activate opened paths) in
    settled_batch (length (batches s) - 1) s = true ->
    forall k, In k (JsMap.keys (connections s)) <->
              connectable w (last_paths s) k.
Proof.
  intros w opened paths es Cl A s St k.
  assert (Inv : orderly_inv w s).
  { apply orderly_inv_run; auto. now apply orderly_inv_activate. }
  destruct Inv as (Ia & Ib & Ic & Id). split.
  - intros Hk. now apply Ia.
  - intros ((p & Hp & Er & Ef) & Ecr).
    destruct (Ib p k Hp Er Ef Ecr) as [Hk|(t & tk & E & P & Ep)]; auto.
    exfalso. destruct (Ic _ _ E P) as (_ & _ & Hb).
    unfold settled_batch in St. rewrite forallb_forall in St.
    apply nth_error_In in E. apply St in E.
    replace (length (batches s) - 1) with (t_batch tk) in E by lia.
    rewrite Nat.eqb_refl, P in E. discriminate.
Qed.

Lemma C2_witness :
  In "/real"
    (JsMap.keys
       (connections
          (run [RealPathSettled 0 (Some "/real");
                FileExistsSettled 0 (Some true);
                CreateSettled 0 (Some "/real")]
             (activate [] ["/link"])))) <->
  connectable linked ["/link"] "/real".
Proof.
  apply (C2_map_converges linked [] ["/link"]
           [RealPathSettled 0 (Some "/real"); FileExistsSettled 0 (Some true);
            CreateSettled 0 (Some "/real")]); evaluate.
Defined.

(** The marker file is present and the transport cannot be established:
    the batch settles with an empty map. *)
Lemma C2_counterexample :
  ~ converges_to_marked refusing [] ["/a"]
      [RealPathSettled 0 (Some "/a"); FileExistsSettled 0 (Some true);
       CreateSettled 0 None].
Proof.
  intros H. unfold converges_to_marked in H.
  assert (A : always (agrees refusing)
                [RealPathSettled 0 (Some "/a"); FileExistsSettled 0 (Some true);
                 CreateSettled 0 None] (activate [] ["/a"]) = true) by evaluate.
  specialize (H A). clear A.
  match type of H with ?P -> _ => assert (S : P) by evaluate end.
  specialize (H S "/a"). clear S. destruct H as [_ H].
  assert (K : In "/a" []).
  { revert H. vm_compute. intros H. apply H. exists "/a".
    split; [now left|]. split; reflexivity. }
  destruct K.
Qed.

(** ** One live connection per canonical path *)

Lemma images_In w l k :
  In k (images w l) <-> exists p, In p l /\ w_realPath w p = Some k.
Proof.
  unfold images. rewrite in_flat_map. split.
  - intros (p & Hp & Hk). exists p. split; auto.
    destruct (w_realPath w p); [|destruct Hk].
    destruct Hk as [->|[]]. reflexivity.
  - intros (p & Hp & E). exists p. split; auto. rewrite E. now left.
Qed.

(** Two positions of a list with distinct images that resolve to one
    canonical path are the same position. *)
Lemma images_NoDup_nth w l i j p q k :
  NoDup (images w l) ->
  nth_error l i = Some p -> nth_error l j = Some q ->
  w_realPath w p = Some k -> w_realPath w q = Some k -> i = j.
Proof.
  revert i j. induction l as [|a r IH]; intros i j N Ei Ej Ep Eq.
  - destruct i; discriminate.
  - simpl in N. apply NoDup_app_remove_l in N as Nr.
    assert (Fresh : w_realPath w a = Some k -> ~ In k (images w r)).
    { intros Ea Hin. unfold images in N. simpl in N. rewrite Ea in N.
      simpl in N. inversion N; subst. tauto. }
    destruct i as [|i], j as [|j]; simpl in Ei, Ej; [reflexivity| | |].
    + injection Ei as ->. exfalso. apply (Fresh Ep).
      apply images_In. exists q. split; auto.
      eapply nth_error_In; eauto.
    + injection Ej as ->. exfalso. apply (Fresh Eq).
      apply images_In. exists p. split; auto.
      eapply nth_error_In; eauto.
    + f_equal. now apply IH.
Qed.

Lemma images_NoDup_filter w g l :
  NoDup (images w l) -> NoDup (images w (filter g l)).
Proof.
  induction l as [|a r IH]; simpl; auto.
  intros N. apply NoDup_app_remove_l in N as Nr.
  destruct (g a); auto.
  unfold images in *. simpl in *.
  destruct (w_realPath w a) as [k|]; simpl in *; auto.
  inversion N; subst. constructor; auto.
  intros Hin. apply H1.
  apply (images_In w) in Hin as (p & Hp & E).
  apply (images_In w). exists p. split; auto.
  apply filter_In in Hp. tauto.
Qed.

Lemma unique_inv_frame w s s' :
  connections s' = connections s -> heap s' = heap s -> tasks s' = tasks s ->
  unique_inv w s -> unique_inv w s'.
Proof.
  intros Ec Eh Et. unfold unique_inv, live. now rewrite Ec, Eh, Et.
Qed.

Lemma unique_inv_restage w t st s s' :
  connections s' = connections s -> heap s' = heap s ->
  tasks s' =
    update_nth t (fun tk => mkTask (t_batch tk) (t_path tk) st) (tasks s) ->
  (forall tk, nth_error (tasks s) t = Some tk -> pending tk = true) ->
  unique_inv w s -> unique_inv w s'.
Proof.
  intros Ec Eh Et Hst (A & B & C).
  assert (Old : forall t' tk',
             nth_error (tasks s') t' = Some tk' -> pending tk' = true ->
             exists tk, nth_error (tasks s) t' = Some tk /\ pending tk = true /\
                        t_path tk = t_path tk').
  { intros t' tk' E P. rewrite Et in E.
    apply restaged_task in E as [[-> (tk & E & ->)]|[N E]].
    - exists tk. simpl. auto.
    - exists tk'. auto. }
  split; [|split].
  - unfold live. rewrite Ec, Eh. exact A.
  - intros t' tk' k E P Er. destruct (Old _ _ E P) as (tk & E0 & P0 & Ep).
    rewrite Ec. apply (B t' tk k); auto. congruence.
  - intros t1 t2 tk1 tk2 k E1 E2 P1 P2 R1 R2.
    destruct (Old _ _ E1 P1) as (k1 & F1 & Q1 & S1).
    destruct (Old _ _ E2 P2) as (k2 & F2 & Q2 & S2).
    apply (C t1 t2 k1 k2 k); auto; congruence.
Qed.

Lemma unique_inv_settle w t o s :
  (forall tk, nth_error (tasks s) t = Some tk -> pending tk = true) ->
  unique_inv w s -> unique_inv w (settle t o s).
Proof.
  intros P.
  apply unique_inv_restage with (t := t) (st := Settled o); auto.
  - apply (calm_connections _ _ (settle_calm t o s)).
  - apply (calm_heap _ _ (settle_calm t o s)).
  - apply settle_tasks.
Qed.

Lemma unique_inv_created w t b p rp cfg baseDir s :
  unique_inv w s ->
  nth_error (tasks s) t = Some (mkTask b p (AwaitCreate rp cfg)) ->
  w_realPath w p = Some rp ->
  let c := mkConnection (length (heap s)) rp baseDir in
  unique_inv w
    (settle t Fulfilled
       (handleConnection rp c
          (set_heap (heap s ++ [mkConnObj c false [] []]) s))).
Proof.
  intros (A & B & C) E Er c.
  pose proof (B _ _ _ E eq_refl Er) as Nk.
  subst c. destruct (created_state t rp baseDir s) as (Rc & Rh & Et & _).
  split; [|split].
  - intros c' (o' & G & Gc & Gd). rewrite Rc, get_set. rewrite Rh in G.
    destruct (Nat.lt_ge_cases (conn_id c') (length (heap s))) as [Lt|Ge].
    + rewrite nth_error_app1 in G; auto.
      assert (L : live s c') by (exists o'; auto).
      pose proof (A _ L) as Gm.
      destruct (string_dec (conn_path c') rp) as [Ep|]; auto.
      exfalso. apply Nk. rewrite <- Ep. eapply get_in_keys; eauto.
    + rewrite nth_error_app2 in G; auto.
      destruct (conn_id c' - length (heap s)) as [|n]; simpl in G.
      * injection G as <-. simpl in Gc. subst c'. simpl.
        destruct (string_dec rp rp); congruence.
      * destruct n; discriminate.
  - intros t' tk' k G P Ek. rewrite Et in G.
    apply restaged_task in G as [[-> (tk & G & ->)]|[N G]]; [discriminate|].
    rewrite Rc, keys_set.
    destruct (JsMap.has string_dec rp (connections s)); [now apply (B t' tk')|].
    intros Hin. apply in_app_or in Hin as [Hin|[Hp|[]]].
    + now apply (B t' tk' k).
    + subst k. apply N.
      apply (C t' t tk' (mkTask b p (AwaitCreate rp cfg)) rp); auto.
  - intros t1 t2 tk1 tk2 k G1 G2 P1 P2 R1 R2. rewrite Et in G1, G2.
    apply restaged_task in G1 as [[-> (k1 & G1 & ->)]|[N1 G1]]; [discriminate|].
    apply restaged_task in G2 as [[-> (k2 & G2 & ->)]|[N2 G2]]; [discriminate|].
    apply (C t1 t2 tk1 tk2 k); auto.
Qed.

Lemma unique_inv_handlePaths w paths s :
  wf_state s -> idle s = true ->
  (forall k, In k (JsMap.keys (connections s)) -> w_realPath w k = Some k) ->
  NoDup (images w paths) ->
  unique_inv w s -> unique_inv w (fst (handlePaths paths s)).
Proof.
  intros W I Canon ND (A & B & C).
  pose proof (handlePaths_tasks paths s) as Et.
  set (fresh := filter _ paths) in Et.
  assert (New : forall t tk,
             nth_error (tasks (fst (handlePaths paths s))) t = Some tk ->
             pending tk = true ->
             length (tasks s) <= t /\
             exists p, nth_error fresh (t - length (tasks s)) = Some p /\
                       t_path tk = p).
  { intros t tk E P. rewrite Et in E.
    destruct (Nat.lt_ge_cases t (length (tasks s))) as [Lt|Ge].
    - rewrite nth_error_app1 in E; auto. apply nth_error_In in E.
      rewrite (idle_not_pending s tk I E) in P. discriminate.
    - split; auto. rewrite nth_error_app2, nth_error_map in E; auto.
      destruct (nth_error fresh (t - length (tasks s))) as [p|];
        simpl in E; [|discriminate].
      injection E as <-. eauto. }
  split; [|split].
  - unfold handlePaths. simpl.
    set (s1 := add_new_ones _ _ _).
    pose proof (add_new_ones_calm (length (batches s)) paths
                  (emit [HandlePaths (length (batches s)) paths] s)) as Ca.
    fold s1 in Ca.
    assert (W1 : wf_state s1).
    { eapply wf_state_calm; [exact Ca|].
      eapply wf_state_calm; [|exact W]. now apply calm_emit. }
    pose proof (calm_connections _ _ Ca) as Rc.
    pose proof (calm_heap _ _ Ca) as Rh. simpl in Rc, Rh.
    intros c L. apply live_get_remove_deleted; auto.
    unfold live. rewrite Rc, Rh. exact A.
  - intros t tk k E P Ek. destruct (New _ _ E P) as (_ & p & Ep & Etp).
    rewrite Etp in Ek.
    intros Hk. apply handlePaths_keys in Hk as [Hk Hp].
    apply nth_error_In in Ep. apply filter_In in Ep as [Hin Hh].
    apply negb_true_iff in Hh.
    assert (p = k).
    { apply In_nth_error in Hin as [i Ei]. apply In_nth_error in Hp as [j Ej].
      assert (i = j) by (eapply (images_NoDup_nth w paths); eauto).
      congruence. }
    subst p. apply (proj2 (has_true _ _ string_dec _ _)) in Hk. congruence.
  - intros t1 t2 tk1 tk2 k E1 E2 P1 P2 R1 R2.
    destruct (New _ _ E1 P1) as (G1 & p1 & F1 & T1).
    destruct (New _ _ E2 P2) as (G2 & p2 & F2 & T2).
    rewrite T1 in R1. rewrite T2 in R2.
    assert (NF : NoDup (images w fresh)) by now apply images_NoDup_filter.
    assert (Q : t1 - length (tasks s) = t2 - length (tasks s)).
    { eapply (images_NoDup_nth w fresh); eauto. }
    lia.
Qed.

Lemma unique_inv_step w s e :
  wf_state s -> orderly_inv w s -> separate w s e = true ->
  unique_inv w s -> unique_inv w (step s e).
Proof.
  intros W Oi Hs Inv. unfold separate in Hs.
  apply andb_true_iff in Hs as [Ho Hd]. unfold orderly in Ho.
  apply andb_true_iff in Ho as [Ag Ho].
  destruct e as [paths|t r|t r|t r|c m|te|te]; simpl.
  - apply andb_true_iff in Ho as [I Cl].
    apply unique_inv_handlePaths; auto.
    + intros k Hk. now apply Oi.
    + now apply nodupb_NoDup.
  - unfold on_real_path.
    destruct (nth_error (tasks s) t) as [[b p st]|] eqn:E; auto.
    destruct st; auto. destruct r as [rp|].
    + apply unique_inv_restage
        with (s := s) (t := t) (st := AwaitFileExists rp (configPath rp)); auto.
      intros tk Etk. rewrite E in Etk. now injection Etk as <-.
    + apply unique_inv_settle; auto.
      intros tk Etk. rewrite E in Etk. now injection Etk as <-.
  - unfold on_file_exists.
    destruct (nth_error (tasks s) t) as [[b p st]|] eqn:E; auto.
    destruct st as [|rp cfg|rp cfg|o]; auto.
    destruct r as [[]|].
    + apply unique_inv_restage
        with (s := s) (t := t) (st := AwaitCreate rp cfg); auto.
      intros tk Etk. rewrite E in Etk. now injection Etk as <-.
    + apply unique_inv_settle; auto.
      intros tk Etk. rewrite E in Etk. now injection Etk as <-.
    + apply unique_inv_settle; auto.
      intros tk Etk. rewrite E in Etk. now injection Etk as <-.
  - unfold on_create.
    destruct (nth_error (tasks s) t) as [[b p st]|] eqn:E; auto.
    destruct st as [|rp cfg|rp cfg|o]; auto.
    destruct r as [baseDir|].
    + destruct Oi as (_ & _ & Oc & _).
      destruct (Oc _ _ E eq_refl) as (_ & (Er & _) & _).
      now apply unique_inv_created with (b := b) (p := p) (cfg := cfg).
    + apply unique_inv_settle.
      * intros tk Etk. simpl in Etk. rewrite E in Etk. now injection Etk as <-.
      * now apply unique_inv_frame with (s := s).
  - destruct (dispatch_frame c m s) as [R Wk].
    injection R as Rc Rh _. injection Wk as Wt _.
    now apply unique_inv_frame with (s := s).
  - pose proof (on_opened_calm te s) as Ca.
    apply unique_inv_frame with (s := s); auto.
    + apply (calm_connections _ _ Ca).
    + apply (calm_heap _ _ Ca).
    + exact (f_equal fst (on_opened_work te s)).
  - pose proof (on_closed_calm te s) as Ca.
    apply unique_inv_frame with (s := s); auto.
    + apply (calm_connections _ _ Ca).
    + apply (calm_heap _ _ Ca).
    + exact (f_equal fst (on_closed_work te s)).
Qed.

Lemma unique_inv_activate w opened paths :
  nodupb (images w paths) = true -> unique_inv w (activate opened paths).
Proof.
  intros N. unfold activate.
  set (s0 := set_subscriptions _ _).
  destruct (handlePaths paths s0) as [s p] eqn:E.
  pose proof (then_returned_calm p ObserveWorkspace s) as Ca.
  apply unique_inv_frame with (s := s).
  { apply (calm_connections _ _ Ca). }
  { apply (calm_heap _ _ Ca). }
  { apply then_returned_work. }
  change s with (fst (s, p)). rewrite <- E.
  apply unique_inv_handlePaths.
  - eapply wf_state_calm; [|apply wf_state_constructor]. calm_fields.
  - reflexivity.
  - intros k [].
  - now apply nodupb_NoDup.
  - split; [|split].
    + intros c (o & G & _). destruct (conn_id c); discriminate.
    + intros [|t] tk k G; discriminate.
    + intros [|t1] t2 tk1 tk2 k G; discriminate.
Qed.

Lemma unique_inv_run w es s :
  wf_state s -> orderly_inv w s -> unique_inv w s ->
  always (separate w) es s = true -> unique_inv w (run es s).
Proof.
  revert s. induction es as [|e es IH]; simpl; intros s W Oi Inv A; auto.
  apply andb_true_iff in A as [A1 A2].
  assert (Ho : orderly w s e = true).
  { unfold separate in A1. now apply andb_true_iff in A1 as [A1 _]. }
  apply IH; auto.
  - now apply wf_state_step.
  - now apply orderly_inv_step.
  - now apply unique_inv_step.
Qed.

(** C3 (as amended): in every reachable state the map holds at most one
    connection per project path; and in a world that does not change and
    where canonical paths resolve to themselves, when every path change
    arrives after the creation promises of the earlier batches have
    settled and no two paths of one batch resolve to the same canonical
    path, no two live connections are bound to the same canonical path. *)
Theorem C3_one_connection_per_path :
  (forall s, reachable s -> NoDup (JsMap.keys (connections s))) /\
  (forall w opened paths es,
     closed w paths = true -> nodupb (images w paths) = true ->
     always (separate w) es (activate opened paths) = true ->
     one_live_per_path (run es (activate opened paths))).
Proof.
  split.
  - intros s R. apply wf_state_reachable in R. apply R.
  - intros w opened paths es Cl N A.
    assert (Inv : unique_inv w (run es (activate opened paths))).
    { apply unique_inv_run; auto.
      - apply wf_state_activate.
      - now apply orderly_inv_activate.
      - now apply unique_inv_activate. }
    destruct Inv as (L & _).
    intros c1 c2 L1 L2 E. apply L in L1, L2. congruence.
Qed.

Lemma C3_witness :
  NoDup (JsMap.keys (connections root_connected)) /\
  one_live_per_path (run relinked (activate [] ["/link"])).
Proof.
  split.
  - apply (proj1 C3_one_connection_per_path).
    exists [], ["/root"], (connect 0 "/root"). evaluate.
  - apply (proj2 C3_one_connection_per_path linked [] ["/link"] relinked);
      evaluate.
Defined.

(** Two paths of one batch that resolve to the same directory leave two
    live connections bound to it. *)
Lemma C3_counterexample :
  reachable aliased /\ ~ one_live_per_path aliased.
Proof.
  split.
  - exists [], ["/real"; "/link"],
      [RealPathSettled 0 (Some "/real"); FileExistsSettled 0 (Some true);
       CreateSettled 0 (Some "/real");
       RealPathSettled 1 (Some "/real"); FileExistsSettled 1 (Some true);
       CreateSettled 1 (Some "/real")].
    evaluate.
  - intros H.
    assert (E : mkConnection 0 "/real" "/real" = mkConnection 1 "/real" "/real").
    { apply H; [| |reflexivity].
      - exists (mkConnObj (mkConnection 0 "/real" "/real") false
                  [UnregisterFromLinter (mkConnection 0 "/real" "/real")]
                  (handlers_of (mkConnection 0 "/real" "/real"))).
        split; [evaluate|]. split; reflexivity.
      - exists (mkConnObj (mkConnection 1 "/real" "/real") false
                  [UnregisterFromLinter (mkConnection 1 "/real" "/real")]
                  (handlers_of (mkConnection 1 "/real" "/real"))).
        split; [evaluate|]. split; reflexivity. }
    discriminate.
Qed.

(** * Further properties of the class *)

(** ** What the registry side leaves alone *)

Lemma shell_destroy c s : shell (Connection_destroy c s) = shell s.
Proof.
  unfold Connection_destroy.
  destruct (nth_error (heap s) (conn_id c)) as [o|]; auto.
  destruct (co_destroyed o); auto.
  assert (F : forall l s0,
             shell (fold_left run_destroy_handler l s0) = shell s0).
  { induction l as [|[x] l IH]; simpl; intros s0; auto. now rewrite IH. }
  now rewrite F.
Qed.

Lemma shell_discard k c s : shell (discard k c s) = shell s.
Proof. exact (shell_destroy c s). Qed.

Lemma shell_remove_deleted paths ks s :
  shell (remove_deleted paths ks s) = shell s.
Proof.
  revert s. induction ks as [|k ks IH]; simpl; intros s; auto.
  rewrite IH. destruct (array_lacks paths k); auto.
  destruct (JsMap.get string_dec k (connections s)); auto.
  apply shell_discard.
Qed.

Lemma shell_add_new_ones b paths s : shell (add_new_ones b paths s) = shell s.
Proof.
  revert s. induction paths as [|p r IH]; simpl; intros s; auto.
  rewrite IH. destruct (JsMap.has string_dec p (connections s)); reflexivity.
Qed.

Lemma shell_handlePaths paths s : shell (fst (handlePaths paths s)) = shell s.
Proof.
  unfold handlePaths. cbn [fst].
  match goal with |- shell (set_batches _ ?s2) = _ =>
    change (shell s2 = shell s) end.
  now rewrite shell_remove_deleted, shell_add_new_ones.
Qed.

Lemma shell_dispatch c m s : shell (dispatch c m s) = shell s.
Proof.
  unfold dispatch. destruct (nth_error (heap s) c) as [o|]; auto.
  generalize (co_onMessage o). intros l. revert s.
  induction l as [|[k h] l IH]; simpl; intros s; auto.
  rewrite IH. unfold deliver. simpl. destruct (String.eqb k (kind_of m)); auto.
  destruct h, m; simpl; auto.
  - unfold on_compile_error. destruct (err_loc error); auto.
  - unfold on_file_meta. destruct (getEditorByPath _ s); auto.
Qed.

Lemma shell_handleConnection path c s :
  shell (handleConnection path c s) = shell s.
Proof. destruct s. reflexivity. Qed.

(** ** The editors map *)

(** A property of the editors map that binding and unbinding a document
    keep holds in every state of a run. *)
Lemma editors_reactions_ind (P : JsMap.t TextEditor Editor -> Prop) :
  (forall s te, P (editors s) -> P (editors (on_text_editor te s))) ->
  forall l s, P (editors s) -> P (editors (fold_left run_reaction l s)).
Proof.
  intros Hb. induction l as [|[] l IH]; simpl; intros s H; auto.
  apply IH. unfold observe_workspace.
  assert (F : forall ws s0, P (editors s0) ->
                P (editors (snd (observe_existing ws s0)))).
  { induction ws as [|te ws IHw]; simpl; intros s0 H0; auto.
    destruct (getConnectionByPath (te_path te) s0); simpl; auto. }
  specialize (F (workspace s) s H).
  destruct (observe_existing (workspace s) s) as [[] s1]; exact F.
Qed.

Lemma editors_settle_ind (P : JsMap.t TextEditor Editor -> Prop) :
  (forall s te, P (editors s) -> P (editors (on_text_editor te s))) ->
  forall t o s, P (editors s) -> P (editors (settle t o s)).
Proof.
  intros Hb t o s H. unfold settle.
  destruct (nth_error (tasks s) t) as [tk|]; auto.
  destruct (nth_error (batches (set_stage t (Settled o) s)) (t_batch tk))
    as [bt|]; auto.
  destruct (b_all bt); auto.
  destruct o; try (destruct (Nat.eqb (b_remaining bt) 1)); auto;
    apply editors_reactions_ind; auto.
Qed.

Lemma shell_editors s s' : shell s' = shell s -> editors s' = editors s.
Proof. intros H. now injection H. Qed.

Lemma editors_step_ind (P : JsMap.t TextEditor Editor -> Prop) :
  (forall s te, P (editors s) -> P (editors (on_text_editor te s))) ->
  (forall m te, P m -> P (JsMap.delete TextEditor_dec te m)) ->
  forall s e, P (editors s) -> P (editors (step s e)).
Proof.
  intros Hb Hd s e H. destruct e as [paths|t r|t r|t r|c m|te|te]; cbn [step].
  - change (P (editors (fst (handlePaths paths s)))).
    now rewrite (shell_editors _ _ (shell_handlePaths paths s)).
  - unfold on_real_path.
    destruct (nth_error (tasks s) t) as [[b p []]|]; auto.
    destruct r; auto. now apply editors_settle_ind.
  - unfold on_file_exists.
    destruct (nth_error (tasks s) t) as [[b p []]|]; auto.
    destruct r as [[]|]; auto; now apply editors_settle_ind.
  - unfold on_create.
    destruct (nth_error (tasks s) t) as [[b p []]|]; auto.
    destruct r as [baseDir|]; apply editors_settle_ind; auto.
  - now rewrite (shell_editors _ _ (shell_dispatch c m s)).
  - unfold on_opened. destruct (observing _); auto.
  - unfold on_closed.
    destruct (JsMap.get TextEditor_dec te _) as [ed|]; auto.
    unfold on_editor_destroyed. simpl. now apply Hd.
Qed.

Lemma editors_reachable_ind (P : JsMap.t TextEditor Editor -> Prop) :
  P [] ->
  (forall s te, P (editors s) -> P (editors (on_text_editor te s))) ->
  (forall m te, P m -> P (JsMap.delete TextEditor_dec te m)) ->
  forall s, reachable s -> P (editors s).
Proof.
  intros H0 Hb Hd s (opened & paths & es & ->).
  assert (A : P (editors (activate opened paths))).
  { unfold activate. destruct (handlePaths paths _) as [s p] eqn:E.
    assert (Hs : P (editors s)).
    { change s with (fst (s, p)). rewrite <- E.
      now rewrite (shell_editors _ _ (shell_handlePaths _ _)). }
    unfold then_returned. destruct (nth_error (batches s) p) as [bt|]; auto.
    destruct (returned bt); auto.
    apply (editors_reactions_ind P Hb [ObserveWorkspace] s Hs). }
  revert A. generalize (activate opened paths).
  induction es as [|e es IH]; simpl; intros s A; auto.
  apply IH. now apply editors_step_ind.
Qed.

Lemma in_values_get (m : JsMap.t string Connection) c :
  NoDup (JsMap.keys m) -> In c (JsMap.values m) ->
  exists k, JsMap.get string_dec k m = Some c.
Proof.
  induction m as [|[k0 c0] r IH]; simpl; [tauto|].
  intros N [->|Hin].
  - exists k0. destruct (string_dec k0 k0); congruence.
  - inversion N as [|? ? Nk Nr]; subst.
    destruct (IH Nr Hin) as [k G]. exists k.
    destruct (string_dec k k0) as [->|]; auto.
    exfalso. apply Nk. eapply get_in_keys; eauto.
Qed.

Lemma good_editors_bind s te :
  good_editors (editors s) -> good_editors (editors (on_text_editor te s)).
Proof.
  intros [N G]. unfold on_text_editor.
  destruct (getConnectionByPath (te_path te) s) as [[c|]|what];
    [|split; auto..].
  cbn [set_editors set_subscriptions emit editors]. split.
  - now apply NoDup_keys_set.
  - intros te' e. rewrite get_set.
    destruct (TextEditor_dec te' te) as [->|]; auto.
    now intros [= <-].
Qed.

Lemma good_editors_delete m te :
  good_editors m -> good_editors (JsMap.delete TextEditor_dec te m).
Proof.
  intros [N G]. split.
  - now apply NoDup_keys_delete.
  - intros te' e. rewrite get_delete.
    destruct (TextEditor_dec te' te); [discriminate|auto].
Qed.

Lemma good_editors_reachable s : reachable s -> good_editors (editors s).
Proof.
  apply editors_reachable_ind.
  - split; [constructor|]. intros te e; discriminate.
  - apply good_editors_bind.
  - apply good_editors_delete.
Qed.

Lemma root_bound_reachable : reachable root_bound.
Proof.
  exists [], ["/root"], (connect 0 "/root" ++ [TextEditorOpened root_document]).
  evaluate.
Qed.

Lemma root_bound_provides :
  on_should_provide_editor root_document root_bound = Some root_editor.
Proof. evaluate. Qed.

Lemma getEditorByPath_loop_find path m :
  getEditorByPath_loop path m =
  option_map snd (find (fun kv => has_path path (fst kv)) m).
Proof.
  induction m as [|[te e] r IH]; simpl; [reflexivity|].
  unfold has_path at 1. simpl.
  destruct (te_path te) as [p|]; [|exact IH].
  destruct (String.eqb p path); [reflexivity|exact IH].
Qed.

Lemma in_get (m : JsMap.t TextEditor Editor) te e :
  NoDup (JsMap.keys m) -> In (te, e) m ->
  JsMap.get TextEditor_dec te m = Some e.
Proof.
  induction m as [|[te0 e0] r IH]; simpl; [tauto|].
  intros N [[= -> ->]|Hin].
  - destruct (TextEditor_dec te te); congruence.
  - inversion N as [|? ? Nk Nr]; subst.
    destruct (TextEditor_dec te te0) as [->|]; auto.
    exfalso. apply Nk. apply in_map_iff. exists (te0, e). auto.
Qed.

(** X2: [getEditorByPath] returns the Editor of the first entry of the
    editors map, in insertion order, whose text editor has exactly the
    given path (an untitled text editor never matches), and [null] when
    no text editor of the map has that path; in a reachable state the
    Editor returned wraps a text editor with that path. *)
Theorem X2_getEditorByPath_exact_match :
  (forall s path,
     getEditorByPath path s =
     option_map snd (find (fun kv => has_path path (fst kv)) (editors s))) /\
  (forall s path e,
     reachable s -> getEditorByPath path s = Some e ->
     te_path (ed_textEditor e) = Some path /\
     JsMap.get TextEditor_dec (ed_textEditor e) (editors s) = Some e) /\
  (forall s path te e,
     getEditorByPath path s = None -> In (te, e) (editors s) ->
     te_path te <> Some path).
Proof.
  split; [|split].
  - intros s path. apply getEditorByPath_loop_find.
  - intros s path e R H. unfold getEditorByPath in H.
    rewrite getEditorByPath_loop_find in H.
    destruct (find _ _) as [[te e']|] eqn:F; [|discriminate].
    simpl in H. injection H as ->.
    apply find_some in F as [Hin Hp]. simpl in Hp.
    destruct (good_editors_reachable s R) as [N Good].
    pose proof (in_get _ _ _ N Hin) as G.
    pose proof (Good _ _ G) as Ew. subst te. split; auto.
    unfold has_path in Hp.
    destruct (te_path (ed_textEditor e)) as [p|]; [|discriminate].
    apply String.eqb_eq in Hp. congruence.
  - intros s path te e H Hin Ep. unfold getEditorByPath in H.
    rewrite getEditorByPath_loop_find in H.
    destruct (find _ _) as [kv|] eqn:F; [discriminate|].
    pose proof (find_none _ _ F (te, e) Hin) as Hp. simpl in Hp.
    unfold has_path in Hp. rewrite Ep, String.eqb_refl in Hp. discriminate.
Qed.

Lemma root_bound_finds :
  getEditorByPath "/root/src/x.js" root_bound = Some root_editor.
Proof. evaluate. Qed.

Lemma X2_witness :
  te_path (ed_textEditor root_editor) = Some "/root/src/x.js" /\
  JsMap.get TextEditor_dec (ed_textEditor root_editor) (editors root_bound) =
    Some root_editor.
Proof.
  apply (proj1 (proj2 X2_getEditorByPath_exact_match) root_bound
           "/root/src/x.js" root_editor root_bound_reachable).
  exact root_bound_finds.
Defined.

(** X3: a 'file:meta' message of a live connection is forwarded, as one
    [updateMeta(views)], to the Editor [getEditorByPath] finds for
    [path.join] of the base directory of the connection and the file of
    the message (the join normalises: the file ./src/x.js under /root is
    /root/src/x.js), whichever connection that Editor is bound to; when
    no bound document has that path the message changes nothing. *)
Theorem X3_file_meta_routed_by_path :
  forall s c file views,
    reachable s -> live s c ->
    step s (MessageReceived (conn_id c) (FileMetaMsg file views)) =
    match getEditorByPath (joinPath [conn_baseDir c; file]) s with
    | Some editor => emit [UpdateMeta (te_id (ed_textEditor editor)) views] s
    | None => s
    end.
Proof.
  intros s c file views R L.
  rewrite live_dispatch; auto. now apply wf_state_reachable.
Qed.

Lemma root_connection_bound_live : live root_bound root_connection.
Proof.
  exists (mkConnObj root_connection false
            [UnregisterFromLinter root_connection]
            (handlers_of root_connection)).
  split; [evaluate|]. split; reflexivity.
Qed.

Lemma root_bound_x_found :
  match getEditorByPath (joinPath [conn_baseDir root_connection; "./src/x.js"])
          root_bound with
  | Some editor =>
      emit [UpdateMeta (te_id (ed_textEditor editor)) "views"] root_bound
  | None => root_bound
  end = emit [UpdateMeta 7 "views"] root_bound.
Proof. evaluate. Qed.

Lemma X3_witness :
  step root_bound
    (MessageReceived (conn_id root_connection)
       (FileMetaMsg "./src/x.js" "views")) =
  emit [UpdateMeta 7 "views"] root_bound.
Proof.
  rewrite (X3_file_meta_routed_by_path root_bound root_connection
             "./src/x.js" "views" root_bound_reachable
             root_connection_bound_live).
  exact root_bound_x_found.
Defined.

(** X4: a 'compile:success' message of a live connection makes one call
    [setError(connection, path, null)] for the connection that received
    it and the path of the message, and changes nothing else. *)
Theorem X4_compile_success_clears :
  forall s c path,
    reachable s -> live s c ->
    step s (MessageReceived (conn_id c) (CompileSuccessMsg path)) =
    emit [LinterSetError (conn_id c) path None] s.
Proof.
  intros s c path R L.
  rewrite live_dispatch; auto. now apply wf_state_reachable.
Qed.

Lemma X4_witness :
  step root_connected (MessageReceived 0 (CompileSuccessMsg "a.js")) =
  emit [LinterSetError 0 "a.js" None] root_connected.
Proof.
  exact (X4_compile_success_clears root_connected root_connection "a.js"
           root_connected_reachable root_connection_live).
Defined.

(** X5: for a document without a path, [getConnectionByPath] returns
    [null] when the map holds no connection and throws a TypeError
    otherwise; either way the callback of the observer creates no Editor
    and subscribes nothing. *)
Theorem X5_untitled_document :
  forall s te,
    te_path te = None ->
    getConnectionByPath None s =
      match connections s with
      | [] => Normal None
      | _ :: _ => Throw "TypeError"
      end /\
    editors (on_text_editor te s) = editors s /\
    subscriptions (on_text_editor te s) = subscriptions s /\
    log (on_text_editor te s) =
      log s ++ match connections s with
               | [] => []
               | _ :: _ => [Thrown "TypeError"]
               end.
Proof.
  intros s te E. unfold on_text_editor, getConnectionByPath. rewrite E.
  destruct (connections s) as [|[k c] r]; simpl.
  - repeat split. now rewrite app_nil_r.
  - repeat split.
Qed.

Lemma X5_witness :
  editors (on_text_editor untitled_document root_connected) =
    editors root_connected /\
  subscriptions (on_text_editor untitled_document root_connected) =
    subscriptions root_connected.
Proof.
  destruct (X5_untitled_document root_connected untitled_document eq_refl)
    as (_ & A & B & _).
  split; [exact A|exact B].
Defined.

(** X6: the connection [getConnectionByPath] returns for a path is, in
    every reachable state, a live connection that the map holds under its
    own root path, and that root path is a prefix of the path given. *)
Theorem X6_matched_connection_is_live :
  forall s p c,
    reachable s ->
    getConnectionByPath (Some p) s = Normal (Some c) ->
    live s c /\
    JsMap.get string_dec (conn_path c) (connections s) = Some c /\
    String.prefix (conn_path c) p = true.
Proof.
  intros s p c R H. unfold getConnectionByPath in H.
  rewrite getConnectionByPath_loop_find in H. injection H as F.
  apply find_some in F as [Hin Hp].
  destruct (wf_state_reachable s R) as (_ & (N & M) & _).
  destruct (in_values_get _ _ N Hin) as [k G].
  destruct (M _ _ G) as [Ek L]. subst k. auto.
Qed.

Lemma root_connected_matches :
  getConnectionByPath (Some "/root/src/x.js") root_connected =
    Normal (Some root_connection).
Proof. evaluate. Qed.

Lemma X6_witness :
  live root_connected root_connection /\
  JsMap.get string_dec (conn_path root_connection)
    (connections root_connected) = Some root_connection /\
  String.prefix (conn_path root_connection) "/root/src/x.js" = true.
Proof.
  apply (X6_matched_connection_is_live root_connected "/root/src/x.js"
           root_connection root_connected_reachable).
  exact root_connected_matches.
Defined.

(** ** One [handlePaths], in closed form *)

Lemma get_app_fresh (m1 m2 : JsMap.t string Connection) k c :
  ~ In k (JsMap.keys m1) ->
  JsMap.get string_dec k (m1 ++ (k, c) :: m2) = Some c.
Proof.
  induction m1 as [|[k0 c0] r IH]; simpl; intros N.
  - destruct (string_dec k k); congruence.
  - destruct (string_dec k k0) as [->|]; [tauto|]. apply IH. tauto.
Qed.

Lemma delete_absent (m : JsMap.t string Connection) k :
  ~ In k (JsMap.keys m) -> JsMap.delete string_dec k m = m.
Proof.
  induction m as [|[k0 c0] r IH]; simpl; intros N; auto.
  destruct (string_dec k k0) as [->|]; [tauto|]. rewrite IH; tauto.
Qed.

Lemma delete_app_fresh (m1 m2 : JsMap.t string Connection) k c :
  ~ In k (JsMap.keys m1) -> ~ In k (JsMap.keys m2) ->
  JsMap.delete string_dec k (m1 ++ (k, c) :: m2) = m1 ++ m2.
Proof.
  induction m1 as [|[k0 c0] r IH]; simpl; intros N1 N2.
  - destruct (string_dec k k); [|congruence]. now apply delete_absent.
  - destruct (string_dec k k0) as [->|]; [tauto|]. rewrite IH; tauto.
Qed.

Lemma remove_deleted_exact paths rest :
  forall pre s,
    wf_state s -> connections s = pre ++ rest ->
    let s' := remove_deleted paths (JsMap.keys rest) s in
    connections s' = pre ++ kept paths rest /\
    log s' = log s ++ removal_log paths rest /\
    wf_state s'.
Proof.
  induction rest as [|[k c] rest IH]; intros pre s W E; simpl.
  - rewrite !app_nil_r in *. auto.
  - assert (N : NoDup (JsMap.keys (pre ++ (k, c) :: rest))).
    { rewrite <- E. apply W. }
    unfold JsMap.keys in N. rewrite map_app in N. simpl in N.
    apply NoDup_remove in N as [N Nk].
    assert (Nk1 : ~ In k (JsMap.keys pre)).
    { intros H. apply Nk. apply in_or_app. now left. }
    assert (Nk2 : ~ In k (JsMap.keys rest)).
    { intros H. apply Nk. apply in_or_app. now right. }
    destruct (array_lacks paths k) eqn:L; simpl.
    + assert (G : JsMap.get string_dec k (connections s) = Some c).
      { rewrite E. now apply get_app_fresh. }
      rewrite G.
      destruct (IH pre (discard k c s)) as (Ec & El & W').
      * now apply wf_state_discard.
      * unfold discard. simpl. rewrite connections_destroy, E.
        now apply delete_app_fresh.
      * split; [exact Ec|]. split; [|exact W'].
        rewrite El. destruct (discard_live k c s W G) as [-> _].
        now rewrite <- app_assoc.
    + destruct (IH (pre ++ [(k, c)]) s) as (Ec & El & W'); auto.
      * now rewrite <- app_assoc.
      * rewrite <- app_assoc in Ec. auto.
Qed.

Lemma add_new_ones_log b paths s :
  log (add_new_ones b paths s) =
  log s ++ map (DidAddProject b) (new_paths paths s).
Proof.
  unfold new_paths. revert s.
  induction paths as [|p r IH]; simpl; intros s.
  - now rewrite app_nil_r.
  - rewrite IH. destruct (JsMap.has string_dec p (connections s)); simpl; auto.
    now rewrite <- app_assoc.
Qed.

Lemma handlePaths_batch paths s :
  batches (fst (handlePaths paths s)) =
  batches s ++
  [mkBatch paths (length (new_paths paths s))
     (match new_paths paths s with [] => Fulfilled | _ :: _ => Pending end) []].
Proof.
  pose proof (handlePaths_tasks paths s) as Et.
  unfold handlePaths in *. cbn [fst] in *.
  match goal with |- context [remove_deleted ?p ?ks ?s1] =>
    pose proof (work_remove_deleted p ks s1) as W;
    set (s2 := remove_deleted p ks s1) in * end.
  assert (Eb : batches s2 = batches s).
  { pose proof (f_equal snd W) as Wb. cbn [work snd] in Wb. rewrite Wb.
    now rewrite add_new_ones_batches. }
  change (batches s2 ++
          [mkBatch paths (length (tasks s2) - length (tasks s))
             (match length (tasks s2) - length (tasks s) with
              | O => Fulfilled | S _ => Pending end) []] =
          batches s ++
          [mkBatch paths (length (new_paths paths s))
             (match new_paths paths s with [] => Fulfilled | _ :: _ => Pending end)
             []]).
  change (tasks s2 =
          tasks s ++ map (fun p => mkTask (length (batches s)) p AwaitRealPath)
                       (new_paths paths s)) in Et.
  rewrite Eb, Et, length_app, length_map.
  replace (length (tasks s) + length (new_paths paths s) - length (tasks s))
    with (length (new_paths paths s)) by lia.
  now destruct (new_paths paths s).
Qed.

Lemma handlePaths_exact paths s :
  wf_state s ->
  let s' := fst (handlePaths paths s) in
  connections s' = kept paths (connections s) /\
  log s' =
    log s ++
    HandlePaths (length (batches s)) paths ::
    map (DidAddProject (length (batches s))) (new_paths paths s) ++
    removal_log paths (connections s).
Proof.
  intros W. unfold handlePaths. cbn [fst].
  set (b := length (batches s)).
  set (s1 := add_new_ones b paths (emit [HandlePaths b paths] s)).
  pose proof (add_new_ones_calm b paths (emit [HandlePaths b paths] s)) as Ca.
  fold s1 in Ca.
  assert (W1 : wf_state s1).
  { eapply wf_state_calm; [exact Ca|].
    eapply wf_state_calm; [|exact W]. now apply calm_emit. }
  pose proof (calm_connections _ _ Ca) as Ec. cbn [emit connections] in Ec.
  destruct (remove_deleted_exact paths (connections s1) [] s1 W1 eq_refl)
    as (Rc & Rl & _).
  change (connections (remove_deleted paths (JsMap.keys (connections s1)) s1) =
          kept paths (connections s) /\
          log (remove_deleted paths (JsMap.keys (connections s1)) s1) =
          log s ++ HandlePaths b paths ::
          map (DidAddProject b) (new_paths paths s) ++
          removal_log paths (connections s)).
  rewrite Rc, Rl, Ec. split; [reflexivity|].
  unfold s1. rewrite add_new_ones_log. cbn [emit log].
  unfold new_paths. cbn [connections].
  rewrite <- !app_assoc. reflexivity.
Qed.

Lemma in_get_connection (m : JsMap.t string Connection) k c :
  NoDup (JsMap.keys m) -> In (k, c) m ->
  JsMap.get string_dec k m = Some c.
Proof.
  induction m as [|[k0 c0] r IH]; simpl; [tauto|].
  intros N [E|I].
  - inversion E; subst. destruct (string_dec k k); congruence.
  - inversion N; subst. destruct (string_dec k k0) as [->|]; auto.
    exfalso. apply H1. change (In (fst (k0, c)) (map fst r)).
    now apply in_map.
Qed.

Lemma get_in_connection (m : JsMap.t string Connection) k c :
  JsMap.get string_dec k m = Some c -> In (k, c) m.
Proof.
  induction m as [|[k0 c0] r IH]; simpl; [discriminate|].
  destruct (string_dec k k0) as [->|]; auto.
  intros E. inversion E. auto.
Qed.

Lemma step_did_change_paths s paths :
  step s (DidChangePaths paths) = fst (handlePaths paths s).
Proof. reflexivity. Qed.

Lemma removal_log_destroys paths m k c :
  In (k, c) m -> ~ In k paths ->
  In (ConnectionDestroy (conn_id c)) (removal_log paths m).
Proof.
  intros I N. unfold removal_log. apply in_flat_map.
  exists (k, c). split; [exact I|]. cbn [fst snd].
  destruct (array_lacks paths k) eqn:L; [now left|].
  apply array_lacks_false in L. tauto.
Qed.

(** X7: One call of [handlePaths], made in a reachable state, leaves in
    the map exactly the entries whose key is among the given paths, in
    their old order, and writes to the log, after its own entry and one
    'did-add-project' per new path, exactly one destruction, one
    unregistration and one deletion for every entry it drops, in the order
    of the map. *)
Theorem X7_handlePaths_keeps_the_listed_roots (s : Flint) (paths : list string) :
  reachable s ->
  let s' := step s (DidChangePaths paths) in
  connections s' = kept paths (connections s) /\
  log s' =
    log s ++
    HandlePaths (length (batches s)) paths ::
    map (DidAddProject (length (batches s))) (new_paths paths s) ++
    removal_log paths (connections s).
Proof.
  intros R. rewrite step_did_change_paths.
  apply handlePaths_exact. now apply wf_state_reachable.
Qed.

Lemma X7_witness :
  reachable root_connected /\
  let s' := step root_connected (DidChangePaths []) in
  connections s' = kept [] (connections root_connected) /\
  log s' =
    log root_connected ++
    HandlePaths (length (batches root_connected)) [] ::
    map (DidAddProject (length (batches root_connected)))
      (new_paths [] root_connected) ++
    removal_log [] (connections root_connected).
Proof.
  split; [exact root_connected_reachable|].
  exact (X7_handlePaths_keeps_the_listed_roots root_connected []
           root_connected_reachable).
Defined.

Lemma kept_NoDup paths (m : JsMap.t string Connection) :
  NoDup (JsMap.keys m) -> NoDup (JsMap.keys (kept paths m)).
Proof.
  induction m as [|[k0 c0] r IH]; simpl; intros N; [constructor|].
  inversion N; subst.
  destruct (array_lacks paths k0); simpl; auto.
  constructor; auto. intros H. apply H1.
  unfold JsMap.keys in *. apply in_map_iff in H as ((k1 & c1) & E & H).
  apply filter_In in H as [H _]. simpl in E. subst.
  change (In (fst (k0, c1)) (map fst r)). now apply in_map.
Qed.

Lemma listed_connection_stays s paths k c :
  wf_state s ->
  JsMap.get string_dec k (connections s) = Some c ->
  In k paths ->
  let s' := fst (handlePaths paths s) in
  JsMap.get string_dec k (connections s') = Some c /\ live s' c.
Proof.
  intros W G P s'.
  pose proof (wf_state_handlePaths paths s W) as W'. fold s' in W'.
  destruct (handlePaths_exact paths s W) as [Ec _]. fold s' in Ec.
  assert (G' : JsMap.get string_dec k (connections s') = Some c).
  { rewrite Ec. apply in_get_connection.
    - apply kept_NoDup. apply W.
    - apply filter_In. split; [now apply get_in_connection|]. cbn [fst].
      apply array_lacks_false in P. now rewrite P. }
  split; [exact G'|].
  destruct W' as (_ & (_ & M) & _). now apply (M k c).
Qed.

Lemma unlisted_connection_goes s paths k c :
  wf_state s ->
  JsMap.get string_dec k (connections s) = Some c ->
  ~ In k paths ->
  let s' := fst (handlePaths paths s) in
  JsMap.get string_dec k (connections s') = None /\
  ~ live s' c /\
  ~ In (conn_id c) (linter_registered s').
Proof.
  intros W G P s'.
  pose proof (wf_state_handlePaths paths s W) as W'. fold s' in W'.
  destruct (handlePaths_exact paths s W) as [Ec El]. fold s' in Ec, El.
  assert (D : exists o, nth_error (heap s') (conn_id c) = Some o /\
                        co_destroyed o = true).
  { destruct W' as (_ & _ & D & _). apply D. rewrite El.
    apply in_or_app. right. right. apply in_or_app. right.
    apply removal_log_destroys with (k := k); [|exact P].
    now apply get_in_connection. }
  destruct D as (o & Eo & Do).
  split; [|split].
  - destruct (JsMap.get string_dec k (connections s')) as [c'|] eqn:G';
      [|reflexivity].
    exfalso. rewrite Ec in G'. apply get_in_connection in G'.
    apply filter_In in G' as [_ G']. cbn [fst] in G'.
    apply negb_true_iff, array_lacks_false in G'. tauto.
  - intros (o' & Eo' & _ & Do'). congruence.
  - intros L. destruct W' as (_ & _ & _ & WL & _).
    destruct (WL _ L) as (o' & Eo' & Do'). congruence.
Qed.

(** X8: After a call of [handlePaths] made in a reachable state, a
    connection of the map whose key is among the given paths is still in
    the map and live; one whose key is not among them is destroyed, no
    longer registered with the linter, and its key is free. *)
Theorem X8_handlePaths_destroys_the_others
    (s : Flint) (paths : list string) (k : string) (c : Connection) :
  reachable s ->
  JsMap.get string_dec k (connections s) = Some c ->
  let s' := step s (DidChangePaths paths) in
  (In k paths ->
     JsMap.get string_dec k (connections s') = Some c /\ live s' c) /\
  (~ In k paths ->
     JsMap.get string_dec k (connections s') = None /\
     ~ live s' c /\
     ~ In (conn_id c) (linter_registered s')).
Proof.
  intros R G s'. unfold s'. rewrite step_did_change_paths.
  pose proof (wf_state_reachable s R) as W. split; intros P.
  - now apply listed_connection_stays.
  - now apply unlisted_connection_goes.
Qed.

Lemma root_connected_get :
  JsMap.get string_dec "/root" (connections root_connected) =
  Some root_connection.
Proof. evaluate. Qed.

Lemma X8_witness :
  reachable root_connected /\
  JsMap.get string_dec "/root" (connections root_connected) =
    Some root_connection /\
  let s' := step root_connected (DidChangePaths []) in
  (In "/root" [] ->
     JsMap.get string_dec "/root" (connections s') = Some root_connection /\
     live s' root_connection) /\
  (~ In "/root" [] ->
     JsMap.get string_dec "/root" (connections s') = None /\
     ~ live s' root_connection /\
     ~ In (conn_id root_connection) (linter_registered s')).
Proof.
  split; [exact root_connected_reachable|].
  split; [exact root_connected_get|].
  exact (X8_handlePaths_destroys_the_others root_connected [] "/root"
           root_connection root_connected_reachable root_connected_get).
Defined.

(** X9: A call of [handlePaths] starts one creation for every occurrence,
    in the given list, of a path that is not a key of the map (a path
    given twice starts two), all of them in the batch of this call; the
    promise it returns is fulfilled at once exactly when there is no such
    path. *)
Theorem X9_one_creation_per_new_path (s : Flint) (paths : list string) :
  let s' := fst (handlePaths paths s) in
  let b := snd (handlePaths paths s) in
  b = length (batches s) /\
  tasks s' =
    tasks s ++ map (fun p => mkTask b p AwaitRealPath) (new_paths paths s) /\
  (exists bt,
     batches s' = batches s ++ [bt] /\
     b_paths bt = paths /\
     b_remaining bt = length (new_paths paths s) /\
     (returned bt = Fulfilled <-> new_paths paths s = [])).
Proof.
  intros s' b. split; [reflexivity|]. split.
  - exact (handlePaths_tasks paths s).
  - eexists. split; [apply handlePaths_batch|].
    split; [reflexivity|]. split; [reflexivity|].
    destruct (new_paths paths s); simpl; split; try discriminate; auto.
Qed.

Lemma add_new_ones_known b paths s :
  (forall p, In p paths -> In p (JsMap.keys (connections s))) ->
  add_new_ones b paths s = s.
Proof.
  induction paths as [|p r IH]; simpl; intros H; [reflexivity|].
  assert (Hp : JsMap.has string_dec p (connections s) = true).
  { apply (proj2 (has_true _ _ string_dec _ _)). apply H. now left. }
  rewrite Hp. apply IH. intros q Q. apply H. now right.
Qed.

Lemma remove_deleted_listed paths ks s :
  (forall k, In k ks -> In k paths) ->
  remove_deleted paths ks s = s.
Proof.
  induction ks as [|k r IH]; simpl; intros H; [reflexivity|].
  assert (L : array_lacks paths k = false).
  { apply array_lacks_false. apply H. now left. }
  rewrite L. apply IH. intros q Q. apply H. now right.
Qed.

(** X10: A call of [handlePaths] with paths that are all keys of the map,
    and among which every key of the map is, changes nothing but the log
    and the list of batches: it emits no 'did-add-project', destroys no
    connection, and returns a promise that is already fulfilled. *)
Theorem X10_handlePaths_same_roots (s : Flint) (paths : list string) :
  forallb (fun p => JsMap.has string_dec p (connections s)) paths = true ->
  forallb (fun k => negb (array_lacks paths k)) (JsMap.keys (connections s))
    = true ->
  fst (handlePaths paths s) =
    set_batches (batches s ++ [mkBatch paths 0 Fulfilled []])
      (emit [HandlePaths (length (batches s)) paths] s).
Proof.
  intros H1 H2. unfold handlePaths. cbn [fst].
  rewrite forallb_forall in H1, H2.
  rewrite add_new_ones_known.
  2:{ intros p P. apply (proj1 (has_true _ _ string_dec _ _)).
      now apply H1. }
  rewrite remove_deleted_listed.
  2:{ intros k K. apply array_lacks_false. apply negb_true_iff.
      now apply H2. }
  cbn [emit tasks batches]. rewrite Nat.sub_diag. reflexivity.
Qed.

Lemma root_connected_has_root :
  forallb (fun p => JsMap.has string_dec p (connections root_connected))
    ["/root"] = true.
Proof. evaluate. Qed.

Lemma root_connected_keys_listed :
  forallb (fun k => negb (array_lacks ["/root"] k))
    (JsMap.keys (connections root_connected)) = true.
Proof. evaluate. Qed.

Lemma X10_witness :
  fst (handlePaths ["/root"] root_connected) =
    set_batches
      (batches root_connected ++ [mkBatch ["/root"] 0 Fulfilled []])
      (emit [HandlePaths (length (batches root_connected)) ["/root"]]
         root_connected).
Proof.
  apply X10_handlePaths_same_roots.
  - exact root_connected_has_root.
  - exact root_connected_keys_listed.
Defined.

(** X11: [handlePaths] never touches the editors: a document bound to an
    Editor stays bound to it when the project of the Editor's connection
    is removed, although the connection is then destroyed and gone from
    the map. *)
Theorem X11_binding_outlives_connection
    (s : Flint) (paths : list string) (te : TextEditor) (e : Editor)
    (k : string) :
  reachable s ->
  JsMap.get TextEditor_dec te (editors s) = Some e ->
  JsMap.get string_dec k (connections s) = Some (ed_connection e) ->
  array_lacks paths k = true ->
  let s' := step s (DidChangePaths paths) in
  editors s' = editors s /\
  on_should_provide_editor te s' = Some e /\
  JsMap.get string_dec k (connections s') = None /\
  ~ live s' (ed_connection e).
Proof.
  intros R Ge Gc L s'.
  assert (N : ~ In k paths).
  { intros I. apply array_lacks_false in I. congruence. }
  pose proof (wf_state_reachable s R) as W.
  destruct (unlisted_connection_goes s paths k (ed_connection e) W Gc N)
    as (G' & D & _).
  pose proof (shell_handlePaths paths s) as Sh.
  rewrite <- step_did_change_paths in Sh, G', D. fold s' in Sh, G', D.
  assert (E1 : editors s' = editors s)
    by exact (f_equal (fun x => fst (fst (fst x))) Sh).
  split; [exact E1|]. unfold on_should_provide_editor. rewrite E1.
  split; [exact Ge|]. split; assumption.
Qed.

Lemma root_bound_get_connection :
  JsMap.get string_dec "/root" (connections root_bound) =
  Some (ed_connection root_editor).
Proof. evaluate. Qed.

Lemma root_bound_editor :
  JsMap.get TextEditor_dec root_document (editors root_bound) =
  Some root_editor.
Proof. evaluate. Qed.

Lemma root_lacking : array_lacks [] "/root" = true.
Proof. evaluate. Qed.

Lemma X11_witness :
  let s' := step root_bound (DidChangePaths []) in
  editors s' = editors root_bound /\
  on_should_provide_editor root_document s' = Some root_editor /\
  JsMap.get string_dec "/root" (connections s') = None /\
  ~ live s' (ed_connection root_editor).
Proof.
  apply (X11_binding_outlives_connection root_bound [] root_document
           root_editor "/root").
  - exact root_bound_reachable.
  - exact root_bound_editor.
  - exact root_bound_get_connection.
  - exact root_lacking.
Defined.

(** ** Connections replaced in the map *)

Lemma get_in_values (m : JsMap.t string Connection) k c :
  JsMap.get string_dec k m = Some c -> In c (JsMap.values m).
Proof.
  intros G. apply get_in_connection in G.
  change c with (snd (k, c)). now apply in_map.
Qed.

Lemma in_values_delete (m : JsMap.t string Connection) k c :
  In c (JsMap.values (JsMap.delete string_dec k m)) -> In c (JsMap.values m).
Proof.
  induction m as [|[k0 c0] r IH]; simpl; auto.
  destruct (string_dec k k0); simpl; intuition.
Qed.

Lemma orphan_registry s s' c :
  registry s' = registry s -> orphan s c -> orphan s' c.
Proof.
  intros R (L & I & N). injection R as Rc Rh Rl.
  unfold orphan, live. now rewrite Rc, Rh, Rl.
Qed.

Lemma orphan_calm s s' c : calm s s' -> orphan s c -> orphan s' c.
Proof. intros C. apply orphan_registry. now apply registry_calm. Qed.

Lemma live_same_id s c c' :
  live s c -> live s c' -> conn_id c = conn_id c' -> c = c'.
Proof.
  intros (o & E & Ec & _) (o' & E' & Ec' & _) Q.
  rewrite Q in E. congruence.
Qed.

Lemma orphan_discard k c0 s c :
  wf_state s -> JsMap.get string_dec k (connections s) = Some c0 ->
  orphan s c -> orphan (discard k c0 s) c.
Proof.
  intros W G (L & I & N).
  pose proof W as (H & (ND & M) & _).
  destruct (M _ _ G) as [P L0].
  assert (Nid : conn_id c <> conn_id c0).
  { intros Q. apply N. rewrite (live_same_id s c c0 L L0 Q).
    now apply get_in_values with (k := k). }
  destruct L0 as (o0 & E0 & Ec0 & Ed0).
  destruct (H _ _ E0) as [Id Hs]. rewrite Ed0 in Hs. destruct Hs as [Hd Hm].
  rewrite Ec0 in Hd.
  unfold discard. rewrite (Connection_destroy_live _ _ _ E0 Ed0 Hd).
  destruct L as (o & E & Ec & Ed).
  split; [|split]; simpl.
  - exists o. simpl. rewrite nth_error_update_nth.
    apply Nat.eqb_neq in Nid. rewrite Nid. auto.
  - clear - I Nid. induction (linter_registered s) as [|x l IH]; simpl in *; auto.
    destruct (Nat.eq_dec (conn_id c0) x); destruct I as [->|I]; simpl; auto.
    congruence.
  - intros V. apply N. now apply in_values_delete in V.
Qed.

Lemma orphan_remove_deleted paths ks c :
  forall s, wf_state s -> orphan s c -> orphan (remove_deleted paths ks s) c.
Proof.
  induction ks as [|k ks IH]; simpl; intros s W O; auto.
  destruct (array_lacks paths k); [|now apply IH].
  destruct (JsMap.get string_dec k (connections s)) as [c0|] eqn:G;
    [|now apply IH].
  apply IH.
  - now apply wf_state_discard.
  - now apply orphan_discard.
Qed.

Lemma orphan_handlePaths paths s c :
  wf_state s -> orphan s c -> orphan (fst (handlePaths paths s)) c.
Proof.
  intros W O. unfold handlePaths. cbn [fst].
  match goal with |- orphan (set_batches ?l ?s2) c =>
    apply orphan_registry with (s := s2); [reflexivity|] end.
  assert (C : calm s (add_new_ones (length (batches s)) paths
                        (emit [HandlePaths (length (batches s)) paths] s))).
  { eapply calm_trans; [|apply add_new_ones_calm]. now apply calm_emit. }
  apply orphan_remove_deleted.
  - eapply wf_state_calm; [exact C|exact W].
  - eapply orphan_calm; [exact C|exact O].
Qed.

Lemma orphan_registered rp baseDir s c :
  wf_state s -> orphan s c ->
  let c' := mkConnection (length (heap s)) rp baseDir in
  orphan
    (handleConnection rp c'
       (set_heap (heap s ++ [mkConnObj c' false [] []]) s)) c.
Proof.
  intros W (L & I & N) c'.
  rewrite handleConnection_fresh by reflexivity.
  destruct L as (o & E & Ec & Ed).
  assert (Lt : conn_id c < length (heap s)).
  { apply nth_error_Some. congruence. }
  split; [|split]; simpl.
  - exists o. simpl. rewrite nth_error_app1; auto.
  - apply in_or_app. now left.
  - intros V.
    assert (ND : NoDup (JsMap.keys (JsMap.set string_dec rp c' (connections s)))).
    { apply NoDup_keys_set. apply W. }
    apply in_values_get in V as [k G]; [|exact ND].
    rewrite get_set in G. destruct (string_dec k rp) as [->|Nk].
    + injection G as <-. simpl in Lt. lia.
    + apply N. now apply get_in_values with (k := k).
Qed.

Lemma orphan_step s e c : wf_state s -> orphan s c -> orphan (step s e) c.
Proof.
  intros W O. destruct e as [paths|t r|t r|t r|c0 m|te|te]; cbn [step].
  - now apply orphan_handlePaths.
  - unfold on_real_path.
    destruct (nth_error (tasks s) t) as [[b p []]|]; auto.
    destruct r.
    + eapply orphan_calm; [apply set_stage_calm|auto].
    + eapply orphan_calm; [apply settle_calm|auto].
  - unfold on_file_exists.
    destruct (nth_error (tasks s) t) as [[b p []]|]; auto.
    destruct r as [[]|].
    + eapply orphan_calm; [apply set_stage_calm|auto].
    + eapply orphan_calm; [apply settle_calm|auto].
    + eapply orphan_calm; [apply settle_calm|auto].
  - unfold on_create.
    destruct (nth_error (tasks s) t) as [[b p []]|]; auto.
    destruct r as [baseDir|].
    + eapply orphan_calm; [apply settle_calm|].
      now apply orphan_registered.
    + eapply orphan_calm; [apply settle_calm|].
      eapply orphan_calm; [|exact O]. now apply calm_emit.
  - eapply orphan_registry; [|exact O]. apply dispatch_frame.
  - eapply orphan_calm; [apply on_opened_calm|auto].
  - eapply orphan_calm; [apply on_closed_calm|auto].
Qed.

Lemma orphan_run es c :
  forall s, wf_state s -> orphan s c -> orphan (run es s) c.
Proof.
  induction es as [|e es IH]; simpl; intros s W O; auto.
  apply IH.
  - now apply wf_state_step.
  - now apply orphan_step.
Qed.

Lemma tracked_registry s s' :
  registry s' = registry s -> tracked s -> tracked s'.
Proof.
  intros R T c. injection R as Rc Rh Rl. unfold live. rewrite Rh, Rl.
  apply T.
Qed.

Lemma tracked_calm s s' : calm s s' -> tracked s -> tracked s'.
Proof. intros C. apply tracked_registry. now apply registry_calm. Qed.

Lemma in_remove_other (l : list nat) x y :
  x <> y -> In x l -> In x (remove Nat.eq_dec y l).
Proof. intros N I. now apply in_in_remove. Qed.

Lemma tracked_discard k c0 s :
  wf_state s -> JsMap.get string_dec k (connections s) = Some c0 ->
  tracked s -> tracked (discard k c0 s).
Proof.
  intros W G T c.
  pose proof W as (H & (ND & M) & _).
  destruct (M _ _ G) as [P (o0 & E0 & Ec0 & Ed0)].
  destruct (H _ _ E0) as [Id Hs]. rewrite Ed0 in Hs. destruct Hs as [Hd Hm].
  rewrite Ec0 in Hd.
  unfold discard. rewrite (Connection_destroy_live _ _ _ E0 Ed0 Hd). simpl.
  intros (o & E & Ec & Ed). simpl in E.
  rewrite nth_error_update_nth in E.
  destruct (Nat.eqb (conn_id c) (conn_id c0)) eqn:Q.
  - apply Nat.eqb_eq in Q. rewrite Q, E0 in E. simpl in E.
    injection E as <-. discriminate.
  - apply Nat.eqb_neq in Q. apply in_remove_other; [exact Q|].
    apply T. exists o. auto.
Qed.

Lemma tracked_remove_deleted paths ks :
  forall s, wf_state s -> tracked s -> tracked (remove_deleted paths ks s).
Proof.
  induction ks as [|k ks IH]; simpl; intros s W T; auto.
  destruct (array_lacks paths k); [|now apply IH].
  destruct (JsMap.get string_dec k (connections s)) as [c0|] eqn:G;
    [|now apply IH].
  apply IH.
  - now apply wf_state_discard.
  - now apply tracked_discard.
Qed.

Lemma tracked_handlePaths paths s :
  wf_state s -> tracked s -> tracked (fst (handlePaths paths s)).
Proof.
  intros W T. unfold handlePaths. cbn [fst].
  match goal with |- tracked (set_batches ?l ?s2) =>
    apply tracked_registry with (s := s2); [reflexivity|] end.
  assert (C : calm s (add_new_ones (length (batches s)) paths
                        (emit [HandlePaths (length (batches s)) paths] s))).
  { eapply calm_trans; [|apply add_new_ones_calm]. now apply calm_emit. }
  apply tracked_remove_deleted.
  - eapply wf_state_calm; [exact C|exact W].
  - eapply tracked_calm; [exact C|exact T].
Qed.

Lemma tracked_registered rp baseDir s :
  tracked s ->
  let c' := mkConnection (length (heap s)) rp baseDir in
  tracked
    (handleConnection rp c'
       (set_heap (heap s ++ [mkConnObj c' false [] []]) s)).
Proof.
  intros T c'. rewrite handleConnection_fresh by reflexivity.
  intros c (o & E & Ec & Ed). simpl in *.
  apply in_or_app.
  destruct (Nat.lt_ge_cases (conn_id c) (length (heap s))) as [Lt|Ge].
  - rewrite nth_error_app1 in E; auto. left. apply T. exists o. auto.
  - rewrite nth_error_app2 in E; auto.
    destruct (conn_id c - length (heap s)) as [|n] eqn:En; simpl in E.
    + right. left. lia.
    + destruct n; discriminate.
Qed.

Lemma tracked_step s e : wf_state s -> tracked s -> tracked (step s e).
Proof.
  intros W O. destruct e as [paths|t r|t r|t r|c0 m|te|te]; cbn [step].
  - now apply tracked_handlePaths.
  - unfold on_real_path.
    destruct (nth_error (tasks s) t) as [[b p []]|]; auto.
    destruct r.
    + eapply tracked_calm; [apply set_stage_calm|auto].
    + eapply tracked_calm; [apply settle_calm|auto].
  - unfold on_file_exists.
    destruct (nth_error (tasks s) t) as [[b p []]|]; auto.
    destruct r as [[]|].
    + eapply tracked_calm; [apply set_stage_calm|auto].
    + eapply tracked_calm; [apply settle_calm|auto].
    + eapply tracked_calm; [apply settle_calm|auto].
  - unfold on_create.
    destruct (nth_error (tasks s) t) as [[b p []]|]; auto.
    destruct r as [baseDir|].
    + eapply tracked_calm; [apply settle_calm|].
      now apply tracked_registered.
    + eapply tracked_calm; [apply settle_calm|].
      eapply tracked_calm; [|exact O]. now apply calm_emit.
  - eapply tracked_registry; [|exact O]. apply dispatch_frame.
  - eapply tracked_calm; [apply on_opened_calm|auto].
  - eapply tracked_calm; [apply on_closed_calm|auto].
Qed.

Lemma tracked_reachable s : reachable s -> tracked s.
Proof.
  intros (opened & paths & es & ->).
  assert (A : wf_state (activate opened paths) /\
              tracked (activate opened paths)).
  { split; [apply wf_state_activate|].
    unfold activate. destruct (handlePaths paths _) as [s1 p] eqn:Eh.
    apply tracked_calm with (s := s1); [apply then_returned_calm|].
    change s1 with (fst (s1, p)). rewrite <- Eh. apply tracked_handlePaths.
    - eapply wf_state_calm; [|apply wf_state_constructor]. calm_fields.
    - intros c (o & E & _). simpl in E. destruct (conn_id c); discriminate. }
  revert A. generalize (activate opened paths). clear.
  induction es as [|e es IH]; simpl; intros s [W T]; auto.
  apply IH. split; [now apply wf_state_step|now apply tracked_step].
Qed.

(** X12: The class destroys a connection only through the map.  A
    connection that is live and registered with the linter while the map
    no longer holds it stays so whatever happens next: no later
    [handlePaths] destroys it, and no later creation brings it back into
    the map. *)
Theorem X12_lost_connection_is_never_destroyed
    (s : Flint) (c : Connection) (es : list event) :
  reachable s -> orphan s c -> orphan (run es s) c.
Proof.
  intros R O. apply orphan_run; [|exact O]. now apply wf_state_reachable.
Qed.

Lemma aliased_reachable : reachable aliased.
Proof.
  exists [], ["/real"; "/link"],
    [RealPathSettled 0 (Some "/real"); FileExistsSettled 0 (Some true);
     CreateSettled 0 (Some "/real");
     RealPathSettled 1 (Some "/real"); FileExistsSettled 1 (Some true);
     CreateSettled 1 (Some "/real")].
  reflexivity.
Qed.

Lemma aliased_first_object :
  nth_error (heap aliased) (conn_id real_connection) =
  Some (mkConnObj real_connection false
          [UnregisterFromLinter real_connection]
          (handlers_of real_connection)).
Proof. evaluate. Qed.

Lemma aliased_registered : linter_registered aliased = [0; 1].
Proof. evaluate. Qed.

Lemma aliased_values :
  JsMap.values (connections aliased) = [mkConnection 1 "/real" "/real"].
Proof. evaluate. Qed.

Lemma aliased_orphan : orphan aliased real_connection.
Proof.
  split; [|split].
  - eexists. split; [exact aliased_first_object|]. split; reflexivity.
  - rewrite aliased_registered. now left.
  - rewrite aliased_values. intros [E|[]]. discriminate.
Qed.

Lemma X12_witness :
  orphan (run [DidChangePaths []] aliased) real_connection.
Proof.
  apply X12_lost_connection_is_never_destroyed.
  - exact aliased_reachable.
  - exact aliased_orphan.
Defined.

(** X13: [handleConnection] on a path that is already a key of the map
    puts the new connection in the place of the old one and does nothing
    else to the old one: it is still live, still registered with the
    linter, and out of the map. *)
Theorem X13_second_creation_replaces_the_first
    (s : Flint) (t b : nat) (p rp cfg baseDir : string) (old : Connection) :
  reachable s ->
  nth_error (tasks s) t = Some (mkTask b p (AwaitCreate rp cfg)) ->
  JsMap.get string_dec rp (connections s) = Some old ->
  let s' := step s (CreateSettled t (Some baseDir)) in
  JsMap.get string_dec rp (connections s') =
    Some (mkConnection (length (heap s)) rp baseDir) /\
  JsMap.keys (connections s') = JsMap.keys (connections s) /\
  orphan s' old.
Proof.
  intros R T G s'.
  pose proof (wf_state_reachable s R) as W.
  pose proof W as (H & (ND & M) & _).
  destruct (M _ _ G) as [P L].
  pose proof (tracked_reachable s R old L) as I.
  set (c' := mkConnection (length (heap s)) rp baseDir).
  set (s1 := handleConnection rp c'
               (set_heap (heap s ++ [mkConnObj c' false [] []]) s)).
  assert (E' : s' = settle t Fulfilled s1).
  { unfold s'. cbn [step]. unfold on_create. now rewrite T. }
  assert (C : calm s1 s') by (rewrite E'; apply settle_calm).
  pose proof (calm_connections _ _ C) as Ec.
  assert (E1 : connections s1 = JsMap.set string_dec rp c' (connections s)).
  { unfold s1. now rewrite handleConnection_fresh. }
  rewrite Ec, E1. split; [|split].
  - rewrite get_set. destruct (string_dec rp rp); congruence.
  - rewrite keys_set. unfold JsMap.has. now rewrite G.
  - apply orphan_calm with (s := s1); [exact C|].
    destruct L as (o & E & Eo & Ed).
    assert (Lt : conn_id old < length (heap s)).
    { apply nth_error_Some. congruence. }
    unfold s1. rewrite handleConnection_fresh by reflexivity.
    split; [|split]; simpl.
    + exists o. simpl. rewrite nth_error_app1; auto.
    + apply in_or_app. now left.
    + intros V.
      apply in_values_get in V as [k Gk];
        [|apply NoDup_keys_set; exact ND].
      rewrite get_set in Gk. destruct (string_dec k rp) as [->|Nk].
      * injection Gk as Q. rewrite <- Q in Lt. simpl in Lt. lia.
      * destruct (M _ _ Gk) as [Pk _]. congruence.
Qed.

Lemma aliasing_reachable : reachable aliasing.
Proof.
  exists [], ["/real"; "/link"],
    [RealPathSettled 0 (Some "/real"); FileExistsSettled 0 (Some true);
     CreateSettled 0 (Some "/real");
     RealPathSettled 1 (Some "/real"); FileExistsSettled 1 (Some true)].
  reflexivity.
Qed.

Lemma aliasing_task :
  nth_error (tasks aliasing) 1 =
  Some (mkTask 0 "/link" (AwaitCreate "/real" (configPath "/real"))).
Proof. evaluate. Qed.

Lemma aliasing_connection :
  JsMap.get string_dec "/real" (connections aliasing) = Some real_connection.
Proof. evaluate. Qed.

Lemma X13_witness :
  let s' := step aliasing (CreateSettled 1 (Some "/real")) in
  JsMap.get string_dec "/real" (connections s') =
    Some (mkConnection (length (heap aliasing)) "/real" "/real") /\
  JsMap.keys (connections s') = JsMap.keys (connections aliasing) /\
  orphan s' real_connection.
Proof.
  apply (X13_second_creation_replaces_the_first aliasing 1 0 "/link" "/real"
           (configPath "/real") "/real" real_connection).
  - exact aliasing_reachable.
  - exact aliasing_task.
  - exact aliasing_connection.
Defined.

(** X14: In every reachable state the connections registered with the
    linter are exactly those that were created and not destroyed:
    [handleConnection] registers each one it is given and the did-destroy
    handler it subscribes takes it out again. *)
Theorem X14_linter_knows_the_live_connections (s : Flint) (i : nat) :
  reachable s ->
  (In i (linter_registered s) <->
   exists o, nth_error (heap s) i = Some o /\ co_destroyed o = false).
Proof.
  intros R. pose proof (wf_state_reachable s R) as W.
  pose proof W as (H & _ & _ & Li & _). split.
  - apply Li.
  - intros (o & E & D). destruct (H _ _ E) as [Id _].
    rewrite <- Id. apply (tracked_reachable s R). exists o.
    rewrite Id. auto.
Qed.

Lemma X14_witness :
  In 0 (linter_registered aliased) <->
  exists o, nth_error (heap aliased) 0 = Some o /\ co_destroyed o = false.
Proof.
  apply X14_linter_knows_the_live_connections. exact aliased_reachable.
Defined.

(** ** The gate of [activate] *)

Lemma gate_same s s' :
  batches s' = batches s -> observing s' = observing s ->
  editors s' = editors s -> subscriptions s' = subscriptions s ->
  gate_inv s -> gate_inv s'.
Proof.
  unfold gate_inv, panes. intros -> -> -> ->. auto.
Qed.

Lemma first_settled_spec s :
  first_settled s <->
  exists bt rest, batches s = bt :: rest /\ b_all bt <> Pending.
Proof.
  unfold first_settled, returned. split.
  - intros (bt & E & R). destruct (batches s) as [|bt0 rest]; [discriminate|].
    injection E as ->. exists bt, rest. split; [reflexivity|].
    destruct (b_all bt); simpl in R; congruence.
  - intros (bt & rest & -> & N). exists bt. split; [reflexivity|].
    destruct (b_all bt); simpl; congruence.
Qed.

Lemma on_text_editor_open te s :
  observing (on_text_editor te s) = observing s /\
  panes (on_text_editor te s) = panes s /\
  batches (on_text_editor te s) = batches s /\
  workspace (on_text_editor te s) = workspace s.
Proof.
  unfold on_text_editor, panes.
  destruct (getConnectionByPath (te_path te) s) as [[c|]|what]; auto.
  cbn [set_editors set_subscriptions emit subscriptions observing batches
       workspace].
  rewrite filter_app. simpl. rewrite app_nil_r. auto.
Qed.

Lemma observe_existing_open l :
  forall s,
    observing (snd (observe_existing l s)) = observing s /\
    panes (snd (observe_existing l s)) = panes s /\
    batches (snd (observe_existing l s)) = batches s /\
    workspace (snd (observe_existing l s)) = workspace s.
Proof.
  induction l as [|te l IH]; simpl; intros s; auto.
  destruct (on_text_editor_open te s) as (O & P & B & W).
  destruct (getConnectionByPath (te_path te) s); simpl; auto.
  destruct (IH (on_text_editor te s)) as (-> & -> & -> & ->). auto.
Qed.

(** The observation either goes through, and the observer and the
    active-pane hook are subscribed, or is left by an exception, and
    neither is. *)
Lemma observe_workspace_open s :
  batches (observe_workspace s) = batches s /\
  workspace (observe_workspace s) = workspace s /\
  (fst (observe_existing (workspace s) s) = true /\
   observing (observe_workspace s) = true /\
   panes (observe_workspace s) = S (panes s) \/
   fst (observe_existing (workspace s) s) = false /\
   observing (observe_workspace s) = observing s /\
   panes (observe_workspace s) = panes s).
Proof.
  unfold observe_workspace.
  destruct (observe_existing_open (workspace s) s) as (O & P & B & W).
  destruct (observe_existing (workspace s) s) as [[] s1]; simpl in *.
  - split; [exact B|]. split; [exact W|]. left.
    split; [reflexivity|]. split; [reflexivity|].
    unfold panes in *. cbn [set_subscriptions set_observing subscriptions].
    rewrite filter_app, length_app, P. simpl. lia.
  - split; [exact B|]. split; [exact W|]. right. auto.
Qed.

Lemma on_text_editor_connections te s :
  connections (on_text_editor te s) = connections s.
Proof. apply calm_connections. apply on_text_editor_calm. Qed.

Lemma offered_same s s' te :
  connections s' = connections s -> offered te s' = offered te s.
Proof. unfold offered, getConnectionByPath. now intros ->. Qed.

Lemma on_text_editor_get te s te' :
  JsMap.get TextEditor_dec te' (editors (on_text_editor te s)) =
  if TextEditor_dec te' te
  then match offered te s with
       | Some e => Some e
       | None => JsMap.get TextEditor_dec te' (editors s)
       end
  else JsMap.get TextEditor_dec te' (editors s).
Proof.
  unfold on_text_editor, offered.
  destruct (getConnectionByPath (te_path te) s) as [[c|]|what];
    cbn [set_editors set_subscriptions emit editors].
  - apply get_set.
  - now destruct (TextEditor_dec te' te).
  - now destruct (TextEditor_dec te' te).
Qed.

(** The documents the enumeration went through have the Editor the
    callback makes for them, the others are as before. *)
Lemma observe_existing_binds l :
  forall s te,
    JsMap.get TextEditor_dec te (editors (snd (observe_existing l s))) =
    (if in_dec TextEditor_dec te l
     then match offered te s with
          | Some e => Some e
          | None => JsMap.get TextEditor_dec te (editors s)
          end
     else JsMap.get TextEditor_dec te (editors s)) \/
    fst (observe_existing l s) = false.
Proof.
  induction l as [|te0 l IH]; intros s te; [now left|].
  cbn [observe_existing].
  destruct (getConnectionByPath (te_path te0) s) as [oc|what] eqn:G;
    [|now right].
  destruct (IH (on_text_editor te0 s) te) as [H|H]; [left|now right].
  rewrite H. clear H.
  rewrite (offered_same s (on_text_editor te0 s) te
             (on_text_editor_connections te0 s)).
  rewrite on_text_editor_get.
  destruct (TextEditor_dec te te0) as [->|Ne].
  - destruct (in_dec TextEditor_dec te0 (te0 :: l)) as [I|N];
      [|exfalso; apply N; now left].
    destruct (in_dec TextEditor_dec te0 l); now destruct (offered te0 s).
  - destruct (in_dec TextEditor_dec te (te0 :: l)) as [I|N];
      destruct (in_dec TextEditor_dec te l) as [I'|N']; try reflexivity.
    + exfalso. destruct I as [E|I]; auto.
    + exfalso. apply N. now right.
Qed.

Lemma observe_workspace_binds s :
  editors s = [] -> observing s = false ->
  observing (observe_workspace s) = true ->
  bound_as_offered (observe_workspace s).
Proof.
  intros E O O' te I.
  destruct (observe_workspace_open s) as (_ & W & [(F & _)|(F & Oo & _)]);
    [|congruence].
  rewrite W in I.
  rewrite (offered_same s (observe_workspace s) te
             (calm_connections s (observe_workspace s)
                (observe_workspace_calm s))).
  destruct (observe_existing_binds (workspace s) s te) as [H|H];
    [|congruence].
  unfold observe_workspace.
  destruct (observe_existing (workspace s) s) as [b s1]. simpl in *.
  subst b. cbn [set_subscriptions set_observing editors]. rewrite H.
  destruct (in_dec TextEditor_dec te (workspace s)); [|contradiction].
  rewrite E. now destruct (offered te s).
Qed.

Lemma Forall_update_nth (A : Type) (P : A -> Prop) n (f : A -> A) l :
  (forall x, P x -> P (f x)) -> Forall P l -> Forall P (update_nth n f l).
Proof.
  intros H F. revert n. induction F as [|x l Px F IH]; intros [|n]; simpl;
    constructor; auto.
Qed.

(** The batch resolves: what is chained on it runs. *)
Lemma gate_resolve b f l s :
  gate_inv s ->
  forall bt s2,
    nth_error (batches s) b = Some bt -> b_all bt = Pending ->
    l = b_then bt ->
    (forall x, b_all (f x) <> Pending /\ b_then (f x) = []) ->
    batches s2 = update_nth b f (batches s) ->
    observing s2 = observing s -> editors s2 = editors s ->
    subscriptions s2 = subscriptions s ->
    gate_kept s (fold_left run_reaction l s2).
Proof.
  intros G bt s2 E Pe -> Hf B2 O2 E2 S2.
  unfold gate_inv in G. destruct (batches s) as [|bt0 rest] eqn:Eb; [easy|].
  destruct G as [Fr G]. destruct b as [|b]; simpl in E.
  - injection E as <-. rewrite Pe in G. destruct G as (-> & Ob & Ee & Pn).
    simpl.
    destruct (observe_workspace_open s2) as (Bo & Wo & Cases).
    assert (Gi : gate_inv (observe_workspace s2)).
    { unfold gate_inv. rewrite Bo, B2. simpl.
      split; [exact Fr|]. destruct (Hf bt0) as [H1 H2].
      assert (Pn2 : panes s2 = 0) by (unfold panes in *; now rewrite S2).
      destruct Cases as [(_ & Oo & Po)|(_ & Oo & Po)];
        rewrite Oo, Po, ?O2, ?Ob, Pn2;
        destruct (b_all (f bt0)); try congruence; auto. }
    split; [exact Gi|]. split.
    + intros Fs. apply first_settled_spec in Fs as (bt' & rest' & Eq & N).
      rewrite Eb in Eq. injection Eq as <- <-. congruence.
    + intros _ O'. apply observe_workspace_binds; congruence.
  - assert (Hn : b_then bt = []).
    { rewrite Forall_forall in Fr. apply Fr. eapply nth_error_In; eauto. }
    rewrite Hn. simpl. split; [|split].
    + unfold gate_inv, panes. rewrite B2, O2, E2, S2. simpl.
      split; [|exact G].
      apply Forall_update_nth; [|exact Fr]. intros x _. apply Hf.
    + intros Fs. split; [|unfold panes; now rewrite O2, E2, S2].
      apply first_settled_spec in Fs as (bt' & rest' & Eq & N).
      rewrite Eb in Eq. injection Eq as <- <-.
      apply first_settled_spec. rewrite B2. simpl. eauto.
    + intros Of Ot. congruence.
Qed.

(** The batch stays pending. *)
Lemma gate_wait b f s s2 :
  gate_inv s ->
  (forall x, b_all x = Pending ->
             b_all (f x) = Pending /\ b_then (f x) = b_then x) ->
  forall bt, nth_error (batches s) b = Some bt -> b_all bt = Pending ->
  batches s2 = update_nth b f (batches s) ->
  observing s2 = observing s -> editors s2 = editors s ->
  subscriptions s2 = subscriptions s ->
  gate_kept s s2.
Proof.
  intros G Hf bt E Pe B2 O2 E2 S2. split; [|split].
  - unfold gate_inv, panes in *. rewrite B2, O2, E2, S2.
    destruct (batches s) as [|bt0 rest] eqn:Eb; [easy|].
    destruct G as [Fr G]. destruct b as [|b]; simpl in *.
    + injection E as <-. split; [exact Fr|].
      destruct (Hf bt0 Pe) as [H1 H2]. rewrite H1, H2.
      now rewrite Pe in G.
    + split; [|exact G].
      assert (Hn : b_then bt = []).
      { rewrite Forall_forall in Fr. apply Fr. eapply nth_error_In; eauto. }
      clear - Fr E Hn Pe Hf. revert b E.
      induction Fr as [|x l Px F IH]; intros [|b] E; simpl in *;
        try discriminate; constructor; auto.
      injection E as ->. destruct (Hf bt Pe) as [_ ->]. exact Hn.
  - intros Fs. split; [|unfold panes; now rewrite O2, E2, S2].
    apply first_settled_spec in Fs as (bt' & rest' & Eq & N).
    apply first_settled_spec. rewrite B2, Eq.
    destruct b as [|b]; simpl; [|eauto].
    rewrite Eq in E. simpl in E. injection E as <-. congruence.
  - intros Of Ot. congruence.
Qed.

Lemma gate_kept_same s s' :
  batches s' = batches s -> observing s' = observing s ->
  editors s' = editors s -> subscriptions s' = subscriptions s ->
  gate_inv s -> gate_kept s s'.
Proof.
  intros B O E S G. split; [|split].
  - now apply gate_same with (s := s).
  - intros Fs. split; [|unfold panes; now rewrite O, E, S].
    unfold first_settled in *. now rewrite B.
  - intros Of Ot. congruence.
Qed.

Lemma gate_settle t o s : gate_inv s -> gate_kept s (settle t o s).
Proof.
  intros G. unfold settle.
  destruct (nth_error (tasks s) t) as [tk|];
    [|now apply gate_kept_same].
  change (batches (set_stage t (Settled o) s)) with (batches s).
  destruct (nth_error (batches s) (t_batch tk)) as [bt|] eqn:E;
    [|now apply gate_kept_same].
  destruct (b_all bt) eqn:Pe; try solve [now apply gate_kept_same].
  assert (Wait : forall f s2,
             (forall x, b_all x = Pending ->
                        b_all (f x) = Pending /\ b_then (f x) = b_then x) ->
             s2 = set_batches (update_nth (t_batch tk) f (batches s))
                    (set_stage t (Settled o) s) ->
             gate_kept s s2).
  { intros f s2 Hf ->. eapply gate_wait; eauto; reflexivity. }
  destruct o.
  - destruct (Nat.eqb (b_remaining bt) 1).
    + eapply gate_resolve; try exact G; try exact E; try exact Pe;
        try reflexivity.
      intros x. simpl. split; [discriminate|reflexivity].
    + eapply Wait; [|reflexivity]. intros x _. simpl. auto.
  - destruct (Nat.eqb (b_remaining bt) 1).
    + eapply gate_resolve; try exact G; try exact E; try exact Pe;
        try reflexivity.
      intros x. simpl. split; [discriminate|reflexivity].
    + eapply Wait; [|reflexivity]. intros x _. simpl. auto.
  - eapply gate_resolve; try exact G; try exact E; try exact Pe;
        try reflexivity.
    intros x. simpl. split; [discriminate|reflexivity].
Qed.

Lemma handleConnection_gate path c s :
  batches (handleConnection path c s) = batches s /\
  observing (handleConnection path c s) = observing s /\
  editors (handleConnection path c s) = editors s /\
  subscriptions (handleConnection path c s) = subscriptions s.
Proof. destruct s. repeat split; reflexivity. Qed.

Lemma shell_fields s s' :
  shell s' = shell s ->
  editors s' = editors s /\ subscriptions s' = subscriptions s /\
  observing s' = observing s.
Proof. unfold shell. intros H. injection H as -> -> -> _. auto. Qed.

Lemma panes_editor_destroyed editor l :
  filter is_pane (filter (fun d => negb (disposable_is editor d)) l) =
  filter is_pane l.
Proof.
  induction l as [|d l IH]; simpl; auto.
  destruct d; simpl; auto; try congruence.
  destruct (TextEditor_dec _ _); simpl; auto.
Qed.

Lemma gate_kept_from s s1 s' :
  batches s1 = batches s -> observing s1 = observing s ->
  editors s1 = editors s -> subscriptions s1 = subscriptions s ->
  gate_kept s1 s' -> gate_kept s s'.
Proof.
  intros B O E S (G & K & T). split; [exact G|]. split.
  - intros Fs.
    assert (Fs1 : first_settled s1) by (unfold first_settled in *; now rewrite B).
    destruct (K Fs1) as (F' & O' & E' & P'). unfold panes in *.
    rewrite O', E', P', O, E, S. auto.
  - intros Of Ot. apply T; congruence.
Qed.

Lemma gate_step s e :
  gate_inv s ->
  gate_inv (step s e) /\
  (first_settled s ->
   first_settled (step s e) /\
   observing (step s e) = observing s /\ panes (step s e) = panes s /\
   (of_workspace e = false -> editors (step s e) = editors s)) /\
  (observing s = false -> observing (step s e) = true ->
   bound_as_offered (step s e)).
Proof.
  intros G.
  assert (Kept : forall s', gate_kept s s' ->
            gate_inv s' /\
            (first_settled s ->
             first_settled s' /\ observing s' = observing s /\
             panes s' = panes s /\
             (of_workspace e = false -> editors s' = editors s)) /\
            (observing s = false -> observing s' = true ->
             bound_as_offered s')).
  { intros s' (G' & K & T). split; [exact G'|]. split; [|exact T].
    intros Fs. destruct (K Fs) as (F' & O' & E' & P'). auto. }
  destruct e as [paths|t r|t r|t r|c m|te|te]; cbn [step].
  - change (on_did_change_paths paths s) with (fst (handlePaths paths s)).
    destruct (shell_fields _ _ (shell_handlePaths paths s)) as (Ee & Es & Eo).
    pose proof (handlePaths_batch paths s) as Eb.
    assert (G' : gate_inv (fst (handlePaths paths s))).
    { unfold gate_inv, panes in *. rewrite Ee, Es, Eo, Eb.
      destruct (batches s) as [|bt0 rest]; [easy|]. simpl.
      destruct G as [Fr G]. split; [|exact G].
      apply Forall_app. split; [exact Fr|].
      constructor; [reflexivity|constructor]. }
    split; [exact G'|]. split.
    + intros Fs. split; [|unfold panes; rewrite Ee, Es, Eo; auto].
      apply first_settled_spec in Fs as (bt' & rest' & Eq & N).
      apply first_settled_spec. rewrite Eb, Eq. simpl. eauto.
    + intros Of Ot. congruence.
  - unfold on_real_path.
    destruct (nth_error (tasks s) t) as [[b p []]|];
      try (apply Kept; now apply gate_kept_same).
    destruct r; [apply Kept; now apply gate_kept_same|].
    apply Kept. now apply gate_settle.
  - unfold on_file_exists.
    destruct (nth_error (tasks s) t) as [[b p []]|];
      try (apply Kept; now apply gate_kept_same).
    destruct r as [[]|]; [apply Kept; now apply gate_kept_same| |];
      apply Kept; now apply gate_settle.
  - unfold on_create.
    destruct (nth_error (tasks s) t) as [[b p []]|];
      try (apply Kept; now apply gate_kept_same).
    destruct r as [baseDir|]; apply Kept.
    + set (c := mkConnection (length (heap s)) realPath baseDir).
      set (s0 := set_heap (heap s ++ [mkConnObj c false [] []]) s).
      destruct (handleConnection_gate realPath c s0) as (Hb & Ho & He & Hs).
      apply gate_kept_from with (s1 := handleConnection realPath c s0); auto.
      apply gate_settle. apply gate_same with (s := s); auto.
    + set (s0 := emit [ConsoleError "Flint channel creation failed"] s).
      apply gate_kept_from with (s1 := s0); auto.
      apply gate_settle. apply gate_same with (s := s); auto.
  - destruct (shell_fields _ _ (shell_dispatch c m s)) as (Ee & Es & Eo).
    apply Kept. apply gate_kept_same; auto.
    exact (f_equal snd (proj2 (dispatch_frame c m s))).
  - unfold on_opened.
    change (observing (set_workspace (workspace s ++ [te]) s))
      with (observing s).
    set (s1 := set_workspace (workspace s ++ [te]) s).
    destruct (observing s) eqn:Ob.
    + destruct (on_text_editor_open te s1) as (Oo & Po & Bo & _).
      change (observing s1) with (observing s) in Oo.
      change (panes s1) with (panes s) in Po.
      change (batches s1) with (batches s) in Bo.
      split; [|split].
      * unfold gate_inv in *. rewrite Oo, Po, Bo, Ob in *.
        destruct (batches s) as [|bt0 rest]; [easy|].
        destruct G as [Fr G]. split; [exact Fr|].
        destruct (b_all bt0); auto. destruct G as (_ & N & _). discriminate.
      * intros Fs. split; [|split; [congruence|split; [exact Po|discriminate]]].
        unfold first_settled in *. now rewrite Bo.
      * intros Of. discriminate.
    + split; [|split].
      * apply gate_same with (s := s); auto.
      * intros Fs. split; [exact Fs|]. split; [exact Ob|].
        split; [reflexivity|discriminate].
      * intros _ Ot. change (observing s1) with (observing s) in Ot.
        congruence.
  - unfold on_closed.
    change (editors (set_workspace (remove TextEditor_dec te (workspace s)) s))
      with (editors s).
    destruct (JsMap.get TextEditor_dec te (editors s)) as [ed|] eqn:Ge.
    + assert (Ps : panes (on_editor_destroyed te ed
                           (set_workspace
                              (remove TextEditor_dec te (workspace s)) s)) =
                   panes s).
      { unfold panes, on_editor_destroyed.
        cbn [set_editors set_subscriptions set_workspace subscriptions].
        now rewrite panes_editor_destroyed. }
      split; [|split].
      * unfold gate_inv in *. rewrite Ps.
        unfold on_editor_destroyed.
        cbn [set_editors set_subscriptions set_workspace editors batches
             observing].
        destruct (batches s) as [|bt0 rest]; [easy|].
        destruct G as [Fr G]. split; [exact Fr|].
        destruct (b_all bt0); auto.
        destruct G as (_ & _ & Ee & _). rewrite Ee in Ge. discriminate.
      * intros Fs. split; [exact Fs|]. split; [reflexivity|].
        split; [exact Ps|discriminate].
      * intros Of Ot. unfold on_editor_destroyed in Ot.
        cbn [set_editors set_subscriptions set_workspace observing] in Ot.
        congruence.
    + split; [|split].
      * apply gate_same with (s := s); auto.
      * intros Fs. split; [exact Fs|]. split; [reflexivity|].
        split; [reflexivity|discriminate].
      * intros Of Ot. cbn [set_workspace observing] in Ot. congruence.
Qed.

Lemma gate_activate opened paths :
  gate_inv (activate opened paths) /\
  (observing (activate opened paths) = true ->
   bound_as_offered (activate opened paths)).
Proof.
  unfold activate.
  set (s0 := set_subscriptions _ _).
  destruct (handlePaths paths s0) as [s1 p] eqn:Eh.
  assert (E1 : s1 = fst (handlePaths paths s0)) by now rewrite Eh.
  assert (Ep : p = 0) by (change p with (snd (s1, p)); now rewrite <- Eh).
  destruct (shell_fields _ _ (shell_handlePaths paths s0)) as (Ee & Es & Eo).
  pose proof (handlePaths_batch paths s0) as Eb.
  rewrite <- E1 in Ee, Es, Eo, Eb. subst p.
  change (batches s0) with (@nil batch) in Eb. simpl in Eb.
  change (editors s0) with (@nil (TextEditor * Editor)) in Ee.
  change (observing s0) with false in Eo.
  unfold then_returned. rewrite Eb. cbn [nth_error].
  destruct (new_paths paths s0) as [|x l]; cbn [returned b_all catch_log].
  - cbn [run_reaction].
    destruct (observe_workspace_open s1) as (Bo & Wo & Cases).
    split.
    + unfold gate_inv. rewrite Bo, Eb. simpl. split; [constructor|].
      split; [reflexivity|].
      assert (Pn : panes s1 = 0) by (unfold panes; now rewrite Es).
      destruct Cases as [(_ & Oo & Po)|(_ & Oo & Po)]; rewrite Oo, Po, Pn;
        [reflexivity|]. now rewrite Eo.
    + intros Ot. now apply observe_workspace_binds.
  - split.
    + unfold gate_inv, panes.
      cbn [set_batches batches observing editors subscriptions].
      rewrite Eo, Ee, Es. simpl. split; [constructor|]. auto.
    + cbn [set_batches observing]. congruence.
Qed.

Lemma gate_run es :
  forall s, gate_inv s ->
    gate_inv (run es s) /\
    (first_settled s ->
     first_settled (run es s) /\
     observing (run es s) = observing s /\ panes (run es s) = panes s).
Proof.
  induction es as [|e es IH]; simpl; intros s G; auto.
  destruct (gate_step s e G) as (G' & K & _).
  destruct (IH _ G') as (G'' & K'). split; [exact G''|].
  intros Fs. destruct (K Fs) as (Fs' & O & P & _).
  destruct (K' Fs') as (Fs'' & O' & P'). split; [exact Fs''|]. split; congruence.
Qed.

Lemma gate_reachable s : reachable s -> gate_inv s.
Proof.
  intros (opened & paths & es & ->). apply gate_run. apply gate_activate.
Qed.

Lemma reachable_step s e : reachable s -> reachable (step s e).
Proof.
  intros (opened & paths & es & ->). exists opened, paths, (es ++ [e]).
  unfold run. now rewrite fold_left_app.
Qed.

Lemma observing_first_settled s :
  gate_inv s -> observing s = true -> first_settled s.
Proof.
  intros G O. apply first_settled_spec. unfold gate_inv in G.
  destruct (batches s) as [|bt0 rest]; [easy|]. exists bt0, rest.
  split; [reflexivity|]. destruct G as [_ G]. intros P. rewrite P in G.
  destruct G as (_ & N & _). congruence.
Qed.

Lemma gate_panes s : gate_inv s -> panes s = (if observing s then 1 else 0).
Proof.
  intros G. unfold gate_inv, gate in G.
  destruct (batches s) as [|bt0 rest]; [easy|]. destruct G as [_ G].
  destruct (b_all bt0); [|tauto|tauto].
  destruct G as (_ & -> & _ & ->). reflexivity.
Qed.

(** X15: [activate] observes the workspace only after the promise of its
    own [handlePaths] has settled.  In every reachable state: if the
    workspace is observed that promise is fulfilled; as long as it is
    pending no document is bound and the active-pane hook is not
    subscribed; the active-pane hook is subscribed, once, exactly if the
    observer is; and once that promise has settled, whether the workspace
    is observed never changes again. *)
Theorem X15_workspace_observed_after_first_batch (s : Flint) :
  reachable s ->
  (observing s = true -> first_settled s) /\
  (~ first_settled s ->
   observing s = false /\ editors s = [] /\ panes s = 0) /\
  panes s = (if observing s then 1 else 0) /\
  (forall es, first_settled s ->
     observing (run es s) = observing s /\ panes (run es s) = panes s).
Proof.
  intros R. pose proof (gate_reachable s R) as G.
  split; [|split; [|split]].
  - now apply observing_first_settled.
  - intros N. unfold gate_inv, gate in G.
    destruct (batches s) as [|bt0 rest] eqn:Eb; [easy|].
    destruct G as [_ G].
    destruct (b_all bt0) eqn:P; [tauto| |]; exfalso; apply N;
      apply first_settled_spec; exists bt0, rest; split; auto; congruence.
  - now apply gate_panes.
  - intros es Fs. now apply gate_run.
Qed.

Lemma X15_witness :
  (observing root_connected = true -> first_settled root_connected) /\
  (~ first_settled root_connected ->
   observing root_connected = false /\ editors root_connected = [] /\
   panes root_connected = 0) /\
  panes root_connected = (if observing root_connected then 1 else 0) /\
  (forall es, first_settled root_connected ->
     observing (run es root_connected) = observing root_connected /\
     panes (run es root_connected) = panes root_connected).
Proof.
  exact (X15_workspace_observed_after_first_batch root_connected
           root_connected_reachable).
Defined.

(** X16: once the workspace is observed, only the opening and the
    closing of a document change the editors map: a connection created
    later is not offered the documents that are already open, which stay
    without an Editor. *)
Theorem X16_later_connection_binds_no_open_document (s : Flint) (e : event) :
  reachable s -> observing s = true -> of_workspace e = false ->
  editors (step s e) = editors s.
Proof.
  intros R O W. pose proof (gate_reachable s R) as G.
  destruct (gate_step s e G) as (_ & K & _).
  apply K; [|exact W]. now apply observing_first_settled.
Qed.

Lemma late_project_reachable : reachable late_project.
Proof.
  exists [], [],
    [TextEditorOpened (mkTextEditor 3 (Some "/late/x.js"));
     DidChangePaths ["/late"];
     RealPathSettled 0 (Some "/late"); FileExistsSettled 0 (Some true)].
  reflexivity.
Qed.

Lemma late_project_observing : observing late_project = true.
Proof. evaluate. Qed.

Lemma X16_witness :
  editors (step late_project (CreateSettled 0 (Some "/late"))) =
  editors late_project.
Proof.
  apply X16_later_connection_binds_no_open_document.
  - exact late_project_reachable.
  - exact late_project_observing.
  - reflexivity.
Defined.

Lemma editors_never_grow s e te ed :
  gate_inv s -> first_settled s -> observing s = false ->
  JsMap.get TextEditor_dec te (editors (step s e)) = Some ed ->
  JsMap.get TextEditor_dec te (editors s) = Some ed.
Proof.
  intros G Fs O. destruct (gate_step s e G) as (_ & K & _).
  destruct (K Fs) as (_ & _ & _ & Ee).
  destruct e as [paths|t r|t r|t r|c m|te'|te'];
    try (rewrite Ee by reflexivity; auto); cbn [step].
  - unfold on_opened.
    change (observing (set_workspace (workspace s ++ [te']) s))
      with (observing s).
    now rewrite O.
  - unfold on_closed.
    change (editors (set_workspace (remove TextEditor_dec te' (workspace s)) s))
      with (editors s).
    destruct (JsMap.get TextEditor_dec te' (editors s)) as [ed'|]; auto.
    unfold on_editor_destroyed.
    cbn [set_editors set_subscriptions set_workspace editors].
    rewrite get_delete. destruct (TextEditor_dec te te'); [discriminate|auto].
Qed.

(** X20: an observation that an exception has left is never taken up
    again.  In a reachable state where the promise of [activate]'s own
    [handlePaths] has settled and the workspace is not observed, whatever
    happens next the workspace stays unobserved, the active-pane hook
    stays unsubscribed and no document gets an Editor: a document opened
    later is not bound even if a connection is rooted above it. *)
Theorem X20_aborted_observation_is_final
    (s : Flint) (es : list event) :
  reachable s -> first_settled s -> observing s = false ->
  observing (run es s) = false /\ panes (run es s) = 0 /\
  forall te ed,
    JsMap.get TextEditor_dec te (editors (run es s)) = Some ed ->
    JsMap.get TextEditor_dec te (editors s) = Some ed.
Proof.
  intros R Fs O. pose proof (gate_reachable s R) as G.
  destruct (gate_run es s G) as (_ & K). destruct (K Fs) as (_ & Oe & Pe).
  split; [congruence|]. split.
  - rewrite Pe.
    rewrite (gate_panes s G). now rewrite O.
  - clear K Oe Pe R. revert s G Fs O.
    induction es as [|e es IH]; simpl; intros s G Fs O te ed H; auto.
    destruct (gate_step s e G) as (G' & K & _).
    destruct (K Fs) as (Fs' & O' & _).
    apply (editors_never_grow s e te ed G Fs O).
    apply (IH (step s e)); auto. congruence.
Qed.

Lemma observation_aborted_reachable : reachable observation_aborted.
Proof.
  exists [untitled_document; root_document], ["/root"], (connect 0 "/root").
  reflexivity.
Qed.

Lemma observation_aborted_batch :
  nth_error (batches observation_aborted) 0 =
  Some (mkBatch ["/root"] 0 Fulfilled []).
Proof. evaluate. Qed.

Lemma observation_aborted_settled : first_settled observation_aborted.
Proof.
  exists (mkBatch ["/root"] 0 Fulfilled []).
  split; [exact observation_aborted_batch|reflexivity].
Qed.

Lemma observation_aborted_unobserved : observing observation_aborted = false.
Proof. evaluate. Qed.

Lemma X20_witness :
  observing (run [TextEditorOpened rootother_document] observation_aborted) =
    false /\
  panes (run [TextEditorOpened rootother_document] observation_aborted) = 0 /\
  forall te ed,
    JsMap.get TextEditor_dec te
      (editors (run [TextEditorOpened rootother_document]
                  observation_aborted)) = Some ed ->
    JsMap.get TextEditor_dec te (editors observation_aborted) = Some ed.
Proof.
  exact (X20_aborted_observation_is_final observation_aborted
           [TextEditorOpened rootother_document]
           observation_aborted_reachable observation_aborted_settled
           observation_aborted_unobserved).
Defined.

(** ** The promises of one batch *)

Lemma count_update_nth (p : task -> bool) (f : task -> task) :
  forall ts t tk,
    nth_error ts t = Some tk ->
    length (filter p (update_nth t f ts)) + Nat.b2n (p tk) =
    length (filter p ts) + Nat.b2n (p (f tk)).
Proof.
  induction ts as [|x r IH]; intros [|t] tk E; simpl in *; try discriminate.
  - injection E as ->. destruct (p tk), (p (f tk)); simpl; lia.
  - specialize (IH t tk E). destruct (p x); simpl; lia.
Qed.

Lemma update_nth_none (A : Type) (f : A -> A) :
  forall l n, nth_error l n = None -> update_nth n f l = l.
Proof.
  induction l as [|x r IH]; intros [|n] E; simpl in *; try discriminate; auto.
  now rewrite IH.
Qed.

Lemma length_update_nth (A : Type) (f : A -> A) n (l : list A) :
  length (update_nth n f l) = length l.
Proof. revert n. induction l as [|x r IH]; intros [|n]; simpl; auto. Qed.

Lemma in_update_nth (f : task -> task) :
  (forall x, t_batch (f x) = t_batch x) ->
  forall ts n tk, In tk (update_nth n f ts) ->
    exists tk0, In tk0 ts /\ t_batch tk0 = t_batch tk.
Proof.
  intros Hf. induction ts as [|x r IH]; intros [|n] tk I; simpl in *;
    try tauto.
  - destruct I as [<-|I]; eauto.
  - destruct I as [<-|I]; eauto.
    destruct (IH _ _ I) as (tk0 & I0 & E). eauto.
Qed.

(** What [settle] does to the batches. *)
Lemma settle_batches t o s :
  batches (settle t o s) =
  match nth_error (tasks s) t with
  | None => batches s
  | Some tk =>
      match nth_error (batches s) (t_batch tk) with
      | None => batches s
      | Some bt =>
          match b_all bt, o with
          | Pending, Rejected =>
              update_nth (t_batch tk)
                (fun bt => mkBatch (b_paths bt) (b_remaining bt) Rejected [])
                (batches s)
          | Pending, _ =>
              if Nat.eqb (b_remaining bt) 1 then
                update_nth (t_batch tk)
                  (fun bt => mkBatch (b_paths bt) 0 Fulfilled []) (batches s)
              else
                update_nth (t_batch tk)
                  (fun bt => mkBatch (b_paths bt) (b_remaining bt - 1) Pending
                               (b_then bt))
                  (batches s)
          | _, _ => batches s
          end
      end
  end.
Proof.
  unfold settle. destruct (nth_error (tasks s) t) as [tk|]; [|reflexivity].
  change (batches (set_stage t (Settled o) s)) with (batches s).
  destruct (nth_error (batches s) (t_batch tk)) as [bt|]; [|reflexivity].
  assert (R : forall l s0, batches (fold_left run_reaction l s0) = batches s0).
  { intros l s0. exact (f_equal snd (reactions_work l s0)). }
  destruct (b_all bt); try reflexivity.
  destruct o; try (destruct (Nat.eqb (b_remaining bt) 1));
    rewrite ?R; reflexivity.
Qed.

Lemma batches_inv_same s s' :
  tasks s' = tasks s -> batches s' = batches s ->
  batches_inv s -> batches_inv s'.
Proof. unfold batches_inv. intros -> ->. auto. Qed.

(** A creation promise moves from one suspension to the next. *)
Lemma batches_inv_restage t st s tk :
  nth_error (tasks s) t = Some tk -> pending tk = true ->
  (forall o, st <> Settled o) ->
  batches_inv s -> batches_inv (set_stage t st s).
Proof.
  intros E P N (B & T). unfold batches_inv.
  change (batches (set_stage t st s)) with (batches s).
  change (tasks (set_stage t st s))
    with (update_nth t (fun tk => mkTask (t_batch tk) (t_path tk) st) (tasks s)).
  set (f := fun tk => mkTask (t_batch tk) (t_path tk) st).
  assert (Pf : pending (f tk) = true).
  { unfold pending, f. simpl. destruct st; auto. now destruct (N result). }
  assert (Ff : failed (f tk) = false).
  { unfold failed, f. simpl. destruct st; auto. now destruct (N result). }
  assert (Ft : failed tk = false).
  { unfold failed, pending in *. destruct (t_stage tk); auto. discriminate. }
  split.
  - intros b bt Eb. specialize (B b bt Eb).
    assert (O : outstanding b (update_nth t f (tasks s)) =
                outstanding b (tasks s)).
    { unfold outstanding.
      pose proof (count_update_nth
                    (fun tk => Nat.eqb (t_batch tk) b && pending tk) f
                    (tasks s) t tk E) as C.
      cbn beta in C. rewrite Pf, P in C.
      change (t_batch (f tk)) with (t_batch tk) in C. lia. }
    assert (F : failures b (update_nth t f (tasks s)) =
                failures b (tasks s)).
    { unfold failures.
      pose proof (count_update_nth
                    (fun tk => Nat.eqb (t_batch tk) b && failed tk) f
                    (tasks s) t tk E) as C.
      cbn beta in C. rewrite Ff, Ft in C.
      change (t_batch (f tk)) with (t_batch tk) in C. lia. }
    unfold batch_ok. now rewrite O, F.
  - intros tk' I.
    destruct (in_update_nth f (fun x => eq_refl) _ _ _ I) as (tk0 & I0 & <-).
    now apply T.
Qed.

(** A creation promise settles. *)
Lemma batches_inv_settle t o s tk :
  nth_error (tasks s) t = Some tk -> pending tk = true -> o <> Pending ->
  batches_inv s -> batches_inv (settle t o s).
Proof.
  intros E P No (B & T). unfold batches_inv.
  rewrite settle_tasks, settle_batches, E.
  set (f := fun tk => mkTask (t_batch tk) (t_path tk) (Settled o)).
  assert (Ft : failed tk = false).
  { unfold failed, pending in *. destruct (t_stage tk); auto. discriminate. }
  assert (O : forall b, outstanding b (update_nth t f (tasks s)) +
                        Nat.b2n (Nat.eqb (t_batch tk) b) =
                        outstanding b (tasks s)).
  { intros b. unfold outstanding.
    pose proof (count_update_nth
                  (fun tk => Nat.eqb (t_batch tk) b && pending tk) f
                  (tasks s) t tk E) as C.
    cbn beta in C. rewrite P in C.
    change (t_batch (f tk)) with (t_batch tk) in C.
    change (pending (f tk)) with false in C.
    rewrite andb_false_r, andb_true_r in C. simpl in C. lia. }
  assert (F : forall b, failures b (update_nth t f (tasks s)) =
                        failures b (tasks s) +
                        Nat.b2n (Nat.eqb (t_batch tk) b && failed (f tk))).
  { intros b. unfold failures.
    pose proof (count_update_nth
                  (fun tk => Nat.eqb (t_batch tk) b && failed tk) f
                  (tasks s) t tk E) as C.
    cbn beta in C. rewrite Ft in C.
    change (t_batch (f tk)) with (t_batch tk) in C.
    rewrite andb_false_r in C. simpl in C. lia. }
  assert (Lt : t_batch tk < length (batches s)).
  { apply T. eapply nth_error_In; eauto. }
  destruct (nth_error (batches s) (t_batch tk)) as [bt|] eqn:Eb;
    [|apply nth_error_None in Eb; lia].
  pose proof (B _ _ Eb) as Bk.
  assert (Tasks : forall l : list batch, length l = length (batches s) ->
            forall tk', In tk' (update_nth t f (tasks s)) ->
                        t_batch tk' < length l).
  { intros l -> tk' I.
    destruct (in_update_nth f (fun x => eq_refl) _ _ _ I) as (tk0 & I0 & <-).
    now apply T. }
  assert (Other : forall g b bt',
            nth_error (update_nth (t_batch tk) g (batches s)) b = Some bt' ->
            b <> t_batch tk ->
            batch_ok (update_nth t f (tasks s)) b (b_remaining bt') (b_all bt')).
  { intros g b bt' E' Nb. rewrite nth_error_update_nth in E'.
    apply Nat.eqb_neq in Nb. rewrite Nb in E'.
    specialize (B _ _ E'). specialize (O b). specialize (F b).
    rewrite Nat.eqb_sym in Nb. rewrite Nb in O, F. simpl in O, F.
    unfold batch_ok in *. rewrite F.
    replace (outstanding b (update_nth t f (tasks s)))
      with (outstanding b (tasks s)) by lia.
    now rewrite Nat.add_0_r. }
  assert (Same : forall b bt',
            nth_error (batches s) b = Some bt' ->
            b_all bt <> Pending ->
            batch_ok (update_nth t f (tasks s)) b (b_remaining bt') (b_all bt')).
  { intros b bt' E' Np.
    destruct (Nat.eq_dec b (t_batch tk)) as [->|Nb].
    - rewrite Eb in E'. injection E' as <-.
      specialize (O (t_batch tk)). specialize (F (t_batch tk)).
      rewrite Nat.eqb_refl in O, F. simpl in O, F.
      unfold batch_ok in *. destruct (b_all bt); [congruence|lia|lia].
    - apply (Other (fun x => x) b bt'); auto.
      rewrite nth_error_update_nth. apply Nat.eqb_neq in Nb. now rewrite Nb. }
  assert (Mine : forall g b bt',
            nth_error (update_nth (t_batch tk) g (batches s)) b = Some bt' ->
            b = t_batch tk -> bt' = g bt).
  { intros g b bt' E' ->. rewrite nth_error_update_nth, Nat.eqb_refl, Eb in E'.
    simpl in E'. congruence. }
  pose proof (O (t_batch tk)) as Ok. pose proof (F (t_batch tk)) as Fk.
  rewrite Nat.eqb_refl in Ok, Fk. simpl in Ok, Fk.
  destruct (b_all bt) eqn:Pe.
  - assert (Fulfil : o = Fulfilled -> failed (f tk) = false).
    { intros ->. reflexivity. }
    assert (Reject : o = Rejected -> failed (f tk) = true).
    { intros ->. reflexivity. }
    unfold batch_ok in Bk. destruct Bk as (Er & Po & Fo).
    destruct o; [congruence| |].
    + rewrite (Fulfil eq_refl) in Fk. simpl in Fk.
      destruct (Nat.eqb (b_remaining bt) 1) eqn:Q.
      * apply Nat.eqb_eq in Q. split.
        -- intros b bt' E'. destruct (Nat.eq_dec b (t_batch tk)) as [Eq|Nb].
           ++ rewrite (Mine _ _ _ E' Eq). subst b. simpl. lia.
           ++ eapply Other; eauto.
        -- apply Tasks. apply length_update_nth.
      * apply Nat.eqb_neq in Q. split.
        -- intros b bt' E'. destruct (Nat.eq_dec b (t_batch tk)) as [Eq|Nb].
           ++ rewrite (Mine _ _ _ E' Eq). subst b. simpl. lia.
           ++ eapply Other; eauto.
        -- apply Tasks. apply length_update_nth.
    + rewrite (Reject eq_refl) in Fk. simpl in Fk. split.
      * intros b bt' E'. destruct (Nat.eq_dec b (t_batch tk)) as [Eq|Nb].
        -- rewrite (Mine _ _ _ E' Eq). subst b. simpl. lia.
        -- eapply Other; eauto.
      * apply Tasks. apply length_update_nth.
  - split; [|apply Tasks; reflexivity].
    intros b bt' E'. apply Same; auto. congruence.
  - split; [|apply Tasks; reflexivity].
    intros b bt' E'. apply Same; auto. congruence.
Qed.

Lemma tally_fresh (q : task -> bool) b (ts : list task) :
  (forall tk, In tk ts -> t_batch tk < b) ->
  length (filter (fun tk => Nat.eqb (t_batch tk) b && q tk) ts) = 0.
Proof.
  induction ts as [|x r IH]; simpl; intros H; auto.
  assert (Q : Nat.eqb (t_batch x) b = false).
  { apply Nat.eqb_neq. specialize (H x (or_introl eq_refl)). lia. }
  rewrite Q. simpl. apply IH. auto.
Qed.

Lemma outstanding_spawned b i (l : list string) :
  outstanding i (map (fun p => mkTask b p AwaitRealPath) l) =
  if Nat.eqb b i then length l else 0.
Proof.
  unfold outstanding. induction l as [|p l IH]; simpl.
  - now destruct (Nat.eqb b i).
  - destruct (Nat.eqb b i); simpl; auto.
Qed.

Lemma failures_spawned b i (l : list string) :
  failures i (map (fun p => mkTask b p AwaitRealPath) l) = 0.
Proof.
  unfold failures. induction l as [|p l IH]; simpl; auto.
  rewrite andb_false_r. exact IH.
Qed.

Lemma outstanding_app b l1 l2 :
  outstanding b (l1 ++ l2) = outstanding b l1 + outstanding b l2.
Proof. unfold outstanding. now rewrite filter_app, length_app. Qed.

Lemma failures_app b l1 l2 :
  failures b (l1 ++ l2) = failures b l1 + failures b l2.
Proof. unfold failures. now rewrite filter_app, length_app. Qed.

Lemma batches_inv_handlePaths paths s :
  batches_inv s -> batches_inv (fst (handlePaths paths s)).
Proof.
  intros (B & T). unfold batches_inv.
  rewrite handlePaths_tasks, handlePaths_batch.
  fold (new_paths paths s). set (news := new_paths paths s).
  split.
  - intros i bt E.
    destruct (Nat.lt_ge_cases i (length (batches s))) as [Lt|Ge].
    + rewrite nth_error_app1 in E by exact Lt. specialize (B _ _ E).
      unfold batch_ok in *.
      rewrite outstanding_app, failures_app, outstanding_spawned,
        failures_spawned.
      assert (Q : Nat.eqb (length (batches s)) i = false)
        by (apply Nat.eqb_neq; lia).
      rewrite Q, !Nat.add_0_r. exact B.
    + rewrite nth_error_app2 in E by exact Ge.
      destruct (i - length (batches s)) as [|n] eqn:En; simpl in E;
        [|destruct n; discriminate].
      injection E as <-. assert (Ei : i = length (batches s)) by lia.
      subst i. unfold batch_ok.
      rewrite outstanding_app, failures_app, outstanding_spawned,
        failures_spawned, Nat.eqb_refl.
      unfold outstanding, failures. rewrite !tally_fresh by exact T.
      cbn [b_remaining b_all]. destruct news; simpl; lia.
  - intros tk I. rewrite length_app. simpl.
    apply in_app_or in I as [I|I].
    + specialize (T _ I). lia.
    + apply in_map_iff in I as (p & <- & _). simpl. lia.
Qed.

Lemma handleConnection_work path c s :
  work (handleConnection path c s) = work s.
Proof. destruct s. reflexivity. Qed.

Lemma batches_inv_work s s' :
  work s' = work s -> batches_inv s -> batches_inv s'.
Proof.
  intros Hw. apply batches_inv_same.
  - exact (f_equal fst Hw).
  - exact (f_equal snd Hw).
Qed.

Lemma batches_inv_then b r s :
  batches_inv s -> batches_inv (then_returned b r s).
Proof.
  intros G. unfold then_returned.
  destruct (nth_error (batches s) b) as [bt|] eqn:E; auto.
  destruct (returned bt); auto.
  - destruct G as (B & T). split.
    + intros i bt' E'. cbn [set_batches batches tasks] in *.
      rewrite nth_error_update_nth in E'.
      destruct (Nat.eqb i b); [|now apply B].
      destruct (nth_error (batches s) i) as [bt0|] eqn:E0; [|discriminate].
      simpl in E'. injection E' as <-. simpl. now apply B.
    + intros tk I. cbn [set_batches batches tasks] in *.
      rewrite length_update_nth. now apply T.
  - destruct r. eapply batches_inv_work; [|exact G].
    apply observe_workspace_work.
Qed.

Lemma batches_inv_step s e : batches_inv s -> batches_inv (step s e).
Proof.
  intros G. destruct e as [paths|t r|t r|t r|c m|te|te]; cbn [step].
  - now apply batches_inv_handlePaths.
  - unfold on_real_path.
    destruct (nth_error (tasks s) t) as [[b p []]|] eqn:E; auto.
    destruct r.
    + eapply batches_inv_restage; eauto. discriminate.
    + eapply batches_inv_settle; eauto. discriminate.
  - unfold on_file_exists.
    destruct (nth_error (tasks s) t) as [[b p []]|] eqn:E; auto.
    destruct r as [[]|].
    + eapply batches_inv_restage; eauto. discriminate.
    + eapply batches_inv_settle; eauto. discriminate.
    + eapply batches_inv_settle; eauto. discriminate.
  - unfold on_create.
    destruct (nth_error (tasks s) t) as [[b p []]|] eqn:E; auto.
    destruct r as [baseDir|].
    + set (c := mkConnection (length (heap s)) realPath baseDir).
      set (s0 := set_heap (heap s ++ [mkConnObj c false [] []]) s).
      pose proof (handleConnection_work realPath c s0) as Hw.
      apply batches_inv_settle
        with (tk := mkTask b p (AwaitCreate realPath configPath0));
        [| |discriminate|].
      * change (nth_error (fst (work (handleConnection realPath c s0))) t =
                Some (mkTask b p (AwaitCreate realPath configPath0))).
        rewrite Hw. exact E.
      * reflexivity.
      * eapply batches_inv_work; [|exact G]. exact Hw.
    + eapply batches_inv_settle; [exact E|reflexivity|discriminate|].
      eapply batches_inv_same; [| |exact G]; reflexivity.
  - eapply batches_inv_work; [|exact G]. apply dispatch_frame.
  - eapply batches_inv_work; [|exact G]. apply on_opened_work.
  - eapply batches_inv_work; [|exact G]. apply on_closed_work.
Qed.

Lemma batches_inv_reachable s : reachable s -> batches_inv s.
Proof.
  intros (opened & paths & es & ->).
  assert (A : batches_inv (activate opened paths)).
  { unfold activate. destruct (handlePaths paths _) as [s1 p] eqn:Eh.
    apply batches_inv_then. change s1 with (fst (s1, p)). rewrite <- Eh.
    apply batches_inv_handlePaths. split.
    - intros b bt E. destruct b; discriminate.
    - intros tk []. }
  revert A. generalize (activate opened paths).
  induction es as [|e es IH]; simpl; intros s G; auto.
  apply IH. now apply batches_inv_step.
Qed.

(** X17: In every reachable state the promise that an invocation of
    [handlePaths] returned is fulfilled exactly when every creation
    promise the invocation pushed has settled or one of them was rejected;
    as long as it is pending, the creation promises it waits for are the
    ones of its batch that have not settled. *)
Theorem X17_returned_promise_follows_its_creations
    (s : Flint) (b : nat) (bt : batch) :
  reachable s -> nth_error (batches s) b = Some bt ->
  (returned bt = Fulfilled <->
   outstanding b (tasks s) = 0 \/ 0 < failures b (tasks s)) /\
  (returned bt = Pending -> b_remaining bt = outstanding b (tasks s)) /\
  returned bt <> Rejected.
Proof.
  intros R E. destruct (batches_inv_reachable s R) as (B & _).
  specialize (B _ _ E). unfold batch_ok, returned in *.
  destruct (b_all bt); simpl; (split; [split|split]); try discriminate;
    try congruence; try tauto; try lia.
Qed.

Lemma unresolved_reachable : reachable unresolved.
Proof.
  exists [], ["/a"], [RealPathSettled 0 None]. reflexivity.
Qed.

Lemma unresolved_batch :
  nth_error (batches unresolved) 0 = Some (mkBatch ["/a"] 1 Rejected []).
Proof. evaluate. Qed.

Lemma X17_witness :
  (returned (mkBatch ["/a"] 1 Rejected []) = Fulfilled <->
   outstanding 0 (tasks unresolved) = 0 \/
   0 < failures 0 (tasks unresolved)) /\
  (returned (mkBatch ["/a"] 1 Rejected []) = Pending ->
   b_remaining (mkBatch ["/a"] 1 Rejected []) =
   outstanding 0 (tasks unresolved)) /\
  returned (mkBatch ["/a"] 1 Rejected []) <> Rejected.
Proof.
  exact (X17_returned_promise_follows_its_creations unresolved 0
           (mkBatch ["/a"] 1 Rejected []) unresolved_reachable
           unresolved_batch).
Defined.

(** ** The Editors among the subscriptions *)

(** A property of the editors map and of the subscriptions that binding a
    document, unbinding one and subscribing the active-pane hook keep
    holds in every reachable state. *)
Section Bindings.
Variable Q : JsMap.t TextEditor Editor -> list disposable -> Prop.
Hypothesis Q_bind :
  forall s te, Q (editors s) (subscriptions s) ->
    Q (editors (on_text_editor te s)) (subscriptions (on_text_editor te s)).
Hypothesis Q_pane : forall m l, Q m l -> Q m (l ++ [DPaneSubscription]).
Hypothesis Q_unbind :
  forall m l te ed, Q m l -> JsMap.get TextEditor_dec te m = Some ed ->
    Q (JsMap.delete TextEditor_dec te m)
      (filter (fun d => negb (disposable_is ed d)) l).

Lemma bindings_observe s :
  Q (editors s) (subscriptions s) ->
  Q (editors (observe_workspace s)) (subscriptions (observe_workspace s)).
Proof.
  intros H. unfold observe_workspace.
  assert (F : forall ws s0, Q (editors s0) (subscriptions s0) ->
                Q (editors (snd (observe_existing ws s0)))
                  (subscriptions (snd (observe_existing ws s0)))).
  { induction ws as [|te ws IH]; simpl; intros s0 H0; auto.
    destruct (getConnectionByPath (te_path te) s0); simpl; auto. }
  specialize (F (workspace s) s H).
  destruct (observe_existing (workspace s) s) as [[] s1]; simpl in F;
    [|exact F].
  cbn [set_subscriptions set_observing editors subscriptions].
  now apply Q_pane.
Qed.

Lemma bindings_reactions l :
  forall s, Q (editors s) (subscriptions s) ->
    Q (editors (fold_left run_reaction l s))
      (subscriptions (fold_left run_reaction l s)).
Proof.
  induction l as [|[] l IH]; simpl; intros s H; auto.
  apply IH. now apply bindings_observe.
Qed.

Lemma bindings_settle t o s :
  Q (editors s) (subscriptions s) ->
  Q (editors (settle t o s)) (subscriptions (settle t o s)).
Proof.
  intros H. unfold settle.
  destruct (nth_error (tasks s) t) as [tk|]; auto.
  destruct (nth_error (batches (set_stage t (Settled o) s)) (t_batch tk))
    as [bt|]; auto.
  destruct (b_all bt); auto.
  destruct o; try (destruct (Nat.eqb (b_remaining bt) 1)); auto;
    apply bindings_reactions; auto.
Qed.

Lemma bindings_shell s s' :
  shell s' = shell s -> Q (editors s) (subscriptions s) ->
  Q (editors s') (subscriptions s').
Proof.
  intros H. destruct (shell_fields _ _ H) as (-> & -> & _). auto.
Qed.

Lemma bindings_step s e :
  Q (editors s) (subscriptions s) ->
  Q (editors (step s e)) (subscriptions (step s e)).
Proof.
  intros H. destruct e as [paths|t r|t r|t r|c m|te|te]; cbn [step].
  - apply bindings_shell with (s := s); auto. apply shell_handlePaths.
  - unfold on_real_path.
    destruct (nth_error (tasks s) t) as [[b p []]|]; auto.
    destruct r; auto. now apply bindings_settle.
  - unfold on_file_exists.
    destruct (nth_error (tasks s) t) as [[b p []]|]; auto.
    destruct r as [[]|]; auto; now apply bindings_settle.
  - unfold on_create.
    destruct (nth_error (tasks s) t) as [[b p []]|]; auto.
    destruct r as [baseDir|]; apply bindings_settle; auto.
  - apply bindings_shell with (s := s); auto. apply shell_dispatch.
  - unfold on_opened.
    destruct (observing _); auto.
  - unfold on_closed.
    change (editors (set_workspace (remove TextEditor_dec te (workspace s)) s))
      with (editors s).
    destruct (JsMap.get TextEditor_dec te (editors s)) as [ed|] eqn:G; auto.
    unfold on_editor_destroyed.
    cbn [set_editors set_subscriptions set_workspace editors subscriptions].
    now apply Q_unbind.
Qed.

Lemma bindings_reachable :
  Q [] permanent ->
  forall s, reachable s -> Q (editors s) (subscriptions s).
Proof.
  intros H0 s (opened & paths & es & ->).
  assert (A : Q (editors (activate opened paths))
                (subscriptions (activate opened paths))).
  { unfold activate. destruct (handlePaths paths _) as [s1 p] eqn:E.
    assert (Hs : Q (editors s1) (subscriptions s1)).
    { change s1 with (fst (s1, p)). rewrite <- E.
      eapply bindings_shell; [apply shell_handlePaths|]. exact H0. }
    unfold then_returned. destruct (nth_error (batches s1) p) as [bt|]; auto.
    destruct (returned bt); auto.
    apply (bindings_reactions [ObserveWorkspace] s1 Hs). }
  revert A. generalize (activate opened paths).
  induction es as [|e es IH]; simpl; intros s A; auto.
  apply IH. now apply bindings_step.
Qed.
End Bindings.

Lemma subscribed_bind s te :
  subscribed (editors s) (subscriptions s) ->
  subscribed (editors (on_text_editor te s))
    (subscriptions (on_text_editor te s)).
Proof.
  intros (G & A & B & C).
  pose proof (good_editors_bind s te G) as G'.
  split; [exact G'|]. clear G'.
  unfold on_text_editor.
  destruct (getConnectionByPath (te_path te) s) as [[c|]|what];
    [|split; [|split]; auto..].
  cbn [set_editors set_subscriptions emit editors subscriptions].
  split; [|split].
  - intros te' e. rewrite get_set.
    destruct (TextEditor_dec te' te) as [->|]; intros H; apply in_or_app;
      [|left; eauto].
    injection H as <-. right. now left.
  - intros e I. unfold JsMap.has. rewrite get_set.
    destruct (TextEditor_dec (ed_textEditor e) te); [reflexivity|].
    apply in_app_or in I as [I|[[= <-]|[]]]; [|simpl in *; congruence].
    apply B in I. exact I. 
  - intros d I. apply in_or_app. left. now apply C.
Qed.

Lemma subscribed_pane m l :
  subscribed m l -> subscribed m (l ++ [DPaneSubscription]).
Proof.
  intros (G & A & B & C). split; [exact G|]. split; [|split].
  - intros te e H. apply in_or_app. left. eauto.
  - intros e I. apply in_app_or in I as [I|[[=]|[]]]. auto.
  - intros d I. apply in_or_app. left. now apply C.
Qed.

Lemma subscribed_unbind m l te ed :
  subscribed m l -> JsMap.get TextEditor_dec te m = Some ed ->
  subscribed (JsMap.delete TextEditor_dec te m)
    (filter (fun d => negb (disposable_is ed d)) l).
Proof.
  intros (G & A & B & C) E.
  pose proof (proj2 G _ _ E) as Ete.
  split; [now apply good_editors_delete|]. split; [|split].
  - intros te' e. rewrite get_delete.
    destruct (TextEditor_dec te' te) as [|N]; [discriminate|].
    intros H. apply filter_In. split; [eauto|].
    pose proof (proj2 G _ _ H) as Ete'. simpl.
    destruct (TextEditor_dec _ _); [congruence|reflexivity].
  - intros e I. apply filter_In in I as [I N]. simpl in N.
    destruct (TextEditor_dec (ed_textEditor e) (ed_textEditor ed)) as [|Ne];
      [discriminate|].
    unfold JsMap.has. rewrite get_delete.
    destruct (TextEditor_dec (ed_textEditor e) te); [congruence|].
    now apply B.
  - intros d I. apply filter_In. split; [now apply C|].
    destruct I as [<-|[<-|[<-|[<-|[<-|[<-|[]]]]]]]; reflexivity.
Qed.

Lemma subscribed_reachable s :
  reachable s -> subscribed (editors s) (subscriptions s).
Proof.
  apply bindings_reachable.
  - apply subscribed_bind.
  - apply subscribed_pane.
  - apply subscribed_unbind.
  - split; [|split; [|split]].
    + split; [constructor|]. intros te e; discriminate.
    + intros te e; discriminate.
    + intros e I. repeat (destruct I as [I|I]; [discriminate|]). destruct I.
    + apply incl_refl.
Qed.

(** X18: In every reachable state the Editor of every bound document is
    among the subscriptions, every Editor among the subscriptions wraps a
    bound document, and what the constructor and [activate] subscribed is
    still subscribed. *)
Theorem X18_editors_are_subscribed (s : Flint) :
  reachable s ->
  (forall te e, JsMap.get TextEditor_dec te (editors s) = Some e ->
     In (DEditor e) (subscriptions s)) /\
  (forall e, In (DEditor e) (subscriptions s) ->
     JsMap.has TextEditor_dec (ed_textEditor e) (editors s) = true) /\
  incl permanent (subscriptions s).
Proof.
  intros R. destruct (subscribed_reachable s R) as (_ & A & B & C). auto.
Qed.

Lemma X18_witness :
  (forall te e, JsMap.get TextEditor_dec te (editors root_bound) = Some e ->
     In (DEditor e) (subscriptions root_bound)) /\
  (forall e, In (DEditor e) (subscriptions root_bound) ->
     JsMap.has TextEditor_dec (ed_textEditor e) (editors root_bound) = true) /\
  incl permanent (subscriptions root_bound).
Proof.
  exact (X18_editors_are_subscribed root_bound root_bound_reachable).
Defined.

(** X19: Closing a document in a reachable state unbinds it and only it:
    the document has no Editor afterwards and none that wraps it is left
    among the subscriptions, the other documents keep their Editors, and
    the connections, the linter and the creation promises are as
    before. *)
Theorem X19_closing_unbinds_the_document (s : Flint) (te : TextEditor) :
  reachable s ->
  let s' := step s (TextEditorClosed te) in
  JsMap.get TextEditor_dec te (editors s') = None /\
  (forall e, In (DEditor e) (subscriptions s') -> ed_textEditor e <> te) /\
  (forall te', te' <> te ->
     JsMap.get TextEditor_dec te' (editors s') =
     JsMap.get TextEditor_dec te' (editors s)) /\
  registry s' = registry s /\ work s' = work s.
Proof.
  intros R s'.
  assert (R' : reachable s').
  { destruct R as (opened & paths & es & ->).
    exists opened, paths, (es ++ [TextEditorClosed te]).
    unfold s', run. now rewrite fold_left_app. }
  destruct (subscribed_reachable s' R') as (_ & _ & B & _).
  assert (Ed : editors s' = JsMap.delete TextEditor_dec te (editors s)).
  { unfold s'. cbn [step]. unfold on_closed.
    change (editors (set_workspace (remove TextEditor_dec te (workspace s)) s))
      with (editors s).
    destruct (JsMap.get TextEditor_dec te (editors s)) as [ed|] eqn:G;
      [reflexivity|].
    cbn [set_workspace editors]. symmetry.
    clear - G. induction (editors s) as [|[k v] r IH]; simpl in *; auto.
    destruct (TextEditor_dec te k); [discriminate|]. now rewrite IH. }
  assert (Gn : JsMap.get TextEditor_dec te (editors s') = None).
  { rewrite Ed, get_delete. destruct (TextEditor_dec te te); congruence. }
  split; [exact Gn|]. split; [|split; [|split]].
  - intros e I Q. apply B in I. unfold JsMap.has in I.
    rewrite Q, Gn in I. discriminate.
  - intros te' N. rewrite Ed, get_delete.
    destruct (TextEditor_dec te' te); congruence.
  - apply registry_calm. apply on_closed_calm.
  - apply on_closed_work.
Qed.

Lemma X19_witness :
  let s' := step root_bound (TextEditorClosed root_document) in
  JsMap.get TextEditor_dec root_document (editors s') = None /\
  (forall e, In (DEditor e) (subscriptions s') ->
     ed_textEditor e <> root_document) /\
  (forall te', te' <> root_document ->
     JsMap.get TextEditor_dec te' (editors s') =
     JsMap.get TextEditor_dec te' (editors root_bound)) /\
  registry s' = registry root_bound /\ work s' = work root_bound.
Proof.
  exact (X19_closing_unbinds_the_document root_bound root_document
           root_bound_reachable).
Defined.

(** ** Documents and their Editors *)














(** ** Editors are for open documents *)

Lemma bound_are_open_shell s s' :
  shell s' = shell s -> bound_are_open s -> bound_are_open s'.
Proof.
  unfold shell, bound_are_open. intros H. injection H as -> _ _ ->. auto.
Qed.

Lemma bound_are_open_bind te s :
  In te (workspace s) -> bound_are_open s ->
  bound_are_open (on_text_editor te s).
Proof.
  intros I P te' e.
  destruct (on_text_editor_open te s) as (_ & _ & _ & ->).
  rewrite on_text_editor_get.
  destruct (TextEditor_dec te' te) as [->|]; [|apply P].
  destruct (offered te s); [auto|apply P].
Qed.

Lemma bound_are_open_existing l :
  forall s, incl l (workspace s) -> bound_are_open s ->
    bound_are_open (snd (observe_existing l s)).
Proof.
  induction l as [|te l IH]; simpl; intros s I P; auto.
  assert (P' : bound_are_open (on_text_editor te s)).
  { apply bound_are_open_bind; auto. apply I. now left. }
  destruct (getConnectionByPath (te_path te) s); simpl; auto.
  apply IH; auto.
  destruct (on_text_editor_open te s) as (_ & _ & _ & ->).
  intros x Hx. apply I. now right.
Qed.

Lemma bound_are_open_observe s :
  bound_are_open s -> bound_are_open (observe_workspace s).
Proof.
  intros P. unfold observe_workspace.
  pose proof (bound_are_open_existing (workspace s) s (incl_refl _) P) as H.
  destruct (observe_existing (workspace s) s) as [[] s1]; exact H.
Qed.

Lemma bound_are_open_reactions l :
  forall s, bound_are_open s -> bound_are_open (fold_left run_reaction l s).
Proof.
  induction l as [|[] l IH]; simpl; intros s H; auto.
  apply IH. now apply bound_are_open_observe.
Qed.

Lemma bound_are_open_settle t o s :
  bound_are_open s -> bound_are_open (settle t o s).
Proof.
  intros H. unfold settle.
  destruct (nth_error (tasks s) t) as [tk|]; auto.
  destruct (nth_error (batches (set_stage t (Settled o) s)) (t_batch tk))
    as [bt|]; auto.
  destruct (b_all bt); auto.
  destruct o; try (destruct (Nat.eqb (b_remaining bt) 1)); auto;
    apply bound_are_open_reactions; auto.
Qed.

Lemma bound_are_open_step s e :
  bound_are_open s -> bound_are_open (step s e).
Proof.
  intros H. destruct e as [paths|t r|t r|t r|c m|te|te]; cbn [step].
  - apply bound_are_open_shell with (s := s); auto. apply shell_handlePaths.
  - unfold on_real_path.
    destruct (nth_error (tasks s) t) as [[b p []]|]; auto.
    destruct r; auto. now apply bound_are_open_settle.
  - unfold on_file_exists.
    destruct (nth_error (tasks s) t) as [[b p []]|]; auto.
    destruct r as [[]|]; auto; now apply bound_are_open_settle.
  - unfold on_create.
    destruct (nth_error (tasks s) t) as [[b p []]|]; auto.
    destruct r as [baseDir|]; apply bound_are_open_settle; auto.
  - apply bound_are_open_shell with (s := s); auto. apply shell_dispatch.
  - unfold on_opened.
    set (s1 := set_workspace (workspace s ++ [te]) s).
    assert (P1 : bound_are_open s1).
    { intros te' e' G. apply in_or_app. left. now apply (H te' e'). }
    change (observing s1) with (observing s).
    destruct (observing s); auto.
    apply bound_are_open_bind; auto. apply in_or_app. right. now left.
  - unfold on_closed.
    change (editors (set_workspace (remove TextEditor_dec te (workspace s)) s))
      with (editors s).
    destruct (JsMap.get TextEditor_dec te (editors s)) as [ed|] eqn:G.
    + intros te' e'. unfold on_editor_destroyed.
      cbn [set_editors set_subscriptions set_workspace editors workspace].
      rewrite get_delete. destruct (TextEditor_dec te' te) as [|N];
        [discriminate|].
      intros G'. apply in_in_remove; auto. now apply (H te' e').
    + intros te' e' G'. cbn [set_workspace editors workspace] in *.
      apply in_in_remove; [|now apply (H te' e')].
      intros ->. congruence.
Qed.

Lemma bound_are_open_reachable s : reachable s -> bound_are_open s.
Proof.
  intros (opened & paths & es & ->).
  assert (A : bound_are_open (activate opened paths)).
  { unfold activate. destruct (handlePaths paths _) as [s1 p] eqn:E.
    assert (Hs : bound_are_open s1).
    { change s1 with (fst (s1, p)). rewrite <- E.
      eapply bound_are_open_shell; [apply shell_handlePaths|].
      intros te e; discriminate. }
    unfold then_returned. destruct (nth_error (batches s1) p) as [bt|]; auto.
    destruct (returned bt); auto.
    apply (bound_are_open_observe s1 Hs). }
  revert A. generalize (activate opened paths).
  induction es as [|e es IH]; simpl; intros s A; auto.
  apply IH. now apply bound_are_open_step.
Qed.

(** X1: the Editor handed to the autocomplete provider or to the status
    icon for a text editor is the one the editors map holds for it; in
    every reachable state it wraps that very text editor, the text editor
    is open, and the Editor is among the subscriptions. *)
Theorem X1_provided_editor_wraps_document :
  forall s te e,
    reachable s ->
    on_should_provide_editor te s = Some e \/ active_pane te s = Some e ->
    JsMap.get TextEditor_dec te (editors s) = Some e /\
    ed_textEditor e = te /\
    In te (workspace s) /\
    In (DEditor e) (subscriptions s).
Proof.
  intros s te e R H.
  assert (G : JsMap.get TextEditor_dec te (editors s) = Some e).
  { destruct H as [H|H]; [exact H|].
    unfold active_pane in H.
    destruct (JsMap.get TextEditor_dec te (editors s)); [exact H|discriminate]. }
  split; [exact G|].
  destruct (subscribed_reachable s R) as ((_ & Good) & A & _).
  split; [now apply Good|]. split; [|now apply (A te e)].
  now apply (bound_are_open_reachable s R te e).
Qed.

Lemma X1_witness :
  JsMap.get TextEditor_dec root_document (editors root_bound) =
    Some root_editor /\
  ed_textEditor root_editor = root_document /\
  In root_document (workspace root_bound) /\
  In (DEditor root_editor) (subscriptions root_bound).
Proof.
  exact (X1_provided_editor_wraps_document root_bound root_document
           root_editor root_bound_reachable
           (or_introl root_bound_provides)).
Defined.
